(** * hqlockfree: a shallow embedding of the lock-free containers

    The development follows the layout of the library: the cache
    substrate ([cache_utils.hpp]), the reserve/commit barrier
    ([write_confirm.hpp]), the callback daemon ([daemon.cpp]), the three
    ring queues and the append-only vector.

    Conventions.
    - [size_t] and [uint64_t] are values of [Z] in [0, 2^64); every
      arithmetic operation of the source is followed by [wrap].
    - A call returns an [outcome]: it returns a value, it busy-waits for
      ever when no other thread runs ([Spins]), or it has no defined
      behaviour in C++ ([Undefined]: subscript out of range, division by
      zero, over-wide shift, dangling pointer).
    - Objects owned through [std::unique_ptr] live in a store indexed by
      address; a raw pointer is an address.
    - Allocation never fails: [std::bad_alloc] and [std::length_error]
      are outside the model. *)

From Stdlib Require Import ZArith Lia List Bool String.
From stdpp Require Import base option list gmap.

Local Open Scope Z_scope.

(** ** Outcomes of a call *)

Inductive outcome (A : Type) : Type :=
| Ret (a : A)
| Spins
| Undefined.

Arguments Ret {A} a.
Arguments Spins {A}.
Arguments Undefined {A}.

#[export] Instance outcome_ret : MRet outcome := fun A a => Ret a.

#[export] Instance outcome_bind : MBind outcome := fun A B f m =>
  match m with
  | Ret a => f a
  | Spins => Spins
  | Undefined => Undefined
  end.

(** [std::uint64_t] / [size_t] wrap-around. *)
Definition wrap (z : Z) : Z := z mod 2 ^ 64.

(** A loop whose counter doubles modulo [2^64] either leaves within 65
    tests or never does: the counter is 0 from the 64th doubling on. *)
Definition loop_fuel : nat := 66%nat.

(** ** cache_utils.hpp *)

Module CacheUtils.

Definition cache_line_size : Z := 64.

Module pow2_factory.

Fixpoint lower_loop (fuel : nat) (value current : Z) : outcome Z :=
  match fuel with
  | O => Spins
  | S fuel' =>
      if current <=? value
      then lower_loop fuel' value (wrap (Z.shiftl current 1))
      else Ret (Z.shiftr current 1)
  end.

(** Greatest power of two less than or equal to [value]. *)
Definition lower (value : Z) : outcome Z := lower_loop loop_fuel value 1.

Fixpoint upper_loop (fuel : nat) (value current : Z) : outcome Z :=
  match fuel with
  | O => Spins
  | S fuel' =>
      if current <? value
      then upper_loop fuel' value (wrap (Z.shiftl current 1))
      else Ret current
  end.

(** Smallest power of two greater than or equal to [value]. *)
Definition upper (value : Z) : outcome Z := upper_loop loop_fuel value 1.

End pow2_factory.

Module log2_factory.

Fixpoint lower_loop (fuel : nat) (value current out : Z) : outcome Z :=
  match fuel with
  | O => Spins
  | S fuel' =>
      if current <=? value
      then lower_loop fuel' value (wrap (Z.shiftl current 1)) (wrap (out + 1))
      else Ret (wrap (out - 1))
  end.

Definition lower (value : Z) : outcome Z := lower_loop loop_fuel value 1 0.

Fixpoint upper_loop (fuel : nat) (value current out : Z) : outcome Z :=
  match fuel with
  | O => Spins
  | S fuel' =>
      if current <? value
      then upper_loop fuel' value (wrap (Z.shiftl current 1)) (wrap (out + 1))
      else Ret out
  end.

Definition upper (value : Z) : outcome Z := upper_loop loop_fuel value 1 0.

End log2_factory.

Inductive cache_size_policy : Type := exact | pow2.

(** [elements_per_cache_line<T, size_policy>::value], for an element type
    of [sizeof_T] bytes.  The value is a constant expression: the [pow2]
    specialisation exists only when [pow2_factory::lower] returns. *)
Definition elements_per_cache_line (sizeof_T : Z) (size_policy : cache_size_policy) : Z :=
  let exact_value :=
    if sizeof_T >? cache_line_size then 1 else cache_line_size / sizeof_T in
  match size_policy with
  | exact => exact_value
  | pow2 => match pow2_factory.lower exact_value with
            | Ret v => v
            | _ => 0
            end
  end.

(** [mod_indexer<exact>] keeps the divisor, [mod_indexer<pow2>] the mask. *)
Inductive mod_indexer : Type :=
| mod_exact (m_sz : Z)
| mod_pow2 (m_mask : Z).

Definition new_mod_indexer (size_policy : cache_size_policy) (sz : Z) : mod_indexer :=
  match size_policy with
  | exact => mod_exact sz
  | pow2 => mod_pow2 (wrap (sz - 1))
  end.

Definition mod_index (m : mod_indexer) (index : Z) : outcome Z :=
  match m with
  | mod_exact m_sz => if m_sz =? 0 then Undefined else Ret (index mod m_sz)
  | mod_pow2 m_mask => Ret (Z.land index m_mask)
  end.

(** [div_indexer<exact>] keeps the divisor, [div_indexer<pow2>] the shift. *)
Inductive div_indexer : Type :=
| div_exact (m_sz : Z)
| div_pow2 (m_shift : Z).

Definition new_div_indexer (size_policy : cache_size_policy) (sz : Z) : outcome div_indexer :=
  match size_policy with
  | exact => Ret (div_exact sz)
  | pow2 => m_shift ← log2_factory.lower sz; Ret (div_pow2 m_shift)
  end.

Definition div_index (d : div_indexer) (index : Z) : outcome Z :=
  match d with
  | div_exact m_sz => if m_sz =? 0 then Undefined else Ret (index / m_sz)
  | div_pow2 m_shift => if 64 <=? m_shift then Undefined else Ret (Z.shiftr index m_shift)
  end.

Section Buffer.

(** The element type, its value-initialised value, its size in bytes,
    and the packing policy (the class's template parameters). *)
Variable T : Type.
Variable T_default : T.
Variable sizeof_T : Z.
Variable size_policy : cache_size_policy.

Record false_sharing_optimized_buffer : Type := {
  m_lines : list (list T);
  m_mod_index : mod_indexer;
  m_div_index : div_indexer;
  m_mod_index2 : mod_indexer
}.

(** The static member [cache_line_size] of the buffer: elements per line. *)
Definition elements_per_line : Z := elements_per_cache_line sizeof_T size_policy.

Definition calc_min_cache_lines (min_cache_lines : Z) : outcome Z :=
  match size_policy with
  | exact => Ret min_cache_lines
  | pow2 => pow2_factory.upper min_cache_lines
  end.

Definition number_of_cache_lines (b : false_sharing_optimized_buffer) : Z :=
  Z.of_nat (length (m_lines b)).

Definition size (b : false_sharing_optimized_buffer) : Z :=
  wrap (number_of_cache_lines b * elements_per_line).

(** The constructor: members are initialised in declaration order, so
    [size()] in the last initialiser already sees [m_lines]. *)
Definition new_buffer (minimum_cache_lines minimum_elements : Z)
  : outcome false_sharing_optimized_buffer :=
  lines ← calc_min_cache_lines minimum_cache_lines;
  let count :=
    Z.max lines
      (wrap (minimum_elements + wrap (elements_per_line - 1)) / elements_per_line) in
  let storage :=
    replicate (Z.to_nat count) (replicate (Z.to_nat elements_per_line) T_default) in
  let sz := Z.of_nat (length storage) in
  dv ← new_div_indexer size_policy sz;
  Ret {| m_lines := storage;
         m_mod_index := new_mod_indexer size_policy sz;
         m_div_index := dv;
         m_mod_index2 := new_mod_indexer size_policy (wrap (sz * elements_per_line)) |}.

(** The two subscripts [get] computes: the line, and the element in it. *)
Definition get_index (b : false_sharing_optimized_buffer) (idx : Z) : outcome (Z * Z) :=
  line ← mod_index (m_mod_index b) idx;
  flat ← mod_index (m_mod_index2 b) idx;
  slot ← div_index (m_div_index b) flat;
  Ret (line, slot).

(** Reading through the reference [get] returns. *)
Definition get (b : false_sharing_optimized_buffer) (idx : Z) : outcome T :=
  '(line, slot) ← get_index b idx;
  match m_lines b !! Z.to_nat line with
  | Some l =>
      match l !! Z.to_nat slot with
      | Some x => Ret x
      | None => Undefined
      end
  | None => Undefined
  end.

(** Writing through the reference [get] returns: [b[idx] = v]. *)
Definition assign (b : false_sharing_optimized_buffer) (idx : Z) (v : T)
  : outcome false_sharing_optimized_buffer :=
  '(line, slot) ← get_index b idx;
  match m_lines b !! Z.to_nat line with
  | Some l =>
      if decide (Z.to_nat slot < length l)%nat
      then Ret {| m_lines := <[Z.to_nat line := <[Z.to_nat slot := v]> l]> (m_lines b);
                  m_mod_index := m_mod_index b;
                  m_div_index := m_div_index b;
                  m_mod_index2 := m_mod_index2 b |}
      else Undefined
  | None => Undefined
  end.

End Buffer.

Arguments m_lines {T} _.
Arguments m_mod_index {T} _.
Arguments m_div_index {T} _.
Arguments m_mod_index2 {T} _.
Arguments number_of_cache_lines {T} _.
Arguments size {T} _ _ _.
Arguments get_index {T} _ _.
Arguments get {T} _ _.
Arguments assign {T} _ _ _.

End CacheUtils.


(** ** write_confirm.hpp *)

Module WriteConfirm.

Record write_confirm : Type := {
  m_write_head : Z;
  m_read_head : Z
}.

Definition new_write_confirm : write_confirm :=
  {| m_write_head := 0; m_read_head := 0 |}.

(** [fetch_add(1)] on the write head: the old value, and the new barrier. *)
Definition get_write_index (w : write_confirm) : Z * write_confirm :=
  (m_write_head w,
   {| m_write_head := wrap (m_write_head w + 1); m_read_head := m_read_head w |}).

Definition get_read_index (w : write_confirm) : Z := m_read_head w.

(** [m_read_head.compare_exchange_weak(expected, desired)]: whether it
    succeeded, the value [expected] holds afterwards, and the new barrier.
    A weak exchange may fail although the values compare equal; [spurious]
    says that this attempt does. *)
Definition compare_exchange_weak (spurious : bool) (w : write_confirm)
    (expected desired : Z) : bool * Z * write_confirm :=
  if (m_read_head w =? expected) && negb spurious
  then (true, expected, {| m_write_head := m_write_head w; m_read_head := desired |})
  else (false, m_read_head w, w).

(** One turn of the loop of [confirm_write]: [expected] is [written_index]
    when the exchange is attempted (initially, and by the reset after each
    failure).  [inl w'] leaves the loop, [inr w'] goes round again. *)
Definition confirm_write_turn (spurious : bool) (w : write_confirm)
    (written_index desired : Z) : write_confirm + write_confirm :=
  let expected := written_index in
  let '(ok, expected, w') := compare_exchange_weak spurious w expected desired in
  if ok then inl w'
  else if desired <=? expected then inl w'
  else inr w'.

(** The loop, run with no other thread: [spurious] lists which of the
    first attempts fail spuriously, later attempts are genuine.  A genuine
    attempt that goes round again finds the same [m_read_head] and the same
    [expected], so the loop never ends. *)
Fixpoint confirm_write_loop (spurious : list bool) (w : write_confirm)
    (written_index desired : Z) : outcome write_confirm :=
  match spurious with
  | s :: rest =>
      match confirm_write_turn s w written_index desired with
      | inl w' => Ret w'
      | inr w' => confirm_write_loop rest w' written_index desired
      end
  | [] =>
      match confirm_write_turn false w written_index desired with
      | inl w' => Ret w'
      | inr _ => Spins
      end
  end.

Definition confirm_write (spurious : list bool) (w : write_confirm)
    (written_index : Z) : outcome write_confirm :=
  confirm_write_loop spurious w written_index (wrap (written_index + 1)).

(** The atomic accesses the three operations make; threads interleave at
    this grain.  Every exchange [confirm_write written_index] attempts is
    from [written_index] to [written_index + 1]. *)
Inductive atomic_access : Type :=
| fetch_add_write_head
| load_read_head
| exchange_read_head (written_index : Z) (spurious : bool).

Definition access (a : atomic_access) (w : write_confirm) : write_confirm :=
  match a with
  | fetch_add_write_head => snd (get_write_index w)
  | load_read_head => w
  | exchange_read_head written_index spurious =>
      snd (compare_exchange_weak spurious w written_index (wrap (written_index + 1)))
  end.

Definition accesses (l : list atomic_access) (w : write_confirm) : write_confirm :=
  fold_left (fun w a => access a w) l w.

(** The written indices a trace of accesses commits. *)
Definition written_indices (l : list atomic_access) : list Z :=
  flat_map (fun a => match a with
                     | exchange_read_head i _ => [i]
                     | _ => []
                     end) l.

End WriteConfirm.

(** ** daemon.hpp / daemon.cpp: the callback registry *)

Module Daemon.

Section Registry.

(** [std::function<void()>]. *)
Variable callback : Type.

Record daemon : Type := {
  m_callbacks : gmap Z callback;
  m_next_callback : Z
}.

Definition new_daemon : daemon :=
  {| m_callbacks := ∅; m_next_callback := 0 |}.

Definition add_callback (func : callback) (d : daemon) : Z * daemon :=
  let key := m_next_callback d in
  (key, {| m_callbacks := <[key := func]> (m_callbacks d);
           m_next_callback := wrap (key + 1) |}).

Definition remove_callback (key : Z) (d : daemon) : daemon :=
  match m_callbacks d !! key with
  | None => d
  | Some _ => {| m_callbacks := delete key (m_callbacks d);
                 m_next_callback := m_next_callback d |}
  end.

(** [find_or_create_daemon()]: [g_daemon] is the function's static
    pointer, empty until the first call.  The daemon the returned pointer
    designates, and [g_daemon] after the call. *)
Definition find_or_create_daemon (g_daemon : option daemon) : daemon * option daemon :=
  match g_daemon with
  | None => (new_daemon, Some new_daemon)
  | Some d => (d, Some d)
  end.

End Registry.

End Daemon.

(** ** spsc_queue.hpp *)

Module SpscQueue.

Import CacheUtils.

Section Queue.

Variable T : Type.
Variable T_default : T.
(** What an element holds after it was moved from. *)
Variable T_moved_from : T -> T.
Variable sizeof_T : Z.
Variable size_policy : cache_size_policy.

Record spsc_queue : Type := {
  m_buffer : false_sharing_optimized_buffer T;
  m_private_head : Z;
  m_head : Z;
  m_tail : Z;
  m_capacity : Z;
  m_free_capacity_needed : Z
}.

Definition new_spsc_queue (min_cache_lines min_elements : Z) : outcome spsc_queue :=
  b ← new_buffer T T_default sizeof_T size_policy min_cache_lines min_elements;
  let capacity := size sizeof_T size_policy b in
  Ret {| m_buffer := b;
         m_private_head := 0;
         m_head := 0;
         m_tail := 0;
         m_capacity := capacity;
         m_free_capacity_needed := wrap (capacity - 1) |}.

Definition capacity (q : spsc_queue) : Z := m_capacity q.

Definition size (q : spsc_queue) : Z := wrap (m_head q - m_tail q).

Definition get_free_index (q : spsc_queue) : outcome (Z * spsc_queue) :=
  let index := m_private_head q in
  let q' := {| m_buffer := m_buffer q;
               m_private_head := wrap (index + 1);
               m_head := m_head q;
               m_tail := m_tail q;
               m_capacity := m_capacity q;
               m_free_capacity_needed := m_free_capacity_needed q |} in
  if m_free_capacity_needed q <=? wrap (index - m_tail q)
  then Spins
  else Ret (index, q').

Definition update_read_head (written_index : Z) (q : spsc_queue) : spsc_queue :=
  {| m_buffer := m_buffer q;
     m_private_head := m_private_head q;
     m_head := wrap (written_index + 1);
     m_tail := m_tail q;
     m_capacity := m_capacity q;
     m_free_capacity_needed := m_free_capacity_needed q |}.

Definition push (value : T) (q : spsc_queue) : outcome spsc_queue :=
  '(index, q1) ← get_free_index q;
  b ← assign (m_buffer q1) index value;
  let q2 := {| m_buffer := b;
               m_private_head := m_private_head q1;
               m_head := m_head q1;
               m_tail := m_tail q1;
               m_capacity := m_capacity q1;
               m_free_capacity_needed := m_free_capacity_needed q1 |} in
  Ret (update_read_head index q2).

(** [pop(value)]: the returned flag, what [value] holds afterwards, and
    the queue. *)
Definition pop (value : T) (q : spsc_queue) : outcome (bool * T * spsc_queue) :=
  let index := m_tail q in
  let head := m_head q in
  if head <=? index then Ret (false, value, q)
  else
    x ← get (m_buffer q) index;
    b ← assign (m_buffer q) index (T_moved_from x);
    Ret (true, x,
         {| m_buffer := b;
            m_private_head := m_private_head q;
            m_head := m_head q;
            m_tail := wrap (index + 1);
            m_capacity := m_capacity q;
            m_free_capacity_needed := m_free_capacity_needed q |}).

(** A single-threaded run of producer and consumer calls, with the
    values the successful pops returned, oldest first. *)
Inductive call : Type :=
| call_push (value : T)
| call_pop.

Fixpoint run (calls : list call) (q : spsc_queue) : outcome (list T * spsc_queue) :=
  match calls with
  | [] => Ret ([], q)
  | call_push value :: rest => q' ← push value q; run rest q'
  | call_pop :: rest =>
      '(ok, x, q') ← pop T_default q;
      '(popped, q'') ← run rest q';
      Ret (if ok : bool then x :: popped else popped, q'')
  end.

End Queue.

Arguments m_buffer {T} _.
Arguments m_private_head {T} _.
Arguments m_head {T} _.
Arguments m_tail {T} _.
Arguments m_capacity {T} _.
Arguments m_free_capacity_needed {T} _.
Arguments capacity {T} _.
Arguments size {T} _.
Arguments push {T} _ _.
Arguments pop {T} _ _ _.
Arguments call_push {T} _.
Arguments call_pop {T}.

End SpscQueue.

(** ** mpsc_queue.hpp *)

Module MpscQueue.

Import CacheUtils WriteConfirm.

Section Queue.

Variable T : Type.
Variable T_default : T.
Variable T_moved_from : T -> T.
Variable sizeof_T : Z.
Variable size_policy : cache_size_policy.

Record mpsc_queue : Type := {
  m_buffer : false_sharing_optimized_buffer T;
  m_write_confirm : write_confirm;
  m_tail : Z;
  m_capacity : Z;
  m_free_capacity_needed : Z
}.

Definition new_mpsc_queue (min_cache_lines min_elements : Z) : outcome mpsc_queue :=
  b ← new_buffer T T_default sizeof_T size_policy min_cache_lines min_elements;
  let capacity := CacheUtils.size sizeof_T size_policy b in
  Ret {| m_buffer := b;
         m_write_confirm := new_write_confirm;
         m_tail := 0;
         m_capacity := capacity;
         m_free_capacity_needed := wrap (capacity - 1) |}.

Definition with_buffer (b : false_sharing_optimized_buffer T) (q : mpsc_queue) : mpsc_queue :=
  {| m_buffer := b;
     m_write_confirm := m_write_confirm q;
     m_tail := m_tail q;
     m_capacity := m_capacity q;
     m_free_capacity_needed := m_free_capacity_needed q |}.

Definition with_write_confirm (w : write_confirm) (q : mpsc_queue) : mpsc_queue :=
  {| m_buffer := m_buffer q;
     m_write_confirm := w;
     m_tail := m_tail q;
     m_capacity := m_capacity q;
     m_free_capacity_needed := m_free_capacity_needed q |}.

Definition with_tail (t : Z) (q : mpsc_queue) : mpsc_queue :=
  {| m_buffer := m_buffer q;
     m_write_confirm := m_write_confirm q;
     m_tail := t;
     m_capacity := m_capacity q;
     m_free_capacity_needed := m_free_capacity_needed q |}.

Definition size (q : mpsc_queue) : Z :=
  wrap (get_read_index (m_write_confirm q) - m_tail q).

Definition capacity (q : mpsc_queue) : Z := m_capacity q.

Definition get_free_index (q : mpsc_queue) : outcome (Z * mpsc_queue) :=
  let '(index, w) := get_write_index (m_write_confirm q) in
  if m_free_capacity_needed q <=? wrap (index - m_tail q)
  then Spins
  else Ret (index, with_write_confirm w q).

Definition update_read_head (spurious : list bool) (written_index : Z) (q : mpsc_queue)
  : outcome mpsc_queue :=
  w ← confirm_write spurious (m_write_confirm q) written_index;
  Ret (with_write_confirm w q).

Definition push (spurious : list bool) (value : T) (q : mpsc_queue) : outcome mpsc_queue :=
  '(index, q1) ← get_free_index q;
  b ← assign (m_buffer q1) index value;
  update_read_head spurious index (with_buffer b q1).

(** [pop(value)]: the returned flag, what [value] holds afterwards, and
    the queue. *)
Definition pop (value : T) (q : mpsc_queue) : outcome (bool * T * mpsc_queue) :=
  let read_head := get_read_index (m_write_confirm q) in
  let tail := m_tail q in
  if read_head <=? tail then Ret (false, value, q)
  else
    x ← get (m_buffer q) tail;
    b ← assign (m_buffer q) tail (T_moved_from x);
    Ret (true, x, with_tail (wrap (tail + 1)) (with_buffer b q)).

End Queue.

Arguments m_buffer {T} _.
Arguments m_write_confirm {T} _.
Arguments m_tail {T} _.
Arguments m_capacity {T} _.
Arguments m_free_capacity_needed {T} _.
Arguments with_buffer {T} _ _.
Arguments with_write_confirm {T} _ _.
Arguments with_tail {T} _ _.
Arguments size {T} _.
Arguments capacity {T} _.
Arguments push {T} _ _ _.
Arguments pop {T} _ _ _.

End MpscQueue.

(** ** mpmc_fanout.hpp *)

Module MpmcFanout.

Import CacheUtils WriteConfirm.

(** A handle's own members; its references [m_buffer] and
    [m_write_confirmer] are the queue's members of the same names. *)
Record subscription_handle : Type := {
  h_tail : Z;
  h_subscribed : bool
}.

Definition get_tail (h : subscription_handle) : Z := h_tail h.

Definition subscribed (h : subscription_handle) : bool := h_subscribed h.

Section Queue.

Variable T : Type.
Variable T_default : T.
Variable sizeof_T : Z.
Variable size_policy : cache_size_policy.

(** [m_subscriptions] holds the owning pointers, in order; [handles] is
    the store the pointers point into. *)
Record mpmc_fanout : Type := {
  m_buffer : false_sharing_optimized_buffer T;
  m_write_confirmer : write_confirm;
  m_min_tail : Z;
  m_capacity : Z;
  m_free_capacity_needed : Z;
  m_subscriptions : list nat;
  handles : gmap nat subscription_handle;
  m_callback_key : Z
}.

Definition with_buffer (b : false_sharing_optimized_buffer T) (q : mpmc_fanout) : mpmc_fanout :=
  {| m_buffer := b;
     m_write_confirmer := m_write_confirmer q;
     m_min_tail := m_min_tail q;
     m_capacity := m_capacity q;
     m_free_capacity_needed := m_free_capacity_needed q;
     m_subscriptions := m_subscriptions q;
     handles := handles q;
     m_callback_key := m_callback_key q |}.

Definition with_write_confirmer (w : write_confirm) (q : mpmc_fanout) : mpmc_fanout :=
  {| m_buffer := m_buffer q;
     m_write_confirmer := w;
     m_min_tail := m_min_tail q;
     m_capacity := m_capacity q;
     m_free_capacity_needed := m_free_capacity_needed q;
     m_subscriptions := m_subscriptions q;
     handles := handles q;
     m_callback_key := m_callback_key q |}.

Definition with_subscriptions (subs : list nat) (hs : gmap nat subscription_handle)
    (min_tail : Z) (q : mpmc_fanout) : mpmc_fanout :=
  {| m_buffer := m_buffer q;
     m_write_confirmer := m_write_confirmer q;
     m_min_tail := min_tail;
     m_capacity := m_capacity q;
     m_free_capacity_needed := m_free_capacity_needed q;
     m_subscriptions := subs;
     handles := hs;
     m_callback_key := m_callback_key q |}.

(** The constructor registers [update] (the closure that calls
    [update_min_tail] on this queue) with the daemon. *)
Definition new_mpmc_fanout {callback : Type} (update : callback)
    (d : Daemon.daemon callback) (min_cache_lines min_elements : Z)
  : outcome (mpmc_fanout * Daemon.daemon callback) :=
  b ← new_buffer T T_default sizeof_T size_policy min_cache_lines min_elements;
  let capacity := CacheUtils.size sizeof_T size_policy b in
  let '(key, d') := Daemon.add_callback callback update d in
  Ret ({| m_buffer := b;
          m_write_confirmer := new_write_confirm;
          m_min_tail := 0;
          m_capacity := capacity;
          m_free_capacity_needed := wrap (capacity - 1);
          m_subscriptions := [];
          handles := ∅;
          m_callback_key := key |}, d').

(** The destructor cancels the daemon callback. *)
Definition delete_mpmc_fanout {callback : Type} (q : mpmc_fanout)
    (d : Daemon.daemon callback) : Daemon.daemon callback :=
  Daemon.remove_callback callback (m_callback_key q) d.

(** The walk of [update_min_tail] over the subscriptions from [subs] on:
    the minimum so far, the entries kept, and the store ([erase] destroys
    the owning pointer, and with it the handle). *)
Fixpoint update_min_tail_walk (subs : list nat) (hs : gmap nat subscription_handle)
    (min_tail : Z) : outcome (Z * list nat * gmap nat subscription_handle) :=
  match subs with
  | [] => Ret (min_tail, [], hs)
  | it :: rest =>
      match hs !! it with
      | None => Undefined
      | Some handle =>
          if subscribed handle
          then
            '(m, kept, hs') ← update_min_tail_walk rest hs (Z.min min_tail (get_tail handle));
            Ret (m, it :: kept, hs')
          else update_min_tail_walk rest (delete it hs) min_tail
      end
  end.

Definition update_min_tail (q : mpmc_fanout) : outcome mpmc_fanout :=
  let min_tail := get_read_index (m_write_confirmer q) in
  '(m, kept, hs) ← update_min_tail_walk (m_subscriptions q) (handles q) min_tail;
  Ret (with_subscriptions kept hs m q).

Definition get_free_index (q : mpmc_fanout) : outcome (Z * mpmc_fanout) :=
  let '(index, w) := get_write_index (m_write_confirmer q) in
  if m_free_capacity_needed q <=? wrap (index - m_min_tail q)
  then Spins
  else Ret (index, with_write_confirmer w q).

Definition update_read_head (spurious : list bool) (written_index : Z) (q : mpmc_fanout)
  : outcome mpmc_fanout :=
  w ← confirm_write spurious (m_write_confirmer q) written_index;
  Ret (with_write_confirmer w q).

Definition push (spurious : list bool) (value : T) (q : mpmc_fanout) : outcome mpmc_fanout :=
  '(index, q1) ← get_free_index q;
  b ← assign (m_buffer q1) index value;
  update_read_head spurious index (with_buffer b q1).

(** [subscribe()]: the pointer returned, and the queue.  The handle's
    constructor reads the barrier through its reference. *)
Definition subscribe (q : mpmc_fanout) : nat * mpmc_fanout :=
  let p := fresh (dom (handles q)) in
  let handle := {| h_tail := get_read_index (m_write_confirmer q);
                   h_subscribed := true |} in
  (p, with_subscriptions (m_subscriptions q ++ [p]) (<[p := handle]> (handles q))
        (m_min_tail q) q).

(** [sub->unsubscribe()]. *)
Definition unsubscribe (sub : nat) (q : mpmc_fanout) : outcome mpmc_fanout :=
  match handles q !! sub with
  | None => Undefined
  | Some handle =>
      Ret (with_subscriptions (m_subscriptions q)
             (<[sub := {| h_tail := h_tail handle; h_subscribed := false |}]> (handles q))
             (m_min_tail q) q)
  end.

(** [sub->pop(value)]: the returned flag, what [value] holds afterwards,
    and the queue. *)
Definition pop (sub : nat) (value : T) (q : mpmc_fanout) : outcome (bool * T * mpmc_fanout) :=
  match handles q !! sub with
  | None => Undefined
  | Some handle =>
      let read_head := get_read_index (m_write_confirmer q) in
      let tail := h_tail handle in
      if read_head <=? tail then Ret (false, value, q)
      else
        x ← get (m_buffer q) tail;
        Ret (true, x,
             with_subscriptions (m_subscriptions q)
               (<[sub := {| h_tail := wrap (tail + 1);
                            h_subscribed := h_subscribed handle |}]> (handles q))
               (m_min_tail q) q)
  end.

Definition size (q : mpmc_fanout) : Z :=
  wrap (get_read_index (m_write_confirmer q) - m_min_tail q).

Definition capacity (q : mpmc_fanout) : Z := m_capacity q.

(** The daemon runs [update_min_tail] [n] times in a row. *)
Fixpoint daemon_passes (n : nat) (q : mpmc_fanout) : outcome mpmc_fanout :=
  match n with
  | O => Ret q
  | S n' => q' ← update_min_tail q; daemon_passes n' q'
  end.

End Queue.

Arguments m_buffer {T} _.
Arguments m_write_confirmer {T} _.
Arguments m_min_tail {T} _.
Arguments m_capacity {T} _.
Arguments m_free_capacity_needed {T} _.
Arguments m_subscriptions {T} _.
Arguments handles {T} _.
Arguments m_callback_key {T} _.
Arguments with_subscriptions {T} _ _ _ _.
Arguments delete_mpmc_fanout {T callback} _ _.
Arguments update_min_tail {T} _.
Arguments push {T} _ _ _.
Arguments subscribe {T} _.
Arguments unsubscribe {T} _ _.
Arguments pop {T} _ _ _.
Arguments size {T} _.
Arguments daemon_passes {T} _ _.

End MpmcFanout.

(** ** spmc_push_vec.hpp *)

Module SpmcPushVec.

(** What a producer call can throw. *)
Inductive exception : Type :=
| runtime_error (what : string).

Section Vec.

Variable T : Type.
Variable T_default : T.

(** [std::vector<T>]: its elements and its capacity.  How far the
    capacity grows when the vector reallocates on its own is the standard
    library's choice; the model takes the usual doubling. *)
Record std_vector : Type := {
  v_elems : list T;
  v_capacity : Z
}.

Definition v_size (v : std_vector) : Z := Z.of_nat (length (v_elems v)).

Definition vector_empty : std_vector := {| v_elems := []; v_capacity := 0 |}.

Definition vector_copy (previous : std_vector) : std_vector :=
  {| v_elems := v_elems previous; v_capacity := v_size previous |}.

Definition vector_reserve (n : Z) (v : std_vector) : std_vector :=
  if v_capacity v <? n then {| v_elems := v_elems v; v_capacity := n |} else v.

Definition vector_resize (n : Z) (v : std_vector) : std_vector :=
  {| v_elems := take (Z.to_nat n) (v_elems v)
                  ++ replicate (Z.to_nat n - length (v_elems v)) T_default;
     v_capacity := Z.max (v_capacity v) n |}.

Definition vector_push_back (x : T) (v : std_vector) : std_vector :=
  {| v_elems := v_elems v ++ [x];
     v_capacity := if v_size v <? v_capacity v then v_capacity v
                   else Z.max 1 (2 * v_capacity v) |}.

(** [m_old_vecs] holds the owning pointers, in order; [store] is what
    they point into; [m_current_vec] is a raw pointer. *)
Record spmc_push_vec : Type := {
  store : gmap nat std_vector;
  m_old_vecs : list nat;
  m_current_vec : nat;
  m_size : Z
}.

(** A producer call returns normally, throws (the object stays as the
    call left it), or has no defined behaviour. *)
Inductive result (A : Type) : Type :=
| Normal (a : A) (s : spmc_push_vec)
| Throws (e : exception) (s : spmc_push_vec)
| Undef.

Arguments Normal {A} a s.
Arguments Throws {A} e s.
Arguments Undef {A}.

Definition M (A : Type) : Type := spmc_push_vec -> result A.

Definition ret {A : Type} (a : A) : M A := fun s => Normal a s.

Definition bind {A B : Type} (m : M A) (k : A -> M B) : M B :=
  fun s => match m s with
           | Normal a s' => k a s'
           | Throws e s' => Throws e s'
           | Undef => Undef
           end.

Definition throw {A : Type} (e : exception) : M A := fun s => Throws e s.

#[local] Instance M_ret : MRet M := @ret.
#[local] Instance M_bind : MBind M := fun A B k m => bind m k.

(** [*p] for a pointer to a backing vector. *)
Definition deref (p : nat) : M std_vector :=
  fun s => match store s !! p with
           | Some v => Normal v s
           | None => Undef
           end.

(** Apply a member function of [std::vector] through a pointer. *)
Definition through (p : nat) (f : std_vector -> std_vector) : M unit :=
  fun s => match store s !! p with
           | Some v => Normal tt {| store := <[p := f v]> (store s);
                                    m_old_vecs := m_old_vecs s;
                                    m_current_vec := m_current_vec s;
                                    m_size := m_size s |}
           | None => Undef
           end.

Definition load_current_vec : M nat := fun s => Normal (m_current_vec s) s.

Definition store_current_vec (p : nat) : M unit :=
  fun s => Normal tt {| store := store s;
                        m_old_vecs := m_old_vecs s;
                        m_current_vec := p;
                        m_size := m_size s |}.

Definition store_size (n : Z) : M unit :=
  fun s => Normal tt {| store := store s;
                        m_old_vecs := m_old_vecs s;
                        m_current_vec := m_current_vec s;
                        m_size := n |}.

(** [m_old_vecs.emplace_back(std::make_unique<std::vector<T>>(previous)).get()] *)
Definition create_new_vector (previous : std_vector) : M nat :=
  fun s =>
    let p := fresh (dom (store s)) in
    Normal p {| store := <[p := vector_copy previous]> (store s);
                m_old_vecs := m_old_vecs s ++ [p];
                m_current_vec := m_current_vec s;
                m_size := m_size s |}.

Definition get_current_vec : M std_vector :=
  p ← load_current_vec; deref p.

(** The constructor.  No vector exists before it runs. *)
Definition new_spmc_push_vec (initial_capacity : Z) : result unit :=
  (p ← create_new_vector vector_empty;
   _ ← store_current_vec p;
   q ← load_current_vec;
   through q (vector_reserve initial_capacity))
    {| store := ∅; m_old_vecs := []; m_current_vec := 0%nat; m_size := 0 |}.

Definition capacity : M Z :=
  v ← get_current_vec; ret (v_capacity v).

Definition size : M Z := fun s => Normal (m_size s) s.

Definition reserve (elements : Z) : M unit :=
  c ← capacity;
  if c <? elements
  then
    cur ← get_current_vec;
    new_vec ← create_new_vector cur;
    _ ← through new_vec (vector_reserve elements);
    store_current_vec new_vec
  else ret tt.

(** [drop_old]: the last owning pointer is moved out, [clear] destroys
    the others and the vectors they own, and the pointer is put back. *)
Definition drop_old : M unit :=
  fun s =>
    match last (m_old_vecs s) with
    | None => Undef
    | Some current =>
        Normal tt {| store := foldr delete (store s) (removelast (m_old_vecs s));
                     m_old_vecs := [current];
                     m_current_vec := m_current_vec s;
                     m_size := m_size s |}
    end.

Definition resize (elements : Z) : M unit :=
  n ← size;
  _ ← (if elements <? n
       then throw (runtime_error "spmc_push_vec::resize - cannot shrink")
       else ret tt);
  _ ← reserve elements;
  p ← load_current_vec;
  _ ← through p (vector_resize elements);
  store_size elements.

Definition push_back (element : T) : M unit :=
  current_size ← size;
  c ← capacity;
  _ ← (if c <=? current_size
       then c' ← capacity; reserve (wrap (c' * 2))
       else ret tt);
  p ← load_current_vec;
  _ ← through p (vector_push_back element);
  store_size (wrap (current_size + 1)).

(** [emplace_back(args...)], with [element] the value built from the
    arguments; the reference returned is to that element. *)
Definition emplace_back (element : T) : M T :=
  current_size ← size;
  c ← capacity;
  _ ← (if c <=? current_size
       then c' ← capacity; reserve (wrap (c' * 2))
       else ret tt);
  p ← load_current_vec;
  _ ← through p (vector_push_back element);
  _ ← store_size (wrap (current_size + 1));
  ret element.

(** [v[idx]] on a [std::vector]. *)
Definition subscript (v : std_vector) (idx : Z) : M T :=
  fun s => match v_elems v !! Z.to_nat idx with
           | Some x => Normal x s
           | None => Undef
           end.

(** [operator[]]. *)
Definition at_index (idx : Z) : M T :=
  v ← get_current_vec; subscript v idx.

(** [iterator] and [const_iterator]: the reference [m_vec] is the address
    of the vector the iterator was taken from, [m_idx] the position. *)
Record iterator : Type := {
  m_vec : nat;
  m_idx : Z
}.

(** [operator==] and [operator!=]. *)
Definition iterator_eq (it other : iterator) : bool :=
  (m_idx it =? m_idx other) && Nat.eqb (m_vec other) (m_vec it).

Definition iterator_ne (it other : iterator) : bool :=
  negb (m_idx it =? m_idx other) || negb (Nat.eqb (m_vec other) (m_vec it)).

(** [operator*]: [m_vec[m_idx]], for an iterator of the vector at hand. *)
Definition iterator_deref (it : iterator) : M T := at_index (m_idx it).

(** [operator++()], and [operator++(int)] with the copy it returns. *)
Definition iterator_incr (it : iterator) : iterator :=
  {| m_vec := m_vec it; m_idx := wrap (m_idx it + 1) |}.

Definition iterator_post_incr (it : iterator) : iterator * iterator :=
  (it, iterator_incr it).

(** [begin()] and [end()] of the vector at address [this]. *)
Definition begin_ (this : nat) : M iterator :=
  ret {| m_vec := this; m_idx := 0 |}.

Definition end_ (this : nat) : M iterator :=
  n ← size; ret {| m_vec := this; m_idx := n |}.

(** The loop of a range-based [for (auto& v : vec)], collecting the
    elements it visits: [it != last] is tested, [*it] read and [++it]
    done, at most [fuel] times ([None] when the loop is still running
    then). *)
Fixpoint range_for_loop (fuel : nat) (it last : iterator) : M (option (list T)) :=
  match fuel with
  | O => ret None
  | S fuel' =>
      if iterator_ne it last
      then
        x ← iterator_deref it;
        rest ← range_for_loop fuel' (iterator_incr it) last;
        ret (cons x <$> rest)
      else ret (Some [])
  end.

(** [begin()] and [end()] are evaluated once, before the loop. *)
Definition range_for (this : nat) (fuel : nat) : M (option (list T)) :=
  first ← begin_ this;
  last ← end_ this;
  range_for_loop fuel first last.

(** The producer's calls, and the object a call leaves behind. *)
Inductive producer_call : Type :=
| call_push_back (element : T)
| call_emplace_back (element : T)
| call_reserve (elements : Z)
| call_resize (elements : Z)
| call_drop_old.

Definition left_by {A : Type} (r : result A) : option spmc_push_vec :=
  match r with
  | Normal _ s => Some s
  | Throws _ s => Some s
  | Undef => None
  end.

Definition perform (c : producer_call) (s : spmc_push_vec) : option spmc_push_vec :=
  match c with
  | call_push_back element => left_by (push_back element s)
  | call_emplace_back element => left_by (emplace_back element s)
  | call_reserve elements => left_by (reserve elements s)
  | call_resize elements => left_by (resize elements s)
  | call_drop_old => left_by (drop_old s)
  end.

(** The states a vector can be in: as constructed, and after any call. *)
Inductive reachable : spmc_push_vec -> Prop :=
| reachable_new initial_capacity s :
    left_by (new_spmc_push_vec initial_capacity) = Some s ->
    reachable s
| reachable_call c s s' :
    reachable s ->
    perform c s = Some s' ->
    reachable s'.

End Vec.

Arguments v_elems {T} _.
Arguments v_capacity {T} _.
Arguments store {T} _.
Arguments m_old_vecs {T} _.
Arguments m_current_vec {T} _.
Arguments m_size {T} _.
Arguments Normal {T A} a s.
Arguments Throws {T A} e s.
Arguments Undef {T A}.
Arguments left_by {T A} _.
Arguments drop_old {T} _.
Arguments size {T} _.
Arguments capacity {T} _.
Arguments at_index {T} _ _.
Arguments get_current_vec {T} _.
Arguments reachable {T} _ _.
Arguments iterator_deref {T} _ _.
Arguments range_for_loop {T} _ _ _ _.
Arguments range_for {T} _ _ _.
Arguments begin_ {T} _ _.
Arguments end_ {T} _ _.

End SpmcPushVec.

(** ** Properties the statements below talk about *)

Definition is_pow2 (n : Z) : Prop := exists k, 0 <= k /\ n = 2 ^ k.

Module Layout.

Import CacheUtils.

(** The class invariant of the buffer: what the member initialisers of
    the constructor establish, and every later write keeps.  Each line
    holds [elements_per_cache_line] elements and the three indexers were
    built from the number of lines and from [size()]. *)
Definition laid_out {T : Type} (sizeof_T : Z) (size_policy : cache_size_policy)
    (b : false_sharing_optimized_buffer T) : Prop :=
  let lines := number_of_cache_lines b in
  m_mod_index b = new_mod_indexer size_policy lines /\
  new_div_indexer size_policy lines = Ret (m_div_index b) /\
  m_mod_index2 b = new_mod_indexer size_policy (size sizeof_T size_policy b) /\
  Forall (fun l => length l = Z.to_nat (elements_per_cache_line sizeof_T size_policy))
         (m_lines b).

End Layout.

Module Cells.

(** The line and the element an index falls on, for [M] lines of [K]
    elements: consecutive indices go to consecutive lines. *)
Definition tile_of (M : Z) (i : Z) : Z := i mod M.

Definition slot_of (M K : Z) (i : Z) : Z := (i mod (M * K)) / M.

End Cells.

(** ** Concrete objects used below *)

Module Examples.

Import CacheUtils.

(** [false_sharing_optimized_buffer<int, exact>(2)], as in the
    [CapacityExactPolicy] test: 2 lines of 16 elements. *)
Definition int_exact_2 : outcome (false_sharing_optimized_buffer Z) :=
  new_buffer Z 0 4 exact 2 0.

(** The buffer of [int_exact_2], written out. *)
Definition int_exact_2_buffer : false_sharing_optimized_buffer Z :=
  {| m_lines := replicate 2 (replicate 16 0);
     m_mod_index := mod_exact 2;
     m_div_index := div_exact 2;
     m_mod_index2 := mod_exact 32 |}.

(** [false_sharing_optimized_buffer<int, pow2>(1, 40)]. *)
Definition int_pow2_1_40 : outcome (false_sharing_optimized_buffer Z) :=
  new_buffer Z 0 4 pow2 1 40.

End Examples.

Module Barrier.

(** An index whose successor is still a [uint64_t]: the counters are
    taken not to wrap. *)
Definition no_wrap (i : Z) : Prop := 0 <= i /\ i + 1 < 2 ^ 64.

End Barrier.

Module Fanout.

Import MpmcFanout.

(** Whether the pointer [p] points at a handle that is still subscribed. *)
Definition is_live (hs : gmap nat subscription_handle) (p : nat) : bool :=
  match hs !! p with
  | Some handle => subscribed handle
  | None => false
  end.

(** The cursor of the handle [p] points at. *)
Definition tail_of (hs : gmap nat subscription_handle) (p : nat) : Z :=
  match hs !! p with
  | Some handle => get_tail handle
  | None => 0
  end.

(** Ownership: the subscription list holds distinct pointers, each to a
    handle in the store. *)
Definition owned (subs : list nat) (hs : gmap nat subscription_handle) : Prop :=
  NoDup subs /\ forall p, In p subs -> is_Some (hs !! p).

End Fanout.

Module FanoutExamples.

Import CacheUtils MpmcFanout.

(** [mpmc_fanout<int> q(min_cache_lines, min_elements)], registered with
    a daemon that has no other callback. *)
Definition int_fanout (min_cache_lines min_elements : Z) : outcome (mpmc_fanout Z) :=
  '(q, _) ← new_mpmc_fanout Z 0 4 pow2 tt (Daemon.new_daemon unit)
              min_cache_lines min_elements;
  Ret q.

Fixpoint push_all (values : list Z) (q : mpmc_fanout Z) : outcome (mpmc_fanout Z) :=
  match values with
  | [] => Ret q
  | v :: rest => q' ← push [] v q; push_all rest q'
  end.

(** The [LateSubscription] test up to the call of [subscribe]. *)
Definition after_five_pushes : outcome (mpmc_fanout Z) :=
  q ← int_fanout 1 8; push_all [0; 1; 2; 3; 4] q.

Fixpoint push_and_pop (sub : nat) (values : list Z) (q : mpmc_fanout Z)
  : outcome (mpmc_fanout Z) :=
  match values with
  | [] => Ret q
  | v :: rest =>
      q1 ← push [] v q;
      '(_, _, q2) ← pop sub 0 q1;
      push_and_pop sub rest q2
  end.

(** The [UnsubscribeAndCleanup] test up to [sub2->unsubscribe()], with
    one pass of the daemon before it. *)
Definition after_unsubscribe : outcome (mpmc_fanout Z) :=
  q ← int_fanout 2 16;
  let '(sub1, q) := subscribe q in
  let '(sub2, q) := subscribe q in
  q ← push_and_pop sub1 [0; 1; 2; 3; 4; 5; 6; 7; 8; 9] q;
  '(_, _, q) ← pop sub2 0 q;
  q ← update_min_tail q;
  unsubscribe sub2 q.

End FanoutExamples.

Module Archive.

Import SpmcPushVec.

(** Ownership of the backing vectors: the archive holds distinct
    pointers, each to a vector in the store, and its last entry is the
    pointer [m_current_vec]. *)
Definition archive_inv {T : Type} (s : spmc_push_vec T) : Prop :=
  NoDup (m_old_vecs s) /\
  (forall p, In p (m_old_vecs s) -> is_Some (store s !! p)) /\
  last (m_old_vecs s) = Some (m_current_vec s).

(** The elements of the backing vector [m_current_vec] points at. *)
Definition current_elems {T : Type} (s : spmc_push_vec T) : list T :=
  match store s !! m_current_vec s with
  | Some v => v_elems v
  | None => []
  end.

(** The active vector holds fewer than [2^64] elements. *)
Definition fits {T : Type} (s : spmc_push_vec T) : Prop :=
  Z.of_nat (length (current_elems s)) < 2 ^ 64.

End Archive.

Module VecExamples.

Import SpmcPushVec.


End VecExamples.

Module SpscExamples.

Import CacheUtils SpscQueue.

(** [spsc_queue<int> q(min_cache_lines, min_elements)] with the default
    [pow2] policy; a moved-from [int] keeps its value. *)
Definition int_queue (min_cache_lines min_elements : Z) : outcome (spsc_queue Z) :=
  new_spsc_queue Z 0 4 pow2 min_cache_lines min_elements.

Definition run_int (calls : list (call Z)) (q : spsc_queue Z)
  : outcome (list Z * spsc_queue Z) :=
  run Z 0 (fun x => x) calls q.

End SpscExamples.

Module Sound.

Import CacheUtils.

(** A buffer whose indexers compute what they are meant to: laid out,
    at least one line, a capacity that fits [size_t], and under the [pow2]
    policy a power-of-two number of lines. *)
Definition sound {T : Type} (sizeof_T : Z) (size_policy : cache_size_policy)
    (b : false_sharing_optimized_buffer T) : Prop :=
  Layout.laid_out sizeof_T size_policy b /\
  0 < number_of_cache_lines b /\
  number_of_cache_lines b * elements_per_cache_line sizeof_T size_policy < 2 ^ 64 /\
  (size_policy = pow2 -> is_pow2 (number_of_cache_lines b)).

End Sound.

Module Fifo.

Import SpscQueue.

(** The elements a run of calls pushes, in order. *)
Definition pushed {T : Type} (calls : list (call T)) : list T :=
  flat_map (fun c => match c with
                     | call_push v => [v]
                     | call_pop => []
                     end) calls.

(** Starting with [pending] elements in the queue, the number of pushed
    and not yet popped elements stays below [capacity] after every call. *)
Fixpoint below_capacity {T : Type} (capacity pending : Z) (calls : list (call T)) : Prop :=
  match calls with
  | [] => True
  | call_push _ :: rest =>
      pending + 1 < capacity /\ below_capacity capacity (pending + 1) rest
  | call_pop :: rest => below_capacity capacity (Z.max 0 (pending - 1)) rest
  end.

(** The queue [q] holds the elements [pending], oldest first, in a sound
    buffer. *)
Definition holds {T : Type} (sizeof_T : Z) (size_policy : CacheUtils.cache_size_policy)
    (q : spsc_queue T) (pending : list T) : Prop :=
  Sound.sound sizeof_T size_policy (m_buffer q) /\
  m_capacity q = CacheUtils.size sizeof_T size_policy (m_buffer q) /\
  m_free_capacity_needed q = m_capacity q - 1 /\
  m_private_head q = m_head q /\
  0 <= m_tail q /\
  m_head q = m_tail q + Z.of_nat (length pending) /\
  Z.of_nat (length pending) < m_capacity q /\
  forall j x, pending !! j = Some x ->
              CacheUtils.get (m_buffer q) (m_tail q + Z.of_nat j) = Ret x.

(** [push(v); pop(out)] for each [v] of [values]. *)
Definition alternate {T : Type} (values : list T) : list (call T) :=
  flat_map (fun v => [call_push v; call_pop]) values.

End Fifo.

Module Protocol.

Import WriteConfirm.

(** [n] calls of [get_write_index] in a row: the indices they return,
    oldest first, and the barrier afterwards. *)
Fixpoint reserve_many (n : nat) (w : write_confirm) : list Z * write_confirm :=
  match n with
  | O => ([], w)
  | S n' =>
      let '(index, w1) := get_write_index w in
      let '(rest, w2) := reserve_many n' w1 in
      (index :: rest, w2)
  end.

(** [confirm_write] for each index of [indices], in that order. *)
Fixpoint confirm_all (spurious : list bool) (indices : list Z) (w : write_confirm)
  : outcome write_confirm :=
  match indices with
  | [] => Ret w
  | index :: rest => w' ← confirm_write spurious w index; confirm_all spurious rest w'
  end.

(** A trace in which every exchange is for an index that an earlier
    [get_write_index] handed out: the producers' protocol. *)
Fixpoint follows_protocol (l : list atomic_access) (w : write_confirm) : Prop :=
  match l with
  | [] => True
  | a :: rest =>
      match a with
      | exchange_read_head written_index _ => 0 <= written_index < m_write_head w
      | _ => True
      end /\ follows_protocol rest (access a w)
  end.

End Protocol.

Module Registry.

Section Calls.

Variable callback : Type.

(** The calls a daemon's registry receives. *)
Inductive registry_call : Type :=
| call_add (func : callback)
| call_remove (key : Z).

Definition perform (c : registry_call) (d : Daemon.daemon callback) : Daemon.daemon callback :=
  match c with
  | call_add func => snd (Daemon.add_callback callback func d)
  | call_remove key => Daemon.remove_callback callback key d
  end.

Definition run (calls : list registry_call) (d : Daemon.daemon callback)
  : Daemon.daemon callback :=
  fold_left (fun d c => perform c d) calls d.

(** Every key in use was handed out by the key generator. *)
Definition keys_below_next (d : Daemon.daemon callback) : Prop :=
  0 <= Daemon.m_next_callback callback d /\
  forall key, is_Some (Daemon.m_callbacks callback d !! key) ->
              0 <= key < Daemon.m_next_callback callback d.

(** The callbacks of the process-wide daemon [g_daemon] points at. *)
Definition registered (g_daemon : option (Daemon.daemon callback)) : gmap Z callback :=
  match g_daemon with
  | None => ∅
  | Some d => Daemon.m_callbacks callback d
  end.

End Calls.

Arguments call_add {callback} _.
Arguments call_remove {callback} _.
Arguments perform {callback} _ _.
Arguments run {callback} _ _.
Arguments keys_below_next {callback} _.
Arguments registered {callback} _.

End Registry.

Module Lifetime.

Import MpmcFanout.

Section Process.

Variable T : Type.
Variable T_default : T.
Variable sizeof_T : Z.
Variable size_policy : CacheUtils.cache_size_policy.
Variable callback : Type.

(** [mpmc_fanout<T> q(min_cache_lines, min_elements)] in a process whose
    daemon pointer is [g_daemon]: the queue, and the pointer afterwards.
    [update] is the closure the constructor registers. *)
Definition construct (update : callback) (g_daemon : option (Daemon.daemon callback))
    (min_cache_lines min_elements : Z)
  : outcome (mpmc_fanout T * option (Daemon.daemon callback)) :=
  let '(d, _) := Daemon.find_or_create_daemon callback g_daemon in
  '(q, d') ← new_mpmc_fanout T T_default sizeof_T size_policy update d
               min_cache_lines min_elements;
  Ret (q, Some d').

(** The queue [q] goes out of scope. *)
Definition destroy (q : mpmc_fanout T) (g_daemon : option (Daemon.daemon callback))
  : option (Daemon.daemon callback) :=
  let '(d, _) := Daemon.find_or_create_daemon callback g_daemon in
  Some (delete_mpmc_fanout q d).

End Process.

Arguments destroy {T callback} _ _.

End Lifetime.

Module MpscRuns.

Import CacheUtils WriteConfirm.

Section Runs.

Variable T : Type.
Variable T_default : T.
Variable T_moved_from : T -> T.

(** A single-threaded run of producer and consumer calls on an MPSC
    queue; a push comes with the spurious failures of its exchange. *)
Inductive call : Type :=
| call_push (spurious : list bool) (value : T)
| call_pop.

Fixpoint run (calls : list call) (q : MpscQueue.mpsc_queue T)
  : outcome (list T * MpscQueue.mpsc_queue T) :=
  match calls with
  | [] => Ret ([], q)
  | call_push spurious value :: rest =>
      q' ← MpscQueue.push spurious value q; run rest q'
  | call_pop :: rest =>
      '(ok, x, q') ← MpscQueue.pop T_moved_from T_default q;
      '(popped, q'') ← run rest q';
      Ret (if ok : bool then x :: popped else popped, q'')
  end.

(** The same call, made on an SPSC queue. *)
Definition as_spsc_call (c : call) : SpscQueue.call T :=
  match c with
  | call_push _ value => SpscQueue.call_push value
  | call_pop => SpscQueue.call_pop
  end.

(** The members of an MPSC queue read as those of an SPSC queue: the
    write head of the barrier is the producer's private head, its read
    head the published head. *)
Definition as_spsc (q : MpscQueue.mpsc_queue T) : SpscQueue.spsc_queue T :=
  {| SpscQueue.m_buffer := MpscQueue.m_buffer q;
     SpscQueue.m_private_head := m_write_head (MpscQueue.m_write_confirm q);
     SpscQueue.m_head := m_read_head (MpscQueue.m_write_confirm q);
     SpscQueue.m_tail := MpscQueue.m_tail q;
     SpscQueue.m_capacity := MpscQueue.m_capacity q;
     SpscQueue.m_free_capacity_needed := MpscQueue.m_free_capacity_needed q |}.

End Runs.

Arguments call_push {T} _ _.
Arguments call_pop {T}.
Arguments as_spsc_call {T} _.
Arguments as_spsc {T} _.

End MpscRuns.

Module Storage.

Import SpmcPushVec.

(** The active vector exists and holds its elements within its
    capacity. *)
Definition within_capacity {T : Type} (s : spmc_push_vec T) : Prop :=
  exists v, store s !! m_current_vec s = Some v /\ v_size T v <= v_capacity v.

(** From [s] to [s'] no backing vector was reallocated: each one that is
    still there holds the elements it held, and maybe more after them, in
    the storage it had (a vector without storage may have got some). *)
Definition kept_in_place {T : Type} (s s' : spmc_push_vec T) : Prop :=
  forall p v v',
    store s !! p = Some v -> store s' !! p = Some v' ->
    v_elems v `prefix_of` v_elems v' /\
    (0 < v_capacity v -> v_capacity v' = v_capacity v).

End Storage.

Module VecRuns.

Import SpmcPushVec.

(** [push_back] for each element of [values], in order. *)
Fixpoint push_all {T : Type} (values : list T) : M T unit :=
  match values with
  | [] => ret T tt
  | x :: rest => bind T (push_back T x) (fun _ => push_all rest)
  end.

End VecRuns.

Module Broadcast.

Import CacheUtils WriteConfirm MpmcFanout.

(** The queue [q] once the elements [log] have been pushed, in this
    order, and every [push] has returned: the buffer is sound, both heads
    of the barrier are at the number of pushes, [m_min_tail] is behind
    them by less than the capacity, every handle in the store is owned by
    the subscription list and has its tail between [m_min_tail] and the
    read head, and the buffer reads every element pushed from
    [m_min_tail] on. *)
Definition holds {T : Type} (sizeof_T : Z) (size_policy : cache_size_policy)
    (q : mpmc_fanout T) (log : list T) : Prop :=
  let pushes := Z.of_nat (length log) in
  Sound.sound sizeof_T size_policy (m_buffer q) /\
  m_capacity q = CacheUtils.size sizeof_T size_policy (m_buffer q) /\
  m_free_capacity_needed q = m_capacity q - 1 /\
  m_write_head (m_write_confirmer q) = pushes /\
  m_read_head (m_write_confirmer q) = pushes /\
  0 <= m_min_tail q <= pushes /\
  pushes - m_min_tail q < m_capacity q /\
  Fanout.owned (m_subscriptions q) (handles q) /\
  (forall p h, handles q !! p = Some h ->
               In p (m_subscriptions q) /\ m_min_tail q <= h_tail h <= pushes) /\
  (forall j x, log !! j = Some x -> m_min_tail q <= Z.of_nat j ->
               CacheUtils.get (m_buffer q) (Z.of_nat j) = Ret x).

End Broadcast.

(** * Proofs *)

(** ** Wrap-around *)

Lemma wrap_small z : 0 <= z < 2 ^ 64 -> wrap z = z.
Proof. intros H. unfold wrap. apply Z.mod_small. exact H. Qed.

Lemma wrap_range z : 0 <= wrap z < 2 ^ 64.
Proof. unfold wrap. apply Z.mod_pos_bound. reflexivity. Qed.

Lemma pow2_double j : 0 <= j -> Z.shiftl (2 ^ j) 1 = 2 ^ (j + 1).
Proof.
  intros Hj. rewrite Z.shiftl_mul_pow2 by lia.
  rewrite Z.pow_add_r by lia. reflexivity.
Qed.

Lemma pow2_below_word j : 0 <= j < 64 -> 0 <= 2 ^ j < 2 ^ 64.
Proof.
  intros Hj. split; [apply Z.pow_nonneg; lia|].
  apply Z.pow_lt_mono_r; lia.
Qed.

(** ** The loops of [pow2_factory] and [log2_factory] *)

Section Loops.

Variable value : Z.
Hypothesis value_pos : 0 < value.
Hypothesis value_small : value < 2 ^ 63.

Let log2_value_small : Z.log2 value < 63.
Proof. apply Z.log2_lt_pow2; assumption. Qed.

Lemma log2_lower_loop_spec fuel j :
  0 <= j <= Z.log2 value + 1 ->
  (Z.to_nat (Z.log2 value + 1 - j) < fuel)%nat ->
  CacheUtils.log2_factory.lower_loop fuel value (2 ^ j) j = Ret (Z.log2 value).
Proof.
  revert j. induction fuel as [|fuel IH]; intros j Hj Hfuel; [lia|].
  pose proof (Z.log2_nonneg value) as Hnn.
  simpl. destruct (2 ^ j <=? value) eqn:Htest.
  - apply Z.leb_le in Htest. apply Z.log2_le_pow2 in Htest; [|assumption].
    rewrite pow2_double by lia.
    rewrite (wrap_small (2 ^ (j + 1))) by (apply pow2_below_word; lia).
    rewrite (wrap_small (j + 1)) by lia.
    apply IH; lia.
  - apply Z.leb_gt in Htest.
    assert (~ j <= Z.log2 value) as Hgt.
    { intros Hle. apply Z.log2_le_pow2 in Hle; [lia|assumption]. }
    f_equal. rewrite wrap_small by lia. lia.
Qed.

Lemma log2_lower_spec : CacheUtils.log2_factory.lower value = Ret (Z.log2 value).
Proof.
  pose proof (Z.log2_nonneg value).
  apply (log2_lower_loop_spec loop_fuel 0); unfold loop_fuel; lia.
Qed.

Lemma pow2_lower_loop_spec fuel j :
  0 <= j <= Z.log2 value + 1 ->
  (Z.to_nat (Z.log2 value + 1 - j) < fuel)%nat ->
  CacheUtils.pow2_factory.lower_loop fuel value (2 ^ j) = Ret (2 ^ Z.log2 value).
Proof.
  revert j. induction fuel as [|fuel IH]; intros j Hj Hfuel; [lia|].
  pose proof (Z.log2_nonneg value) as Hnn.
  simpl. destruct (2 ^ j <=? value) eqn:Htest.
  - apply Z.leb_le in Htest. apply Z.log2_le_pow2 in Htest; [|assumption].
    rewrite pow2_double by lia.
    rewrite (wrap_small (2 ^ (j + 1))) by (apply pow2_below_word; lia).
    apply IH; lia.
  - apply Z.leb_gt in Htest.
    assert (~ j <= Z.log2 value) as Hgt.
    { intros Hle. apply Z.log2_le_pow2 in Hle; [lia|assumption]. }
    assert (j = Z.log2 value + 1) as -> by lia.
    f_equal. rewrite Z.shiftr_div_pow2 by lia.
    rewrite Z.pow_add_r by lia. apply Z.div_mul. discriminate.
Qed.

Lemma pow2_lower_spec : CacheUtils.pow2_factory.lower value = Ret (2 ^ Z.log2 value).
Proof.
  pose proof (Z.log2_nonneg value).
  apply (pow2_lower_loop_spec loop_fuel 0); unfold loop_fuel; lia.
Qed.

End Loops.

(** [upper] rounds up to a power of two as long as that power fits. *)
Lemma pow2_upper_loop_spec value fuel j :
  value <= 2 ^ 63 ->
  0 <= j <= Z.log2_up value ->
  (Z.to_nat (Z.log2_up value - j) < fuel)%nat ->
  CacheUtils.pow2_factory.upper_loop fuel value (2 ^ j) = Ret (2 ^ Z.log2_up value).
Proof.
  intros Hsmall. revert j. induction fuel as [|fuel IH]; intros j Hj Hfuel; [lia|].
  assert (Z.log2_up value <= 63) as Hup.
  { destruct (Z.le_gt_cases value 0) as [Hle|Hpos].
    - rewrite Z.log2_up_nonpos by assumption. lia.
    - apply Z.log2_up_le_pow2; assumption. }
  simpl. destruct (2 ^ j <? value) eqn:Htest.
  - apply Z.ltb_lt in Htest.
    assert (0 < value) as Hpos by (pose proof (Z.pow_pos_nonneg 2 j); lia).
    apply Z.log2_up_lt_pow2 in Htest; [|assumption].
    rewrite pow2_double by lia.
    rewrite (wrap_small (2 ^ (j + 1))) by (apply pow2_below_word; lia).
    apply IH; lia.
  - apply Z.ltb_ge in Htest. f_equal. f_equal.
    destruct (Z.le_gt_cases value 0) as [Hle|Hpos].
    + rewrite Z.log2_up_nonpos in * by assumption. lia.
    + apply Z.log2_up_le_pow2 in Htest; [lia|assumption].
Qed.

Lemma pow2_upper_spec value :
  value <= 2 ^ 63 -> CacheUtils.pow2_factory.upper value = Ret (2 ^ Z.log2_up value).
Proof.
  intros Hsmall. pose proof (Z.log2_up_nonneg value).
  assert (Z.log2_up value <= 63).
  { destruct (Z.le_gt_cases value 0) as [Hle|Hpos].
    - rewrite Z.log2_up_nonpos by assumption. lia.
    - apply Z.log2_up_le_pow2; assumption. }
  apply (pow2_upper_loop_spec value loop_fuel 0); unfold loop_fuel; lia.
Qed.

(** Once the counter is 0 the loops of [lower] never leave: running out
    of fuel stands for a loop that does not end. *)
Lemma pow2_lower_loop_stuck fuel value :
  0 <= value -> CacheUtils.pow2_factory.lower_loop fuel value 0 = Spins.
Proof.
  intros Hv. induction fuel as [|fuel IH]; [reflexivity|].
  simpl. destruct (0 <=? value) eqn:Htest; [exact IH|].
  apply Z.leb_gt in Htest. lia.
Qed.

Lemma pow2_upper_loop_stuck fuel value :
  0 < value -> CacheUtils.pow2_factory.upper_loop fuel value 0 = Spins.
Proof.
  intros Hv. induction fuel as [|fuel IH]; [reflexivity|].
  simpl. destruct (0 <? value) eqn:Htest; [exact IH|].
  apply Z.ltb_ge in Htest. lia.
Qed.

(** ** The tile/slot decomposition *)

Section Decomposition.

(** [M] lines of [K] elements. *)
Variables M K : Z.
Hypothesis M_pos : 0 < M.
Hypothesis K_pos : 0 < K.

Lemma window_split i :
  i mod (M * K) = Cells.tile_of M i + M * Cells.slot_of M K i.
Proof.
  unfold Cells.tile_of, Cells.slot_of.
  rewrite Z.rem_mul_r by lia.
  pose proof (Z.mod_pos_bound i M M_pos).
  replace (i mod M + M * ((i / M) mod K)) with ((i / M) mod K * M + i mod M) by lia.
  rewrite Z.div_add_l by lia.
  rewrite (Z.div_small (i mod M)) by lia. lia.
Qed.

Lemma tile_of_range i : 0 <= Cells.tile_of M i < M.
Proof. apply Z.mod_pos_bound. exact M_pos. Qed.

Lemma slot_of_range i : 0 <= Cells.slot_of M K i < K.
Proof.
  unfold Cells.slot_of.
  pose proof (Z.mod_pos_bound i (M * K) ltac:(lia)) as Hw.
  split.
  - apply Z.div_pos; lia.
  - apply Z.div_lt_upper_bound; lia.
Qed.

Lemma same_cell_iff i j :
  (Cells.tile_of M i, Cells.slot_of M K i) = (Cells.tile_of M j, Cells.slot_of M K j) <->
  i mod (M * K) = j mod (M * K).
Proof.
  split.
  - intros Heq. injection Heq as Ht Hs.
    rewrite !window_split. congruence.
  - intros Heq.
    assert (Cells.tile_of M i = Cells.tile_of M j) as Ht.
    { pose proof (window_split i) as Hi. pose proof (window_split j) as Hj.
      pose proof (tile_of_range i). pose proof (tile_of_range j).
      assert ((Cells.tile_of M i + M * Cells.slot_of M K i) mod M
              = (Cells.tile_of M j + M * Cells.slot_of M K j) mod M)
        as Hm by congruence.
      rewrite !(Z.mul_comm M), !Z.mod_add, !Z.mod_small in Hm by lia.
      exact Hm. }
    rewrite Ht. unfold Cells.slot_of. rewrite Heq. reflexivity.
Qed.

Lemma cell_reached tile slot :
  0 <= tile < M -> 0 <= slot < K ->
  0 <= tile + M * slot < M * K /\
  Cells.tile_of M (tile + M * slot) = tile /\
  Cells.slot_of M K (tile + M * slot) = slot.
Proof.
  intros Ht Hs.
  assert (0 <= tile + M * slot < M * K) as Hi by nia.
  split; [exact Hi|]. unfold Cells.tile_of, Cells.slot_of.
  rewrite (Z.mod_small _ (M * K)) by exact Hi.
  rewrite (Z.mul_comm M slot), Z.mod_add, Z.div_add by lia.
  rewrite Z.mod_small, Z.div_small by lia. lia.
Qed.

End Decomposition.

(** ** Elements per cache line *)

Lemma exact_elements_range sizeof_T :
  1 <= sizeof_T ->
  1 <= CacheUtils.elements_per_cache_line sizeof_T CacheUtils.exact <= 64.
Proof.
  intros Hs. unfold CacheUtils.elements_per_cache_line, CacheUtils.cache_line_size.
  destruct (sizeof_T >? 64) eqn:Hbig; [lia|].
  assert (sizeof_T <= 64) as Hle by lia.
  split.
  - apply Z.div_le_lower_bound; lia.
  - apply Z.div_le_upper_bound; lia.
Qed.

Lemma pow2_elements_spec sizeof_T :
  1 <= sizeof_T ->
  CacheUtils.elements_per_cache_line sizeof_T CacheUtils.pow2 =
  2 ^ Z.log2 (CacheUtils.elements_per_cache_line sizeof_T CacheUtils.exact).
Proof.
  intros Hs. pose proof (exact_elements_range sizeof_T Hs) as Hr.
  unfold CacheUtils.elements_per_cache_line in *.
  rewrite pow2_lower_spec; [reflexivity|lia|].
  eapply Z.le_lt_trans; [apply Hr|reflexivity].
Qed.

Lemma elements_per_cache_line_pos sizeof_T size_policy :
  1 <= sizeof_T -> 0 < CacheUtils.elements_per_cache_line sizeof_T size_policy.
Proof.
  intros Hs. destruct size_policy.
  - pose proof (exact_elements_range sizeof_T Hs). lia.
  - rewrite pow2_elements_spec by exact Hs. apply Z.pow_pos_nonneg; [lia|].
    apply Z.log2_nonneg.
Qed.

Lemma pow2_elements_is_pow2 sizeof_T :
  1 <= sizeof_T -> is_pow2 (CacheUtils.elements_per_cache_line sizeof_T CacheUtils.pow2).
Proof.
  intros Hs. exists (Z.log2 (CacheUtils.elements_per_cache_line sizeof_T CacheUtils.exact)).
  split; [apply Z.log2_nonneg|]. apply pow2_elements_spec. exact Hs.
Qed.

(** ** The indexers compute [mod] and [div] *)

Lemma mask_is_mod i m :
  0 <= m -> Z.land i (2 ^ m - 1) = i mod 2 ^ m.
Proof.
  intros Hm. rewrite <- Z.land_ones by exact Hm.
  rewrite Z.ones_equiv. reflexivity.
Qed.

Lemma mod_index_spec size_policy sz i :
  0 < sz < 2 ^ 64 ->
  (size_policy = CacheUtils.pow2 -> is_pow2 sz) ->
  CacheUtils.mod_index (CacheUtils.new_mod_indexer size_policy sz) i = Ret (i mod sz).
Proof.
  intros Hsz Hpow. destruct size_policy; simpl.
  - destruct (sz =? 0) eqn:Hz; [lia|reflexivity].
  - destruct (Hpow eq_refl) as (m & Hm & ->).
    rewrite wrap_small by lia. rewrite mask_is_mod by exact Hm. reflexivity.
Qed.

Lemma div_index_spec size_policy sz d i :
  0 < sz < 2 ^ 64 ->
  (size_policy = CacheUtils.pow2 -> is_pow2 sz) ->
  CacheUtils.new_div_indexer size_policy sz = Ret d ->
  CacheUtils.div_index d i = Ret (i / sz).
Proof.
  intros Hsz Hpow Hnew. destruct size_policy; simpl in Hnew.
  - injection Hnew as <-. simpl. destruct (sz =? 0) eqn:Hz; [lia|reflexivity].
  - destruct (Hpow eq_refl) as (m & Hm & ->).
    assert (m < 64) as Hm64.
    { apply (Z.pow_lt_mono_r_iff 2); lia. }
    destruct (Z.eq_dec m 63) as [->|Hne].
    + vm_compute in Hnew. discriminate.
    + rewrite log2_lower_spec in Hnew.
      * simpl in Hnew. injection Hnew as <-.
        rewrite Z.log2_pow2 by exact Hm. simpl.
        destruct (64 <=? m) eqn:Hw; [lia|].
        rewrite Z.shiftr_div_pow2 by exact Hm. reflexivity.
      * apply Z.pow_pos_nonneg; lia.
      * apply Z.pow_lt_mono_r; lia.
Qed.

(** ** The buffer *)

Section BufferFacts.

Variable T : Type.
Variable T_default : T.
Variable sizeof_T : Z.
Variable size_policy : CacheUtils.cache_size_policy.
Hypothesis sizeof_T_pos : 1 <= sizeof_T.

Local Abbreviation K := (CacheUtils.elements_per_cache_line sizeof_T size_policy).

Lemma get_index_spec (b : CacheUtils.false_sharing_optimized_buffer T) i :
  Layout.laid_out sizeof_T size_policy b ->
  0 < CacheUtils.number_of_cache_lines b ->
  CacheUtils.number_of_cache_lines b * K < 2 ^ 64 ->
  (size_policy = CacheUtils.pow2 -> is_pow2 (CacheUtils.number_of_cache_lines b)) ->
  CacheUtils.get_index b i =
  Ret (Cells.tile_of (CacheUtils.number_of_cache_lines b) i,
       Cells.slot_of (CacheUtils.number_of_cache_lines b) K i).
Proof.
  intros (Hmod & Hdiv & Hmod2 & _) HM Hfit Hpow.
  pose proof (elements_per_cache_line_pos sizeof_T size_policy sizeof_T_pos) as HK.
  set (M := CacheUtils.number_of_cache_lines b) in *.
  assert (0 < M * K) as Hcap by nia.
  assert (M < 2 ^ 64) as HM64 by nia.
  unfold CacheUtils.get_index. rewrite Hmod, Hmod2.
  unfold CacheUtils.size, CacheUtils.elements_per_line. fold M.
  rewrite (wrap_small (M * K)) by lia.
  rewrite (mod_index_spec size_policy M) by (try lia; exact Hpow). simpl.
  rewrite (mod_index_spec size_policy (M * K)); [simpl| lia |].
  - rewrite (div_index_spec size_policy M) by (try lia; assumption). reflexivity.
  - intros Hp. destruct (Hpow Hp) as (m & Hm & HMm).
    subst size_policy.
    destruct (pow2_elements_is_pow2 sizeof_T sizeof_T_pos) as (k & Hk & HKk).
    exists (m + k). split; [lia|]. rewrite HMm, HKk.
    rewrite Z.pow_add_r by lia. reflexivity.
Qed.

Lemma get_defined (b : CacheUtils.false_sharing_optimized_buffer T) i tile slot :
  Layout.laid_out sizeof_T size_policy b ->
  CacheUtils.get_index b i = Ret (tile, slot) ->
  0 <= tile < CacheUtils.number_of_cache_lines b ->
  0 <= slot < K ->
  exists l x,
    CacheUtils.m_lines b !! Z.to_nat tile = Some l /\
    l !! Z.to_nat slot = Some x /\
    CacheUtils.get b i = Ret x.
Proof.
  intros (_ & _ & _ & Hlines) Hidx Ht Hs.
  unfold CacheUtils.number_of_cache_lines in Ht.
  destruct (lookup_lt_is_Some_2 (CacheUtils.m_lines b) (Z.to_nat tile)) as [l Hl]; [lia|].
  pose proof (Forall_lookup_1 _ _ _ _ Hlines Hl) as Hlen. simpl in Hlen.
  destruct (lookup_lt_is_Some_2 l (Z.to_nat slot)) as [x Hx]; [lia|].
  exists l, x. split; [exact Hl|]. split; [exact Hx|].
  unfold CacheUtils.get. rewrite Hidx. simpl. rewrite Hl, Hx. reflexivity.
Qed.

(** What the constructor builds is laid out. *)
Lemma new_buffer_laid_out minimum_cache_lines minimum_elements b :
  CacheUtils.new_buffer T T_default sizeof_T size_policy
    minimum_cache_lines minimum_elements = Ret b ->
  Layout.laid_out sizeof_T size_policy b.
Proof.
  unfold CacheUtils.new_buffer. intros Hnew.
  destruct (CacheUtils.calc_min_cache_lines size_policy minimum_cache_lines)
    as [lines| |]; simpl in Hnew; try discriminate.
  match type of Hnew with
  | context [CacheUtils.new_div_indexer ?p ?sz] =>
      destruct (CacheUtils.new_div_indexer p sz) as [dv| |] eqn:Hdv
  end; simpl in Hnew; try discriminate.
  injection Hnew as <-.
  unfold Layout.laid_out, CacheUtils.size, CacheUtils.number_of_cache_lines. simpl.
  repeat split; try assumption.
  apply Forall_replicate. apply length_replicate.
Qed.

(** Writing an element keeps the layout and the number of lines. *)
Lemma assign_laid_out (b b' : CacheUtils.false_sharing_optimized_buffer T) i v :
  Layout.laid_out sizeof_T size_policy b ->
  CacheUtils.assign b i v = Ret b' ->
  Layout.laid_out sizeof_T size_policy b' /\
  CacheUtils.number_of_cache_lines b' = CacheUtils.number_of_cache_lines b.
Proof.
  intros (Hmod & Hdiv & Hmod2 & Hlines). unfold CacheUtils.assign.
  destruct (CacheUtils.get_index b i) as [[line slot]| |]; simpl; try discriminate.
  destruct (CacheUtils.m_lines b !! Z.to_nat line) as [l|] eqn:Hl; try discriminate.
  destruct (decide (Z.to_nat slot < length l)%nat) as [Hlt|]; try discriminate.
  intros Hret. injection Hret as <-.
  assert (length (<[Z.to_nat line := <[Z.to_nat slot := v]> l]> (CacheUtils.m_lines b))
          = length (CacheUtils.m_lines b)) as Hlen by apply length_insert.
  unfold Layout.laid_out, CacheUtils.size, CacheUtils.number_of_cache_lines in *.
  simpl. rewrite Hlen. repeat split; try assumption.
  apply Forall_insert; [exact Hlines|].
  rewrite length_insert. exact (Forall_lookup_1 _ _ _ _ Hlines Hl).
Qed.

End BufferFacts.

Lemma int_exact_2_built : Examples.int_exact_2 = Ret Examples.int_exact_2_buffer.
Proof. vm_compute. reflexivity. Qed.

Lemma three_is_not_pow2 : ~ is_pow2 3.
Proof.
  intros (k & Hk & H3).
  destruct (Z.eq_dec k 0) as [->|H0]; [discriminate|].
  destruct (Z.eq_dec k 1) as [->|H1]; [discriminate|].
  replace k with (2 + (k - 2)) in H3 by lia.
  rewrite Z.pow_add_r in H3 by lia.
  change (2 ^ 2) with 4 in H3. lia.
Qed.

(** C1 (amended): for a buffer of [M] lines of [K] elements, [get(i)]
    returns the element stored at line [i mod M], position
    [(i mod (M*K)) div M] of that line (the divisor is the number of
    lines, not the number of elements per line).  This mapping sends the
    window [0, M*K) one-to-one onto the [M*K] cells: two indices share a
    cell exactly when they are congruent modulo [M*K], and every cell is
    the image of an index below [M*K].  Under the [pow2] policy this is
    stated for a power-of-two number of lines. *)
Theorem get_line_and_position
    (T : Type) (sizeof_T : Z) (size_policy : CacheUtils.cache_size_policy)
    (b : CacheUtils.false_sharing_optimized_buffer T) :
  let M := CacheUtils.number_of_cache_lines b in
  let K := CacheUtils.elements_per_cache_line sizeof_T size_policy in
  1 <= sizeof_T ->
  Layout.laid_out sizeof_T size_policy b ->
  0 < M ->
  M * K < 2 ^ 64 ->
  (size_policy = CacheUtils.pow2 -> is_pow2 M) ->
  (forall i, exists l x,
      CacheUtils.get_index b i = Ret (i mod M, (i mod (M * K)) / M) /\
      CacheUtils.m_lines b !! Z.to_nat (i mod M) = Some l /\
      l !! Z.to_nat ((i mod (M * K)) / M) = Some x /\
      CacheUtils.get b i = Ret x) /\
  (forall i j,
      CacheUtils.get_index b i = CacheUtils.get_index b j <->
      i mod (M * K) = j mod (M * K)) /\
  (forall line position,
      0 <= line < M -> 0 <= position < K ->
      exists i, 0 <= i < M * K /\ CacheUtils.get_index b i = Ret (line, position)).
Proof.
  intros M K Hsize Hlaid HM Hfit Hpow.
  pose proof (elements_per_cache_line_pos sizeof_T size_policy Hsize) as HK.
  fold K in HK.
  assert (forall i, CacheUtils.get_index b i
                    = Ret (Cells.tile_of M i, Cells.slot_of M K i)) as Hidx.
  { intros i. apply get_index_spec; assumption. }
  split; [|split].
  - intros i.
    destruct (get_defined T sizeof_T size_policy b i _ _ Hlaid (Hidx i))
      as (l & x & Hl & Hx & Hget).
    + apply tile_of_range. exact HM.
    + apply slot_of_range; assumption.
    + exists l, x. rewrite Hidx. repeat split; assumption.
  - intros i j. rewrite !Hidx. split.
    + intros Heq. apply (same_cell_iff M K HM HK). congruence.
    + intros Heq. f_equal. apply (same_cell_iff M K HM HK). exact Heq.
  - intros line position Hl Hp.
    destruct (cell_reached M K HM line position Hl Hp) as (Hi & Ht & Hs).
    exists (line + M * position). split; [exact Hi|].
    rewrite Hidx, Ht, Hs. reflexivity.
Qed.

(** [get_line_and_position] on the two-line [int] buffer: index 35 is at
    line 1, position 1. *)
Lemma get_line_and_position_witness :
  Layout.laid_out 4 CacheUtils.exact Examples.int_exact_2_buffer /\
  CacheUtils.get_index Examples.int_exact_2_buffer 35
    = Ret (35 mod 2, (35 mod (2 * 16)) / 2) /\
  CacheUtils.get Examples.int_exact_2_buffer 35 = Ret 0.
Proof.
  assert (Layout.laid_out 4 CacheUtils.exact Examples.int_exact_2_buffer) as Hlaid.
  { repeat split. repeat constructor. }
  split; [exact Hlaid|].
  destruct (get_line_and_position Z 4 CacheUtils.exact Examples.int_exact_2_buffer)
    as (Hget & _ & _).
  - lia.
  - exact Hlaid.
  - reflexivity.
  - reflexivity.
  - discriminate.
  - destruct (Hget 35) as (l & x & Hidx & _ & _ & _).
    split; [exact Hidx|]. reflexivity.
Defined.

(** C1, as stated, fails on [false_sharing_optimized_buffer<int, exact>(2)]
    (2 lines of 16 elements): index 2 is not at position
    [(2 mod 32) div 16 = 0] of line 0 but at position 1, and an element
    written at index 2 is not found at line 0, position 0. *)
Lemma get_position_is_not_div_by_elements :
  let b := Examples.int_exact_2_buffer in
  let M := CacheUtils.number_of_cache_lines b in
  let K := CacheUtils.elements_per_cache_line 4 CacheUtils.exact in
  Examples.int_exact_2 = Ret b /\
  M = 2 /\ K = 16 /\
  CacheUtils.get_index b 2 <> Ret (2 mod M, (2 mod (M * K)) / K) /\
  exists b' l,
    CacheUtils.assign b 2 7 = Ret b' /\
    CacheUtils.get b' 2 = Ret 7 /\
    CacheUtils.m_lines b' !! Z.to_nat (2 mod M) = Some l /\
    l !! Z.to_nat ((2 mod (M * K)) / K) = Some 0.
Proof.
  split; [exact int_exact_2_built|].
  split; [reflexivity|]. split; [reflexivity|].
  split; [vm_compute; discriminate|].
  eexists. eexists. split; [vm_compute; reflexivity|].
  split; [vm_compute; reflexivity|].
  split; [vm_compute; reflexivity|]. vm_compute. reflexivity.
Qed.

(** C2 at [false_sharing_optimized_buffer<int, pow2>(1, 40)]: the
    constructor allocates 3 lines, which is not a power of two, although
    the policy is [pow2]; [size()] is 3 * 16. *)
Lemma pow2_policy_allocates_three_lines :
  exists b,
    Examples.int_pow2_1_40 = Ret b /\
    CacheUtils.calc_min_cache_lines CacheUtils.pow2 1 = Ret 1 /\
    CacheUtils.elements_per_cache_line 4 CacheUtils.pow2 = 16 /\
    CacheUtils.number_of_cache_lines b = 3 /\
    ~ is_pow2 (CacheUtils.number_of_cache_lines b) /\
    CacheUtils.size 4 CacheUtils.pow2 b = 48.
Proof.
  eexists. split; [vm_compute; reflexivity|].
  split; [reflexivity|]. split; [reflexivity|]. split; [reflexivity|].
  split; [exact three_is_not_pow2|reflexivity].
Qed.

(** ** The commit barrier *)

Section BarrierFacts.

Import WriteConfirm.

Lemma confirm_write_turn_at_head s w i :
  Barrier.no_wrap i ->
  m_read_head w = i ->
  confirm_write_turn s w i (wrap (i + 1)) =
  if s then inr w
  else inl {| m_write_head := m_write_head w; m_read_head := i + 1 |}.
Proof.
  intros [Hi Hw] Hrh. unfold confirm_write_turn, compare_exchange_weak.
  rewrite (wrap_small (i + 1)) by lia.
  rewrite Hrh, Z.eqb_refl. destruct s; simpl.
  - destruct (i + 1 <=? i) eqn:Htest; [lia|reflexivity].
  - reflexivity.
Qed.

Lemma confirm_write_turn_past_head s w i :
  Barrier.no_wrap i ->
  i < m_read_head w ->
  confirm_write_turn s w i (wrap (i + 1)) = inl w.
Proof.
  intros [Hi Hw] Hrh. unfold confirm_write_turn, compare_exchange_weak.
  rewrite (wrap_small (i + 1)) by lia.
  destruct (m_read_head w =? i) eqn:Heq; [lia|]. simpl.
  destruct (i + 1 <=? m_read_head w) eqn:Htest; [reflexivity|lia].
Qed.

Lemma confirm_write_turn_before_head s w i :
  Barrier.no_wrap i ->
  m_read_head w < i ->
  confirm_write_turn s w i (wrap (i + 1)) = inr w.
Proof.
  intros [Hi Hw] Hrh. unfold confirm_write_turn, compare_exchange_weak.
  rewrite (wrap_small (i + 1)) by lia.
  destruct (m_read_head w =? i) eqn:Heq; [lia|]. simpl.
  destruct (i + 1 <=? m_read_head w) eqn:Htest; [lia|reflexivity].
Qed.

Lemma confirm_write_at_head spurious w i :
  Barrier.no_wrap i ->
  m_read_head w = i ->
  confirm_write spurious w i =
  Ret {| m_write_head := m_write_head w; m_read_head := i + 1 |}.
Proof.
  intros Hi Hrh. unfold confirm_write.
  induction spurious as [|s rest IH]; simpl.
  - rewrite confirm_write_turn_at_head by assumption. reflexivity.
  - rewrite confirm_write_turn_at_head by assumption.
    destruct s; [exact IH|reflexivity].
Qed.

Lemma confirm_write_past_head spurious w i :
  Barrier.no_wrap i ->
  i < m_read_head w ->
  confirm_write spurious w i = Ret w.
Proof.
  intros Hi Hrh. unfold confirm_write.
  destruct spurious as [|s rest]; simpl;
    rewrite confirm_write_turn_past_head by assumption; reflexivity.
Qed.

(** A commit of an index the read head has not reached waits for the
    producers before it. *)
Lemma confirm_write_before_head spurious w i :
  Barrier.no_wrap i ->
  m_read_head w < i ->
  confirm_write spurious w i = Spins.
Proof.
  intros Hi Hrh. unfold confirm_write.
  induction spurious as [|s rest IH]; simpl;
    rewrite confirm_write_turn_before_head by assumption; [reflexivity|exact IH].
Qed.

Lemma access_read_head a w :
  Forall Barrier.no_wrap (written_indices [a]) ->
  m_read_head (access a w) = m_read_head w \/
  exists i s, a = exchange_read_head i s /\
              m_read_head w = i /\ m_read_head (access a w) = i + 1.
Proof.
  intros Hnw. destruct a as [| |i s]; simpl; try (left; reflexivity).
  simpl in Hnw. apply Forall_cons in Hnw as [[Hi Hw] _].
  unfold compare_exchange_weak.
  destruct (m_read_head w =? i) eqn:Heq; simpl; [|left; reflexivity].
  destruct s; simpl; [left; reflexivity|].
  right. exists i, false. apply Z.eqb_eq in Heq.
  rewrite wrap_small by lia. auto.
Qed.

Lemma accesses_read_head_monotone l w :
  Forall Barrier.no_wrap (written_indices l) ->
  m_read_head w <= m_read_head (accesses l w).
Proof.
  revert w. induction l as [|a l IH]; intros w Hnw; [simpl; lia|].
  change (accesses (a :: l) w) with (accesses l (access a w)).
  assert (Forall Barrier.no_wrap (written_indices [a]) /\
          Forall Barrier.no_wrap (written_indices l)) as [Ha Hl].
  { unfold written_indices in *. simpl in *. rewrite app_nil_r.
    apply Forall_app. exact Hnw. }
  specialize (IH (access a w) Hl).
  destruct (access_read_head a w Ha) as [Heq|(i & s & _ & Hi & Hs)]; lia.
Qed.

(** A call of [confirm_write] that returns is a run of exchanges from
    [written_index] to [written_index + 1]. *)
Lemma confirm_write_as_accesses spurious w i w' :
  confirm_write spurious w i = Ret w' ->
  exists flags, accesses (map (exchange_read_head i) flags) w = w'.
Proof.
  unfold confirm_write.
  assert (forall s w0,
             match confirm_write_turn s w0 i (wrap (i + 1)) with
             | inl w1 | inr w1 => access (exchange_read_head i s) w0 = w1
             end) as Hturn.
  { intros s w0. unfold confirm_write_turn. simpl.
    destruct (compare_exchange_weak s w0 i (wrap (i + 1))) as [[ok e] w1].
    simpl. destruct ok; [reflexivity|].
    destruct (wrap (i + 1) <=? e); reflexivity. }
  revert w. induction spurious as [|s rest IH]; intros w; simpl.
  - specialize (Hturn false w).
    destruct (confirm_write_turn false w i (wrap (i + 1))) as [w1|w1]; [|discriminate].
    intros Hret. injection Hret as <-. exists [false]. exact Hturn.
  - specialize (Hturn s w).
    destruct (confirm_write_turn s w i (wrap (i + 1))) as [w1|w1].
    + intros Hret. injection Hret as <-. exists [s]. exact Hturn.
    + intros Hret. destruct (IH w1 Hret) as (flags & Hflags).
      exists (s :: flags).
      change (accesses (map (exchange_read_head i) flags)
                (access (exchange_read_head i s) w) = w').
      rewrite Hturn. exact Hflags.
Qed.

End BarrierFacts.

(** C3: with read head [r], [confirm_write(i)] sets the read head to
    [i+1] when [r = i] and returns with the read head unchanged when
    [r > i]; a call that returns has either left the read head alone or
    moved it from exactly [i] to [i+1], so it never decreases; and over
    every interleaving of the atomic accesses of [get_write_index],
    [confirm_write] and [get_read_index] the read head is non-decreasing
    and moves only by single steps from [i] to [i+1].  Indices are taken
    not to wrap ([i + 1 < 2^64]). *)
Theorem read_head_advances_by_single_commits :
  (forall spurious w i,
      Barrier.no_wrap i ->
      WriteConfirm.m_read_head w = i ->
      exists w',
        WriteConfirm.confirm_write spurious w i = Ret w' /\
        WriteConfirm.m_read_head w' = i + 1 /\
        WriteConfirm.m_write_head w' = WriteConfirm.m_write_head w) /\
  (forall spurious w i,
      Barrier.no_wrap i ->
      i < WriteConfirm.m_read_head w ->
      WriteConfirm.confirm_write spurious w i = Ret w) /\
  (forall spurious w i w',
      Barrier.no_wrap i ->
      WriteConfirm.confirm_write spurious w i = Ret w' ->
      (WriteConfirm.m_read_head w' = WriteConfirm.m_read_head w \/
       (WriteConfirm.m_read_head w = i /\ WriteConfirm.m_read_head w' = i + 1)) /\
      WriteConfirm.m_read_head w <= WriteConfirm.m_read_head w' /\
      exists flags,
        WriteConfirm.accesses (map (WriteConfirm.exchange_read_head i) flags) w = w') /\
  (forall a w,
      Forall Barrier.no_wrap (WriteConfirm.written_indices [a]) ->
      WriteConfirm.m_read_head (WriteConfirm.access a w) = WriteConfirm.m_read_head w \/
      exists i s,
        a = WriteConfirm.exchange_read_head i s /\
        WriteConfirm.m_read_head w = i /\
        WriteConfirm.m_read_head (WriteConfirm.access a w) = i + 1) /\
  (forall l w,
      Forall Barrier.no_wrap (WriteConfirm.written_indices l) ->
      WriteConfirm.m_read_head w
      <= WriteConfirm.m_read_head (WriteConfirm.accesses l w)).
Proof.
  split; [|split; [|split; [|split]]].
  - intros spurious w i Hi Hrh. eexists.
    split; [apply confirm_write_at_head; assumption|]. split; reflexivity.
  - intros spurious w i Hi Hrh. apply confirm_write_past_head; assumption.
  - intros spurious w i w' Hi Hret.
    split; [|split; [|eapply confirm_write_as_accesses; exact Hret]].
    + destruct (Z.lt_trichotomy (WriteConfirm.m_read_head w) i) as [Hlt|[Heq|Hgt]].
      * rewrite confirm_write_before_head in Hret by assumption. discriminate.
      * rewrite confirm_write_at_head in Hret by assumption.
        injection Hret as <-. right. split; [exact Heq|reflexivity].
      * rewrite confirm_write_past_head in Hret by assumption.
        injection Hret as <-. left. reflexivity.
    + destruct (Z.lt_trichotomy (WriteConfirm.m_read_head w) i) as [Hlt|[Heq|Hgt]].
      * rewrite confirm_write_before_head in Hret by assumption. discriminate.
      * rewrite confirm_write_at_head in Hret by assumption.
        injection Hret as <-. simpl. lia.
      * rewrite confirm_write_past_head in Hret by assumption.
        injection Hret as <-. lia.
  - exact access_read_head.
  - exact accesses_read_head_monotone.
Qed.

(** [read_head_advances_by_single_commits] at read head 4: a commit of
    index 4 whose first exchange fails spuriously moves the read head to 5. *)
Lemma read_head_advances_witness :
  exists w',
    WriteConfirm.confirm_write [true; false]
      {| WriteConfirm.m_write_head := 5; WriteConfirm.m_read_head := 4 |} 4 = Ret w' /\
    WriteConfirm.m_read_head w' = 5.
Proof.
  destruct read_head_advances_by_single_commits as (Hat & _).
  destruct (Hat [true; false]
              {| WriteConfirm.m_write_head := 5; WriteConfirm.m_read_head := 4 |} 4)
    as (w' & Hret & Hrh & _).
  - split; [discriminate|reflexivity].
  - reflexivity.
  - exists w'. split; assumption.
Defined.

(** At the last index the successor wraps: a commit of [2^64 - 1] at
    read head [2^64 - 1] stores 0.  This is the case the no-wrap
    assumption on the counters excludes. *)
Lemma confirm_write_wraps_at_last_index :
  WriteConfirm.confirm_write []
    {| WriteConfirm.m_write_head := 0; WriteConfirm.m_read_head := 2 ^ 64 - 1 |}
    (2 ^ 64 - 1)
  = Ret {| WriteConfirm.m_write_head := 0; WriteConfirm.m_read_head := 0 |}.
Proof. vm_compute. reflexivity. Qed.

(** ** Reading back what was written *)

Lemma get_of_defined_assign {T : Type}
    (b b' : CacheUtils.false_sharing_optimized_buffer T) i v :
  CacheUtils.assign b i v = Ret b' -> CacheUtils.get b' i = Ret v.
Proof.
  unfold CacheUtils.assign, CacheUtils.get.
  destruct (CacheUtils.get_index b i) as [[line slot]| |] eqn:Hidx; simpl; try discriminate.
  destruct (CacheUtils.m_lines b !! Z.to_nat line) as [l|] eqn:Hl; try discriminate.
  destruct (decide (Z.to_nat slot < length l)%nat) as [Hlt|]; try discriminate.
  intros Hret. injection Hret as <-.
  unfold CacheUtils.get_index in *. simpl. rewrite Hidx. simpl.
  rewrite list_lookup_insert_eq by (eapply lookup_lt_Some; exact Hl).
  rewrite list_lookup_insert_eq by exact Hlt. reflexivity.
Qed.

Lemma assign_defined_where_get_is {T : Type}
    (b : CacheUtils.false_sharing_optimized_buffer T) i x v :
  CacheUtils.get b i = Ret x -> exists b', CacheUtils.assign b i v = Ret b'.
Proof.
  unfold CacheUtils.assign, CacheUtils.get.
  destruct (CacheUtils.get_index b i) as [[line slot]| |]; simpl; try discriminate.
  destruct (CacheUtils.m_lines b !! Z.to_nat line) as [l|]; try discriminate.
  destruct (l !! Z.to_nat slot) as [y|] eqn:Hy; try discriminate.
  intros _. apply lookup_lt_Some in Hy.
  destruct (decide (Z.to_nat slot < length l)%nat); [|contradiction].
  eexists. reflexivity.
Qed.

(** ** The MPSC queue *)


(** ** The daemon's registry *)

(** C9: [remove_callback(key)] leaves the registry as it is when [key]
    is not registered, and otherwise removes the entry of [key] and no
    other; it always returns. *)
Theorem remove_callback_removes_only_key
    (callback : Type) (d : Daemon.daemon callback) (key : Z) :
  (Daemon.m_callbacks callback d !! key = None ->
   Daemon.remove_callback callback key d = d) /\
  (is_Some (Daemon.m_callbacks callback d !! key) ->
   Daemon.m_callbacks callback (Daemon.remove_callback callback key d) !! key = None /\
   (forall other, other <> key ->
      Daemon.m_callbacks callback (Daemon.remove_callback callback key d) !! other
      = Daemon.m_callbacks callback d !! other) /\
   Daemon.m_next_callback callback (Daemon.remove_callback callback key d)
   = Daemon.m_next_callback callback d).
Proof.
  unfold Daemon.remove_callback. split.
  - intros Hnone. rewrite Hnone. reflexivity.
  - intros [func Hsome]. rewrite Hsome. simpl.
    split; [apply lookup_delete_eq|]. split; [|reflexivity].
    intros other Hne. apply lookup_delete_ne. congruence.
Qed.

(** ** The fan-out queue *)

Section FanoutFacts.

Import MpmcFanout.

Lemma update_min_tail_walk_spec subs hs min_tail :
  Fanout.owned subs hs ->
  exists m kept hs',
    update_min_tail_walk subs hs min_tail = Ret (m, kept, hs') /\
    kept = List.filter (Fanout.is_live hs) subs /\
    (forall p, In p subs -> Fanout.is_live hs p = false -> hs' !! p = None) /\
    (forall p, ~ In p subs \/ Fanout.is_live hs p = true -> hs' !! p = hs !! p) /\
    m <= min_tail /\
    (forall p, In p kept -> m <= Fanout.tail_of hs p) /\
    (m = min_tail \/ exists p, In p kept /\ m = Fanout.tail_of hs p).
Proof.
  revert hs min_tail. induction subs as [|it rest IH]; intros hs min_tail [Hnodup Hin].
  - exists min_tail, [], hs. simpl. repeat split; try tauto; try lia.
  - apply NoDup_cons in Hnodup as [Hfresh Hnodup].
    destruct (Hin it (or_introl eq_refl)) as [handle Hhandle].
    simpl. rewrite Hhandle.
    assert (Fanout.is_live hs it = subscribed handle) as Hlive.
    { unfold Fanout.is_live. rewrite Hhandle. reflexivity. }
    rewrite Hlive.
    destruct (subscribed handle) eqn:Hsub.
    + destruct (IH hs (Z.min min_tail (get_tail handle)))
        as (m & kept & hs' & Hwalk & Hkept & Hdead & Hkeep & Hle & Hmin & Hattained).
      { split; [exact Hnodup|]. intros p Hp. apply Hin. right. exact Hp. }
      rewrite Hwalk. simpl. exists m, (it :: kept), hs'.
      assert (Fanout.tail_of hs it = get_tail handle) as Htail.
      { unfold Fanout.tail_of. rewrite Hhandle. reflexivity. }
      split; [reflexivity|]. split; [rewrite Hkept; reflexivity|].
      split; [|split; [|split; [|split]]].
      * intros p [<-|Hp] Hp'; [congruence|]. apply Hdead; assumption.
      * intros p [Hp|Hp]; apply Hkeep.
        -- left. intros Hr. apply Hp. right. exact Hr.
        -- destruct (Nat.eq_dec p it) as [->|Hne].
           ++ left. intros Hr. apply Hfresh. apply list_elem_of_In. exact Hr.
           ++ right. exact Hp.
      * lia.
      * intros p [<-|Hp]; [lia|]. apply Hmin. exact Hp.
      * destruct Hattained as [Hm|(p & Hp & Hm)].
        -- destruct (Z.min_spec min_tail (get_tail handle)) as [[_ Hmn]|[_ Hmn]].
           ++ left. lia.
           ++ right. exists it. split; [left; reflexivity|lia].
        -- right. exists p. split; [right; exact Hp|exact Hm].
    + assert (forall p, In p rest -> delete it hs !! p = hs !! p) as Hsame.
      { intros p Hp. apply lookup_delete_ne. intros ->.
        apply Hfresh. apply list_elem_of_In. exact Hp. }
      assert (forall p, In p rest ->
                        Fanout.is_live (delete it hs) p = Fanout.is_live hs p) as Hlive'.
      { intros p Hp. unfold Fanout.is_live. rewrite Hsame by exact Hp. reflexivity. }
      destruct (IH (delete it hs) min_tail)
        as (m & kept & hs' & Hwalk & Hkept & Hdead & Hkeep & Hle & Hmin & Hattained).
      { split; [exact Hnodup|]. intros p Hp. rewrite Hsame by exact Hp.
        apply Hin. right. exact Hp. }
      rewrite (List.filter_ext_in _ _ _ Hlive') in Hkept.
      assert (forall p, In p kept -> In p rest) as Hsub'.
      { intros p Hp. rewrite Hkept in Hp. apply filter_In in Hp. tauto. }
      assert (forall p, In p rest ->
                        Fanout.tail_of (delete it hs) p = Fanout.tail_of hs p) as Htail'.
      { intros p Hp. unfold Fanout.tail_of. rewrite Hsame by exact Hp. reflexivity. }
      exists m, kept, hs'. split; [exact Hwalk|]. split; [exact Hkept|].
      split; [|split; [|split; [|split]]].
      * intros p [<-|Hp] Hp'.
        -- rewrite Hkeep; [apply lookup_delete_eq|].
           left. intros Hr. apply Hfresh. apply list_elem_of_In. exact Hr.
        -- apply Hdead; [exact Hp|]. rewrite Hlive' by exact Hp. exact Hp'.
      * intros p Hp.
        assert (p <> it) as Hne.
        { intros ->. destruct Hp as [Hp|Hp]; [apply Hp; left; reflexivity|congruence]. }
        rewrite <- (lookup_delete_ne hs it p) by congruence.
        apply Hkeep. destruct Hp as [Hp|Hp].
        -- left. intros Hr. apply Hp. right. exact Hr.
        -- destruct (in_dec Nat.eq_dec p rest) as [Hr|Hr].
           ++ right. rewrite Hlive' by exact Hr. exact Hp.
           ++ left. exact Hr.
      * exact Hle.
      * intros p Hp. rewrite <- Htail' by (apply Hsub'; exact Hp). apply Hmin. exact Hp.
      * destruct Hattained as [Hm|(p & Hp & Hm)]; [left; exact Hm|].
        right. exists p. split; [exact Hp|].
        rewrite <- Htail' by (apply Hsub'; exact Hp). exact Hm.
Qed.

End FanoutFacts.

(** C8: after [update_min_tail] the published [min_tail] is the minimum
    of the barrier's read index and the tails of the handles that are
    still subscribed; every unsubscribed handle is gone from the
    subscription list (and destroyed); and with no subscriber left
    [min_tail] is the read index, so [size()] is 0. *)
Theorem update_min_tail_publishes_minimum
    (T : Type) (q : MpmcFanout.mpmc_fanout T) :
  let r := WriteConfirm.get_read_index (MpmcFanout.m_write_confirmer q) in
  let hs := MpmcFanout.handles q in
  Fanout.owned (MpmcFanout.m_subscriptions q) hs ->
  exists q',
    MpmcFanout.update_min_tail q = Ret q' /\
    MpmcFanout.m_subscriptions q'
    = List.filter (Fanout.is_live hs) (MpmcFanout.m_subscriptions q) /\
    (forall p, In p (MpmcFanout.m_subscriptions q) ->
               Fanout.is_live hs p = false ->
               ~ In p (MpmcFanout.m_subscriptions q') /\
               MpmcFanout.handles q' !! p = None) /\
    (forall p, In p (MpmcFanout.m_subscriptions q') ->
               Fanout.is_live hs p = true /\
               MpmcFanout.handles q' !! p = hs !! p) /\
    MpmcFanout.m_min_tail q' <= r /\
    (forall p, In p (MpmcFanout.m_subscriptions q') ->
               MpmcFanout.m_min_tail q' <= Fanout.tail_of hs p) /\
    (MpmcFanout.m_min_tail q' = r \/
     exists p, In p (MpmcFanout.m_subscriptions q') /\
               MpmcFanout.m_min_tail q' = Fanout.tail_of hs p) /\
    (MpmcFanout.m_subscriptions q' = [] ->
     MpmcFanout.m_min_tail q' = r /\ MpmcFanout.size q' = 0) /\
    MpmcFanout.m_write_confirmer q' = MpmcFanout.m_write_confirmer q /\
    MpmcFanout.m_buffer q' = MpmcFanout.m_buffer q.
Proof.
  intros r hs Howned.
  destruct (update_min_tail_walk_spec (MpmcFanout.m_subscriptions q) hs r Howned)
    as (m & kept & hs' & Hwalk & Hkept & Hdead & Hkeep & Hle & Hmin & Hattained).
  unfold MpmcFanout.update_min_tail. fold r hs. rewrite Hwalk. simpl.
  eexists. split; [reflexivity|]. simpl.
  split; [exact Hkept|]. split; [|split; [|split; [|split; [|split; [|split]]]]].
  - intros p Hp Hp'. split; [|apply Hdead; assumption].
    rewrite Hkept. intros Hr. apply filter_In in Hr. destruct Hr as [_ Hr]. congruence.
  - intros p Hp. rewrite Hkept in Hp. apply filter_In in Hp. destruct Hp as [_ Hp].
    split; [exact Hp|]. apply Hkeep. right. exact Hp.
  - exact Hle.
  - exact Hmin.
  - exact Hattained.
  - intros Hnone. assert (m = r) as ->.
    { destruct Hattained as [Hm|(p & Hp & _)]; [exact Hm|]. rewrite Hnone in Hp. destruct Hp. }
    split; [reflexivity|]. unfold MpmcFanout.size. simpl. fold r.
    rewrite Z.sub_diag. reflexivity.
  - split; reflexivity.
Qed.

(** [update_min_tail_publishes_minimum] in the [UnsubscribeAndCleanup]
    test: with the first subscriber at 10 and the retired second one at 1,
    the pass keeps the first handle only and publishes 10. *)
Lemma update_min_tail_witness :
  exists q q',
    FanoutExamples.after_unsubscribe = Ret q /\
    MpmcFanout.size q = 9 /\
    MpmcFanout.update_min_tail q = Ret q' /\
    MpmcFanout.m_subscriptions q = [0%nat; 1%nat] /\
    MpmcFanout.m_subscriptions q' = [0%nat] /\
    MpmcFanout.m_min_tail q' = 10 /\
    MpmcFanout.size q' = 0.
Proof.
  assert (exists q,
             FanoutExamples.after_unsubscribe = Ret q /\
             MpmcFanout.size q = 9 /\
             MpmcFanout.m_subscriptions q = [0%nat; 1%nat] /\
             MpmcFanout.handles q !! 0%nat
             = Some {| MpmcFanout.h_tail := 10; MpmcFanout.h_subscribed := true |} /\
             MpmcFanout.handles q !! 1%nat
             = Some {| MpmcFanout.h_tail := 1; MpmcFanout.h_subscribed := false |} /\
             WriteConfirm.get_read_index (MpmcFanout.m_write_confirmer q) = 10)
    as (q & Hq & Hsize & Hsubs & H0 & H1 & Hr).
  { eexists. split; [vm_compute; reflexivity|].
    repeat (split; [vm_compute; reflexivity|]). vm_compute. reflexivity. }
  assert (Fanout.owned (MpmcFanout.m_subscriptions q) (MpmcFanout.handles q)) as Howned.
  { rewrite Hsubs. split.
    - apply NoDup_cons. split; [|apply NoDup_singleton].
      intros Hin. apply list_elem_of_In in Hin. destruct Hin as [Hin|[]]. discriminate.
    - intros p [<-|[<-|[]]]; eauto. }
  destruct (update_min_tail_publishes_minimum Z q Howned)
    as (q' & Hupd & Hkept & _ & _ & Hle & _ & Hattained & _ & Hwc & _).
  assert (MpmcFanout.m_subscriptions q' = [0%nat]) as Hsubs'.
  { rewrite Hkept, Hsubs. unfold Fanout.is_live. simpl. rewrite H0, H1. reflexivity. }
  assert (MpmcFanout.m_min_tail q' = 10) as Hmin.
  { rewrite Hr in Hattained. destruct Hattained as [Hm|(p & Hp & Hm)]; [exact Hm|].
    rewrite Hsubs' in Hp. destruct Hp as [<-|[]].
    unfold Fanout.tail_of in Hm. rewrite H0 in Hm. exact Hm. }
  exists q, q'.
  split; [exact Hq|]. split; [exact Hsize|]. split; [exact Hupd|].
  split; [exact Hsubs|]. split; [exact Hsubs'|]. split; [exact Hmin|].
  unfold MpmcFanout.size. rewrite Hmin.
  rewrite Hwc, Hr. reflexivity.
Defined.

(** C7: the handle [subscribe()] creates has its tail at the barrier's
    read index [r] at that time, and its [pop] then returns false; with
    every reserved slot committed, after one further [push(v)] its [pop]
    returns true and yields [v].  What was pushed before [subscribe()]
    returned is not delivered to the handle: [pop] reads at the handle's
    tail, which starts at [r]. *)
Theorem late_subscriber_begins_at_read_head
    (T : Type) (q : MpmcFanout.mpmc_fanout T) :
  let r := WriteConfirm.get_read_index (MpmcFanout.m_write_confirmer q) in
  let sub := fst (MpmcFanout.subscribe q) in
  let q1 := snd (MpmcFanout.subscribe q) in
  MpmcFanout.handles q1 !! sub
  = Some {| MpmcFanout.h_tail := r; MpmcFanout.h_subscribed := true |} /\
  In sub (MpmcFanout.m_subscriptions q1) /\
  (forall out, MpmcFanout.pop sub out q1 = Ret (false, out, q1)) /\
  (forall spurious v out q2,
      WriteConfirm.m_write_head (MpmcFanout.m_write_confirmer q) = r ->
      Barrier.no_wrap r ->
      MpmcFanout.push spurious v q1 = Ret q2 ->
      exists q3,
        MpmcFanout.pop sub out q2 = Ret (true, v, q3) /\
        MpmcFanout.handles q3 !! sub
        = Some {| MpmcFanout.h_tail := r + 1; MpmcFanout.h_subscribed := true |}) /\
  (forall (q' : MpmcFanout.mpmc_fanout T) handle out x q'',
      MpmcFanout.handles q' !! sub = Some handle ->
      MpmcFanout.pop sub out q' = Ret (true, x, q'') ->
      CacheUtils.get (MpmcFanout.m_buffer q') (MpmcFanout.h_tail handle) = Ret x /\
      MpmcFanout.h_tail handle
      < WriteConfirm.get_read_index (MpmcFanout.m_write_confirmer q')).
Proof.
  intros r sub q1.
  assert (MpmcFanout.handles q1 !! sub
          = Some {| MpmcFanout.h_tail := r; MpmcFanout.h_subscribed := true |}) as Hhandle.
  { subst q1 sub. unfold MpmcFanout.subscribe. simpl. apply lookup_insert_eq. }
  assert (MpmcFanout.m_write_confirmer q1 = MpmcFanout.m_write_confirmer q) as Hwc
    by reflexivity.
  assert (In sub (MpmcFanout.m_subscriptions q1)) as Hin.
  { subst q1 sub. unfold MpmcFanout.subscribe. simpl.
    apply in_or_app. right. left. reflexivity. }
  clearbody q1 sub.
  assert (WriteConfirm.m_read_head (MpmcFanout.m_write_confirmer q) = r) as Hread
    by reflexivity.
  clearbody r.
  split; [exact Hhandle|]. split; [exact Hin|]. split; [|split].
  - intros out. unfold MpmcFanout.pop. rewrite Hhandle, Hwc.
    unfold WriteConfirm.get_read_index.
    rewrite Hread. simpl. rewrite Z.leb_refl. reflexivity.
  - intros spurious v out q2 Hquiet [Hr0 Hr64] Hpush.
    unfold MpmcFanout.push, MpmcFanout.get_free_index in Hpush.
    rewrite Hwc in Hpush. unfold WriteConfirm.get_write_index in Hpush.
    rewrite Hquiet in Hpush.
    destruct (MpmcFanout.m_free_capacity_needed q1 <=? wrap (r - MpmcFanout.m_min_tail q1));
      [discriminate|].
    cbn [mbind outcome_bind] in Hpush.
    change (MpmcFanout.m_buffer
              (MpmcFanout.with_write_confirmer T
                 {| WriteConfirm.m_write_head := wrap (r + 1);
                    WriteConfirm.m_read_head :=
                      WriteConfirm.m_read_head (MpmcFanout.m_write_confirmer q) |} q1))
      with (MpmcFanout.m_buffer q1) in Hpush.
    destruct (CacheUtils.assign (MpmcFanout.m_buffer q1) r v) as [b| |] eqn:Hassign;
      try discriminate.
    cbn [mbind outcome_bind] in Hpush.
    unfold MpmcFanout.update_read_head in Hpush.
    rewrite confirm_write_at_head in Hpush by (try split; try assumption; reflexivity).
    cbn [mbind outcome_bind] in Hpush. injection Hpush as <-.
    unfold MpmcFanout.pop.
    change (MpmcFanout.handles (MpmcFanout.with_write_confirmer T _ _))
      with (MpmcFanout.handles q1).
    rewrite Hhandle.
    cbn [MpmcFanout.h_tail MpmcFanout.h_subscribed MpmcFanout.m_write_confirmer
         MpmcFanout.with_write_confirmer WriteConfirm.get_read_index
         WriteConfirm.m_read_head MpmcFanout.m_buffer MpmcFanout.with_buffer].
    destruct (r + 1 <=? r) eqn:Htest; [lia|].
    rewrite (get_of_defined_assign _ _ _ _ Hassign).
    cbn [mbind outcome_bind].
    eexists. split; [reflexivity|].
    cbn [MpmcFanout.handles MpmcFanout.with_subscriptions].
    rewrite lookup_insert_eq. rewrite wrap_small by lia. reflexivity.
  - intros q' handle out x q'' Hh Hpop. unfold MpmcFanout.pop in Hpop.
    rewrite Hh in Hpop.
    destruct (WriteConfirm.get_read_index (MpmcFanout.m_write_confirmer q')
              <=? MpmcFanout.h_tail handle) eqn:Htest; [discriminate|].
    apply Z.leb_gt in Htest. split; [|exact Htest].
    destruct (CacheUtils.get (MpmcFanout.m_buffer q') (MpmcFanout.h_tail handle))
      as [y| |]; try discriminate.
    cbn [mbind outcome_bind] in Hpop. injection Hpop as <- _. reflexivity.
Qed.

(** [late_subscriber_begins_at_read_head] in the [LateSubscription] test:
    push 0..4, subscribe, [pop] is false, push 42, [pop] is true with 42. *)
Lemma late_subscriber_witness :
  exists q q2 q3,
    FanoutExamples.after_five_pushes = Ret q /\
    let sub := fst (MpmcFanout.subscribe q) in
    let q1 := snd (MpmcFanout.subscribe q) in
    MpmcFanout.pop sub 0 q1 = Ret (false, 0, q1) /\
    MpmcFanout.push [] 42 q1 = Ret q2 /\
    MpmcFanout.pop sub 0 q2 = Ret (true, 42, q3).
Proof.
  assert (exists q q2,
             FanoutExamples.after_five_pushes = Ret q /\
             WriteConfirm.m_write_head (MpmcFanout.m_write_confirmer q) = 5 /\
             WriteConfirm.get_read_index (MpmcFanout.m_write_confirmer q) = 5 /\
             MpmcFanout.push [] 42 (snd (MpmcFanout.subscribe q)) = Ret q2)
    as (q & q2 & Hq & Hwrite & Hread & Hpush).
  { eexists. eexists. split; [vm_compute; reflexivity|].
    split; [vm_compute; reflexivity|]. split; [vm_compute; reflexivity|].
    vm_compute. reflexivity. }
  destruct (late_subscriber_begins_at_read_head Z q)
    as (_ & _ & Hempty & Hnext & _).
  destruct (Hnext [] 42 0 q2) as (q3 & Hpop & _).
  - rewrite Hwrite, Hread. reflexivity.
  - rewrite Hread. split; [discriminate|reflexivity].
  - exact Hpush.
  - exists q, q2, q3. split; [exact Hq|]. split; [apply Hempty|].
    split; [exact Hpush|exact Hpop].
Defined.

(** ** The append-only vector *)

Lemma lookup_foldr_delete {V : Type} (m : gmap nat V) (ks : list nat) (p : nat) :
  ~ In p ks -> foldr delete m ks !! p = m !! p.
Proof.
  induction ks as [|k ks IH]; intros Hp; [reflexivity|].
  simpl. rewrite lookup_delete_ne.
  - apply IH. intros Hin. apply Hp. right. exact Hin.
  - intros ->. apply Hp. left. reflexivity.
Qed.

Lemma removelast_last_split {A : Type} (l : list A) (x : A) :
  last l = Some x -> l = removelast l ++ [x].
Proof.
  induction l as [|a l IH]; [discriminate|].
  destruct l as [|b l]; simpl.
  - intros Hlast. injection Hlast as <-. reflexivity.
  - intros Hlast. f_equal. apply IH. exact Hlast.
Qed.

Lemma last_not_in_removelast (l : list nat) (x : nat) :
  NoDup l -> last l = Some x -> ~ In x (removelast l).
Proof.
  intros Hnodup Hlast Hin.
  rewrite (removelast_last_split l x Hlast) in Hnodup.
  apply NoDup_app in Hnodup as (_ & Hdisj & _).
  apply (Hdisj x); [apply list_elem_of_In; exact Hin|]. apply list_elem_of_here.
Qed.

Section VecFacts.

Import SpmcPushVec.

Variable T : Type.
Variable T_default : T.

Local Abbreviation vec := (spmc_push_vec T).

Lemma archive_inv_current (s : vec) :
  Archive.archive_inv s -> exists v, store s !! m_current_vec s = Some v.
Proof.
  intros (_ & Hvalid & Hlast). apply Hvalid.
  apply list_elem_of_In. apply last_Some_elem_of. exact Hlast.
Qed.

Lemma fresh_pointer_unused (s : vec) :
  store s !! fresh (dom (store s)) = None.
Proof. apply not_elem_of_dom. apply is_fresh. Qed.

Lemma fresh_pointer_not_archived (s : vec) :
  Archive.archive_inv s -> ~ In (fresh (dom (store s))) (m_old_vecs s).
Proof.
  intros (_ & Hvalid & _) Hin. destruct (Hvalid _ Hin) as [v Hv].
  rewrite fresh_pointer_unused in Hv. discriminate.
Qed.

(** [reserve] keeps the elements, the size and the ownership, whether it
    reallocates or not. *)
Lemma reserve_spec elements (s : vec) v :
  Archive.archive_inv s ->
  store s !! m_current_vec s = Some v ->
  exists s' v',
    reserve T elements s = Normal tt s' /\
    Archive.archive_inv s' /\
    store s' !! m_current_vec s' = Some v' /\
    v_elems v' = v_elems v /\
    m_size s' = m_size s.
Proof.
  intros Hinv Hv. pose proof Hinv as (Hnodup & Hvalid & Hlast).
  unfold reserve, capacity, get_current_vec, load_current_vec, deref.
  unfold mbind, M_bind, bind, mret, M_ret, ret. rewrite Hv.
  destruct (v_capacity v <? elements) eqn:Htest.
  - rewrite Hv. unfold create_new_vector, through, store_current_vec. simpl.
    rewrite lookup_insert_eq. simpl.
    eexists. eexists. split; [reflexivity|]. simpl.
    split; [|split; [apply lookup_insert_eq|split; [|reflexivity]]].
    + split; [|split].
      * apply NoDup_app. split; [exact Hnodup|]. split; [|apply NoDup_singleton].
        intros p Hp Hq. apply list_elem_of_singleton in Hq. subst p.
        apply (fresh_pointer_not_archived s Hinv). apply list_elem_of_In. exact Hp.
      * simpl. intros p Hp. apply in_app_or in Hp. destruct Hp as [Hp|[<-|[]]].
        -- destruct (decide (fresh (dom (store s)) = p)) as [<-|Hne].
           ++ rewrite lookup_insert_eq. eauto.
           ++ rewrite lookup_insert_ne by exact Hne.
              rewrite lookup_insert_ne by exact Hne. apply Hvalid. exact Hp.
        -- rewrite lookup_insert_eq. eauto.
      * simpl. apply last_snoc.
    + unfold vector_reserve, vector_copy. simpl.
      destruct (v_size T v <? elements); reflexivity.
  - exists s, v. repeat split; assumption.
Qed.

Lemma through_current f (s : vec) v :
  store s !! m_current_vec s = Some v ->
  through T (m_current_vec s) f s =
  Normal tt {| store := <[m_current_vec s := f v]> (store s);
               m_old_vecs := m_old_vecs s;
               m_current_vec := m_current_vec s;
               m_size := m_size s |}.
Proof. intros Hv. unfold through. rewrite Hv. reflexivity. Qed.

(** Changing the vector [m_current_vec] points at keeps the ownership. *)
Lemma archive_inv_update (s : vec) v n :
  Archive.archive_inv s ->
  Archive.archive_inv {| store := <[m_current_vec s := v]> (store s);
                         m_old_vecs := m_old_vecs s;
                         m_current_vec := m_current_vec s;
                         m_size := n |}.
Proof.
  intros (Hnodup & Hvalid & Hlast). split; [exact Hnodup|]. split; [|exact Hlast].
  simpl. intros p Hp. destruct (decide (m_current_vec s = p)) as [<-|Hne].
  - rewrite lookup_insert_eq. eauto.
  - rewrite lookup_insert_ne by exact Hne. apply Hvalid. exact Hp.
Qed.

End VecFacts.

Section VecCalls.

Import SpmcPushVec.

Variable T : Type.
Variable T_default : T.

Local Abbreviation vec := (spmc_push_vec T).

Lemma current_elems_lookup (s : vec) v :
  store s !! m_current_vec s = Some v -> Archive.current_elems s = v_elems v.
Proof. intros Hv. unfold Archive.current_elems. rewrite Hv. reflexivity. Qed.

Lemma new_spec initial_capacity :
  exists s,
    new_spmc_push_vec T initial_capacity = Normal tt s /\
    Archive.archive_inv s /\
    Archive.current_elems s = [] /\
    m_size s = 0.
Proof.
  unfold new_spmc_push_vec, create_new_vector, store_current_vec, load_current_vec,
    through.
  unfold mbind, M_bind, bind. simpl. rewrite lookup_insert_eq.
  eexists. split; [reflexivity|]. split; [|split; [|reflexivity]].
  - split; [apply NoDup_singleton|]. split; [|reflexivity].
    simpl. intros p [<-|[]]. rewrite lookup_insert_eq. eauto.
  - unfold Archive.current_elems. simpl. rewrite lookup_insert_eq.
    unfold vector_reserve. destruct (_ <? _); reflexivity.
Qed.

Lemma push_back_spec element (s : vec) :
  Archive.archive_inv s ->
  exists s',
    push_back T element s = Normal tt s' /\
    Archive.archive_inv s' /\
    Archive.current_elems s' = Archive.current_elems s ++ [element] /\
    m_size s' = wrap (m_size s + 1).
Proof.
  intros Hinv. destruct (archive_inv_current T s Hinv) as [v Hv].
  assert (forall (s1 : vec) v1,
             Archive.archive_inv s1 ->
             store s1 !! m_current_vec s1 = Some v1 ->
             v_elems v1 = v_elems v -> m_size s1 = m_size s ->
             exists s',
               bind T (through T (m_current_vec s1) (vector_push_back T element))
                 (fun _ => store_size T (wrap (m_size s + 1))) s1 = Normal tt s' /\
               Archive.archive_inv s' /\
               Archive.current_elems s' = Archive.current_elems s ++ [element] /\
               m_size s' = wrap (m_size s + 1)) as Happend.
  { intros s1 v1 Hinv1 Hv1 Helems Hsize.
    unfold bind. rewrite (through_current T _ s1 v1 Hv1).
    unfold store_size. eexists. split; [reflexivity|]. split; [|split; [|reflexivity]].
    - apply (archive_inv_update T s1). exact Hinv1.
    - unfold Archive.current_elems at 1. simpl. rewrite lookup_insert_eq. simpl.
      rewrite Helems. rewrite (current_elems_lookup s v Hv). reflexivity. }
  unfold push_back, size, capacity, get_current_vec, load_current_vec, deref.
  unfold mbind, M_bind, bind, ret in *. rewrite Hv.
  destruct (v_capacity v <=? m_size s).
  - rewrite Hv.
    destruct (reserve_spec T (wrap (v_capacity v * 2)) s v Hinv Hv)
      as (s1 & v1 & Hres & Hinv1 & Hv1 & Helems & Hsize).
    rewrite Hres. apply (Happend s1 v1); assumption.
  - apply (Happend s v); auto.
Qed.

Lemma emplace_back_spec element (s : vec) :
  Archive.archive_inv s ->
  exists s',
    emplace_back T element s = Normal element s' /\
    push_back T element s = Normal tt s'.
Proof.
  intros Hinv. destruct (push_back_spec element s Hinv) as (s' & Hpush & _).
  exists s'. split; [|exact Hpush]. revert Hpush.
  unfold emplace_back, push_back, mbind, M_bind, bind, ret.
  repeat match goal with
         | |- (match ?x with Normal _ _ => _ | Throws _ _ => _ | Undef => _ end = _) -> _ =>
             destruct x as [? ?| |]; try discriminate
         end.
  unfold store_size. intros Hpush. injection Hpush as <-. reflexivity.
Qed.

Lemma resize_shrink_spec elements (s : vec) :
  elements < m_size s ->
  resize T T_default elements s
  = Throws (runtime_error "spmc_push_vec::resize - cannot shrink") s.
Proof.
  intros Hlt. unfold resize, size, throw, mbind, M_bind, bind.
  destruct (elements <? m_size s) eqn:Htest; [reflexivity|lia].
Qed.

Lemma resize_grow_spec elements (s : vec) :
  Archive.archive_inv s ->
  m_size s <= elements ->
  exists s',
    resize T T_default elements s = Normal tt s' /\
    Archive.archive_inv s' /\
    Archive.current_elems s'
    = take (Z.to_nat elements) (Archive.current_elems s)
        ++ replicate (Z.to_nat elements - length (Archive.current_elems s)) T_default /\
    m_size s' = elements.
Proof.
  intros Hinv Hle. destruct (archive_inv_current T s Hinv) as [v Hv].
  destruct (reserve_spec T elements s v Hinv Hv)
    as (s1 & v1 & Hres & Hinv1 & Hv1 & Helems & Hsize).
  unfold resize, size, throw, mbind, M_bind, bind, ret, load_current_vec.
  destruct (elements <? m_size s) eqn:Htest; [lia|].
  rewrite Hres. rewrite (through_current T _ s1 v1 Hv1). unfold store_size.
  eexists. split; [reflexivity|]. split; [|split; [|reflexivity]].
  - apply (archive_inv_update T s1). exact Hinv1.
  - unfold Archive.current_elems at 1. simpl. rewrite lookup_insert_eq. simpl.
    rewrite Helems. rewrite (current_elems_lookup s v Hv). reflexivity.
Qed.

Lemma drop_old_spec (s : vec) :
  Archive.archive_inv s ->
  exists s',
    drop_old s = Normal tt s' /\
    Archive.archive_inv s' /\
    m_old_vecs s' = [m_current_vec s] /\
    m_current_vec s' = m_current_vec s /\
    store s' !! m_current_vec s' = store s !! m_current_vec s /\
    m_size s' = m_size s.
Proof.
  intros Hinv. pose proof Hinv as (Hnodup & Hvalid & Hlast).
  destruct (archive_inv_current T s Hinv) as [v Hv].
  unfold drop_old. rewrite Hlast.
  assert (foldr delete (store s) (removelast (m_old_vecs s)) !! m_current_vec s
          = store s !! m_current_vec s) as Hkept.
  { apply lookup_foldr_delete. apply last_not_in_removelast; assumption. }
  eexists. split; [reflexivity|]. simpl.
  split; [|split; [reflexivity|split; [reflexivity|split; [exact Hkept|reflexivity]]]].
  split; [apply NoDup_singleton|]. split; [|reflexivity].
  simpl. intros p [<-|[]]. rewrite Hkept, Hv. eauto.
Qed.

(** What holds of every vector the producer can build. *)
Lemma reachable_inv (s : vec) :
  reachable T_default s ->
  Archive.archive_inv s /\
  0 <= m_size s /\
  (Archive.fits s -> m_size s = Z.of_nat (length (Archive.current_elems s))).
Proof.
  induction 1 as [initial_capacity s Hnew|c s s' Hreach (Hinv & Hnn & Hagree) Hcall].
  - destruct (new_spec initial_capacity) as (s0 & Hs0 & Hinv & Helems & Hsize).
    rewrite Hs0 in Hnew. injection Hnew as <-.
    split; [exact Hinv|]. rewrite Hsize, Helems. split; [lia|reflexivity].
  - assert (forall element,
               left_by (push_back T element s) = Some s' ->
               Archive.archive_inv s' /\ 0 <= m_size s' /\
               (Archive.fits s' ->
                m_size s' = Z.of_nat (length (Archive.current_elems s')))) as Hpush.
    { intros element Hleft.
      destruct (push_back_spec element s Hinv) as (s1 & Hs1 & Hinv1 & Helems & Hsize).
      rewrite Hs1 in Hleft. injection Hleft as <-.
      split; [exact Hinv1|]. split; [rewrite Hsize; apply wrap_range|].
      unfold Archive.fits. rewrite Helems, length_app. simpl. intros Hfits.
      rewrite Hsize, Hagree by (unfold Archive.fits; lia).
      rewrite wrap_small by lia. lia. }
    destruct c as [element|element|elements|elements|]; simpl in Hcall.
    + apply (Hpush element). exact Hcall.
    + destruct (emplace_back_spec element s Hinv) as (s1 & Hem & Hpb).
      rewrite Hem in Hcall. apply (Hpush element). rewrite Hpb. exact Hcall.
    + destruct (archive_inv_current T s Hinv) as [v Hv].
      destruct (reserve_spec T elements s v Hinv Hv)
        as (s1 & v1 & Hres & Hinv1 & Hv1 & Helems & Hsize).
      rewrite Hres in Hcall. injection Hcall as <-.
      split; [exact Hinv1|]. split; [lia|].
      unfold Archive.fits. rewrite (current_elems_lookup s1 v1 Hv1), Helems, Hsize.
      rewrite <- (current_elems_lookup s v Hv). exact Hagree.
    + destruct (Z.lt_ge_cases elements (m_size s)) as [Hlt|Hge].
      * rewrite resize_shrink_spec in Hcall by exact Hlt. injection Hcall as <-.
        split; [exact Hinv|]. split; [exact Hnn|exact Hagree].
      * destruct (resize_grow_spec elements s Hinv Hge)
          as (s1 & Hres & Hinv1 & Helems & Hsize).
        rewrite Hres in Hcall. injection Hcall as <-.
        split; [exact Hinv1|]. split; [lia|]. intros _.
        rewrite Helems, Hsize, length_app, length_take, length_replicate. lia.
    + destruct (drop_old_spec s Hinv) as (s1 & Hdrop & Hinv1 & _ & Hcur & Hstore & Hsize).
      rewrite Hdrop in Hcall. injection Hcall as <-.
      split; [exact Hinv1|]. split; [lia|].
      unfold Archive.fits, Archive.current_elems in *. rewrite Hstore, Hsize.
      exact Hagree.
Qed.

End VecCalls.

Lemma at_index_spec {T : Type} (s : SpmcPushVec.spmc_push_vec T) (i : Z) :
  SpmcPushVec.at_index i s =
  match SpmcPushVec.store s !! SpmcPushVec.m_current_vec s with
  | Some v =>
      match SpmcPushVec.v_elems v !! Z.to_nat i with
      | Some x => SpmcPushVec.Normal x s
      | None => SpmcPushVec.Undef
      end
  | None => SpmcPushVec.Undef
  end.
Proof.
  unfold SpmcPushVec.at_index, SpmcPushVec.get_current_vec, SpmcPushVec.load_current_vec,
    SpmcPushVec.deref, SpmcPushVec.subscript, mbind, SpmcPushVec.M_bind, SpmcPushVec.bind.
  destruct (SpmcPushVec.store s !! SpmcPushVec.m_current_vec s); reflexivity.
Qed.

Lemma at_index_current_elems {T : Type} (s : SpmcPushVec.spmc_push_vec T) (i : Z) (x : T) :
  Archive.archive_inv s ->
  Archive.current_elems s !! Z.to_nat i = Some x ->
  SpmcPushVec.at_index i s = SpmcPushVec.Normal x s.
Proof.
  intros Hinv Hx. destruct (archive_inv_current T s Hinv) as [v Hv].
  rewrite at_index_spec, Hv. rewrite (current_elems_lookup T s v Hv) in Hx.
  rewrite Hx. reflexivity.
Qed.





(** ** The SPSC queue *)

(** C4 at [spsc_queue<int> q(1, 40)]: the buffer has 3 lines under the
    [pow2] policy, indices 0 and 1 fall on the same cell, and after
    [push(10); push(20)] (two pending elements, capacity 48) the first
    [pop] yields 20: the first element is lost and the second comes
    first.  Index 32 falls on position 16 of a line of 16 elements, so
    the alternating run has no defined behaviour from [i = 32] on. *)
Lemma spsc_second_push_overwrites_first :
  exists q q',
    SpscExamples.int_queue 1 40 = Ret q /\
    SpscQueue.capacity q = 48 /\
    CacheUtils.number_of_cache_lines (SpscQueue.m_buffer q) = 3 /\
    CacheUtils.get_index (SpscQueue.m_buffer q) 0 = Ret (0, 0) /\
    CacheUtils.get_index (SpscQueue.m_buffer q) 1 = Ret (0, 0) /\
    SpscExamples.run_int
      [SpscQueue.call_push 10; SpscQueue.call_push 20; SpscQueue.call_pop] q
    = Ret ([20], q') /\
    SpscQueue.size q' = 1 /\
    CacheUtils.get_index (SpscQueue.m_buffer q) 32 = Ret (0, 16) /\
    SpscExamples.run_int
      (Fifo.alternate (map Z.of_nat (seq 0 (5 * 48)))) q = Undefined.
Proof.
  eexists. eexists. split; [vm_compute; reflexivity|].
  split; [vm_compute; reflexivity|]. split; [vm_compute; reflexivity|].
  split; [vm_compute; reflexivity|]. split; [vm_compute; reflexivity|].
  split; [vm_compute; reflexivity|]. split; [vm_compute; reflexivity|].
  split; [vm_compute; reflexivity|]. vm_compute. reflexivity.
Qed.

(** ** Sound buffers behave as arrays indexed modulo the capacity *)

Section SoundBuffers.

Variable T : Type.
Variable sizeof_T : Z.
Variable size_policy : CacheUtils.cache_size_policy.
Hypothesis sizeof_T_pos : 1 <= sizeof_T.

Local Abbreviation K := (CacheUtils.elements_per_cache_line sizeof_T size_policy).
Local Abbreviation lines_of b := (CacheUtils.number_of_cache_lines b).

Lemma sound_size (b : CacheUtils.false_sharing_optimized_buffer T) :
  Sound.sound sizeof_T size_policy b ->
  CacheUtils.size sizeof_T size_policy b = lines_of b * K /\ 0 < lines_of b * K.
Proof.
  intros (_ & HM & Hfit & _).
  pose proof (elements_per_cache_line_pos sizeof_T size_policy sizeof_T_pos) as HK.
  unfold CacheUtils.size, CacheUtils.elements_per_line.
  split; [apply wrap_small; nia|nia].
Qed.

Lemma sound_get_index (b : CacheUtils.false_sharing_optimized_buffer T) i :
  Sound.sound sizeof_T size_policy b ->
  CacheUtils.get_index b i
  = Ret (Cells.tile_of (lines_of b) i, Cells.slot_of (lines_of b) K i).
Proof.
  intros (Hlaid & HM & Hfit & Hpow). apply get_index_spec; assumption.
Qed.

Lemma sound_get_defined (b : CacheUtils.false_sharing_optimized_buffer T) i :
  Sound.sound sizeof_T size_policy b -> exists x, CacheUtils.get b i = Ret x.
Proof.
  intros Hsound. pose proof Hsound as (Hlaid & HM & Hfit & Hpow).
  pose proof (elements_per_cache_line_pos sizeof_T size_policy sizeof_T_pos) as HK.
  destruct (get_defined T sizeof_T size_policy b i _ _ Hlaid (sound_get_index b i Hsound))
    as (l & x & _ & _ & Hget).
  - apply tile_of_range. exact HM.
  - apply slot_of_range; assumption.
  - exists x. exact Hget.
Qed.

Lemma sound_assign_defined (b : CacheUtils.false_sharing_optimized_buffer T) i v :
  Sound.sound sizeof_T size_policy b -> exists b', CacheUtils.assign b i v = Ret b'.
Proof.
  intros Hsound. destruct (sound_get_defined b i Hsound) as [x Hx].
  eapply assign_defined_where_get_is. exact Hx.
Qed.

Lemma sound_assign (b b' : CacheUtils.false_sharing_optimized_buffer T) i v :
  Sound.sound sizeof_T size_policy b ->
  CacheUtils.assign b i v = Ret b' ->
  Sound.sound sizeof_T size_policy b' /\ lines_of b' = lines_of b.
Proof.
  intros (Hlaid & HM & Hfit & Hpow) Hassign.
  destruct (assign_laid_out T sizeof_T size_policy b b' i v Hlaid Hassign) as [Hlaid' HM'].
  split; [|exact HM']. unfold Sound.sound. rewrite HM'.
  split; [exact Hlaid'|]. split; [exact HM|]. split; [exact Hfit|exact Hpow].
Qed.

(** Writing at [i] leaves every index that is not congruent to [i]
    modulo the capacity as it was. *)
Lemma sound_assign_other (b b' : CacheUtils.false_sharing_optimized_buffer T) i j v :
  Sound.sound sizeof_T size_policy b ->
  CacheUtils.assign b i v = Ret b' ->
  i mod (lines_of b * K) <> j mod (lines_of b * K) ->
  CacheUtils.get b' j = CacheUtils.get b j.
Proof.
  intros Hsound Hassign Hne.
  destruct (sound_assign b b' i v Hsound Hassign) as [Hsound' HM'].
  pose proof Hsound as (_ & HM & _ & _).
  pose proof (elements_per_cache_line_pos sizeof_T size_policy sizeof_T_pos) as HK.
  pose proof (sound_get_index b i Hsound) as Hi.
  pose proof (sound_get_index b j Hsound) as Hj.
  pose proof (sound_get_index b' j Hsound') as Hj'. rewrite HM' in Hj'.
  unfold CacheUtils.get. rewrite Hj, Hj'. simpl.
  unfold CacheUtils.assign in Hassign. rewrite Hi in Hassign. simpl in Hassign.
  set (M := lines_of b) in *.
  pose proof (tile_of_range M HM i) as Hti. pose proof (tile_of_range M HM j) as Htj.
  pose proof (slot_of_range M K HM HK i) as Hsi.
  pose proof (slot_of_range M K HM HK j) as Hsj.
  destruct (CacheUtils.m_lines b !! Z.to_nat (Cells.tile_of M i)) as [l|] eqn:Hl;
    try discriminate.
  destruct (decide (Z.to_nat (Cells.slot_of M K i) < length l)%nat) as [Hlt|];
    try discriminate.
  injection Hassign as <-. simpl.
  destruct (Z.eq_dec (Cells.tile_of M i) (Cells.tile_of M j)) as [Ht|Ht].
  - rewrite <- Ht. rewrite list_lookup_insert_eq by (eapply lookup_lt_Some; exact Hl).
    rewrite Hl. rewrite list_lookup_insert_ne; [reflexivity|].
    intros Hs. apply Hne. apply (same_cell_iff M K HM HK).
    f_equal; [exact Ht|]. lia.
  - rewrite list_lookup_insert_ne by lia. reflexivity.
Qed.

End SoundBuffers.

(** ** The SPSC queue on a sound buffer is a FIFO *)

Lemma apart_not_congruent a b C :
  0 < a - b < C -> a mod C <> b mod C.
Proof.
  intros Hab Heq.
  assert ((a - b) mod C = 0) as Hz.
  { rewrite Zminus_mod, Heq, Z.sub_diag. apply Z.mod_0_l. lia. }
  rewrite Z.mod_small in Hz by lia. lia.
Qed.

Section SpscFifo.

Import SpscQueue.

Variable T : Type.
Variable T_default : T.
Variable T_moved_from : T -> T.
Variable sizeof_T : Z.
Variable size_policy : CacheUtils.cache_size_policy.
Hypothesis sizeof_T_pos : 1 <= sizeof_T.

Local Abbreviation holds := (Fifo.holds sizeof_T size_policy).

Lemma holds_capacity (q : spsc_queue T) pending :
  holds q pending ->
  m_capacity q
  = CacheUtils.number_of_cache_lines (m_buffer q)
    * CacheUtils.elements_per_cache_line sizeof_T size_policy /\
  0 < m_capacity q < 2 ^ 64.
Proof.
  intros (Hsound & Hcap & _).
  destruct (sound_size T sizeof_T size_policy sizeof_T_pos _ Hsound) as [Hsize Hpos].
  pose proof Hsound as (_ & _ & Hfit & _).
  rewrite Hcap, Hsize. split; [reflexivity|lia].
Qed.

Lemma same_lines_same_size (b b' : CacheUtils.false_sharing_optimized_buffer T) :
  CacheUtils.number_of_cache_lines b' = CacheUtils.number_of_cache_lines b ->
  CacheUtils.size sizeof_T size_policy b' = CacheUtils.size sizeof_T size_policy b.
Proof. intros Heq. unfold CacheUtils.size. rewrite Heq. reflexivity. Qed.

Lemma push_holds (q : spsc_queue T) pending v :
  holds q pending ->
  Z.of_nat (length pending) + 1 < m_capacity q ->
  m_head q + 1 < 2 ^ 64 ->
  exists q',
    push v q = Ret q' /\
    holds q' (pending ++ [v]) /\
    m_capacity q' = m_capacity q /\
    m_head q' = m_head q + 1.
Proof.
  intros Hholds Hroom Hnowrap.
  destruct (holds_capacity q pending Hholds) as [HcapMK Hcaprange].
  destruct Hholds as (Hsound & Hcap & Hfree & Hpriv & Htail & Hhead & Hlen & Helems).
  unfold push, get_free_index. rewrite Hpriv, Hfree.
  assert (wrap (m_head q - m_tail q) = Z.of_nat (length pending)) as Hocc.
  { rewrite Hhead. replace (m_tail q + Z.of_nat (length pending) - m_tail q)
      with (Z.of_nat (length pending)) by lia. apply wrap_small. lia. }
  rewrite Hocc.
  destruct (m_capacity q - 1 <=? Z.of_nat (length pending)) eqn:Hspin; [lia|].
  cbn [mbind outcome_bind m_buffer].
  destruct (sound_assign_defined T sizeof_T size_policy sizeof_T_pos
              (m_buffer q) (m_head q) v Hsound) as [b Hassign].
  rewrite Hassign. cbn [mbind outcome_bind].
  destruct (sound_assign T sizeof_T size_policy (m_buffer q) b _ _ Hsound Hassign)
    as [Hsound' Hlines].
  eexists. split; [reflexivity|].
  unfold update_read_head. cbn [m_buffer m_private_head m_head m_tail m_capacity
                                 m_free_capacity_needed].
  rewrite (wrap_small (m_head q + 1)) by lia.
  split; [|split; reflexivity].
  unfold Fifo.holds. cbn [m_buffer m_private_head m_head m_tail m_capacity
                           m_free_capacity_needed].
  rewrite length_app. simpl.
  split; [exact Hsound'|]. split; [rewrite Hcap; symmetry; apply same_lines_same_size; exact Hlines|].
  split; [first [exact Hfree|reflexivity]|]. split; [reflexivity|]. split; [exact Htail|].
  split; [lia|]. split; [lia|].
  intros j x Hx.
  destruct (Nat.lt_ge_cases j (length pending)) as [Hj|Hj].
  - rewrite lookup_app_l in Hx by exact Hj.
    rewrite (sound_assign_other T sizeof_T size_policy sizeof_T_pos
               (m_buffer q) b (m_head q) (m_tail q + Z.of_nat j) v Hsound Hassign).
    + apply Helems. exact Hx.
    + rewrite <- HcapMK. apply apart_not_congruent. lia.
  - rewrite lookup_app_r in Hx by exact Hj.
    destruct (j - length pending)%nat as [|n] eqn:Hn; [|destruct n; discriminate].
    injection Hx as <-.
    replace (m_tail q + Z.of_nat j) with (m_head q) by lia.
    eapply get_of_defined_assign. exact Hassign.
Qed.

Lemma pop_holds_empty (q : spsc_queue T) out :
  holds q [] -> pop T_moved_from out q = Ret (false, out, q).
Proof.
  intros (_ & _ & _ & _ & _ & Hhead & _). unfold pop. simpl in Hhead.
  destruct (m_head q <=? m_tail q) eqn:Htest; [reflexivity|lia].
Qed.

Lemma pop_holds_cons (q : spsc_queue T) x rest out :
  holds q (x :: rest) ->
  m_head q < 2 ^ 64 ->
  exists q',
    pop T_moved_from out q = Ret (true, x, q') /\
    holds q' rest /\
    m_capacity q' = m_capacity q /\
    m_head q' = m_head q.
Proof.
  intros Hholds Hnowrap.
  destruct (holds_capacity q _ Hholds) as [HcapMK Hcaprange].
  destruct Hholds as (Hsound & Hcap & Hfree & Hpriv & Htail & Hhead & Hlen & Helems).
  simpl in Hhead, Hlen.
  unfold pop.
  destruct (m_head q <=? m_tail q) eqn:Htest; [lia|].
  pose proof (Helems 0%nat x eq_refl) as Hfirst.
  rewrite Z.add_0_r in Hfirst. rewrite Hfirst. cbn [mbind outcome_bind].
  destruct (sound_assign_defined T sizeof_T size_policy sizeof_T_pos
              (m_buffer q) (m_tail q) (T_moved_from x) Hsound) as [b Hassign].
  rewrite Hassign. cbn [mbind outcome_bind].
  destruct (sound_assign T sizeof_T size_policy (m_buffer q) b _ _ Hsound Hassign)
    as [Hsound' Hlines].
  eexists. split; [reflexivity|].
  cbn [m_buffer m_private_head m_head m_tail m_capacity m_free_capacity_needed].
  split; [|split; reflexivity].
  unfold Fifo.holds. cbn [m_buffer m_private_head m_head m_tail m_capacity
                           m_free_capacity_needed].
  rewrite (wrap_small (m_tail q + 1)) by lia.
  split; [exact Hsound'|]. split; [rewrite Hcap; symmetry; apply same_lines_same_size; exact Hlines|].
  split; [exact Hfree|]. split; [exact Hpriv|]. split; [lia|].
  split; [lia|]. split; [lia|].
  intros j y Hy.
  rewrite (sound_assign_other T sizeof_T size_policy sizeof_T_pos
             (m_buffer q) b (m_tail q) (m_tail q + 1 + Z.of_nat j) _ Hsound Hassign).
  - replace (m_tail q + 1 + Z.of_nat j) with (m_tail q + Z.of_nat (S j)) by lia.
    apply Helems. exact Hy.
  - rewrite <- HcapMK. intros Heq. symmetry in Heq. revert Heq.
    apply apart_not_congruent. apply lookup_lt_Some in Hy. lia.
Qed.

Lemma run_holds calls : forall (q : spsc_queue T) pending,
  holds q pending ->
  m_head q + Z.of_nat (length calls) < 2 ^ 64 ->
  Fifo.below_capacity (m_capacity q) (Z.of_nat (length pending)) calls ->
  exists popped q' pending',
    run T T_default T_moved_from calls q = Ret (popped, q') /\
    holds q' pending' /\
    pending ++ Fifo.pushed calls = popped ++ pending'.
Proof.
  induction calls as [|[v|] rest IH]; intros q pending Hholds Hnowrap Hbelow.
  - exists [], q, pending. split; [reflexivity|]. split; [exact Hholds|].
    simpl. apply app_nil_r.
  - destruct Hbelow as [Hroom Hbelow]. simpl in Hnowrap.
    destruct (push_holds q pending v Hholds Hroom ltac:(lia))
      as (q1 & Hpush & Hholds1 & Hcap1 & Hhead1).
    destruct (IH q1 (pending ++ [v]) Hholds1) as (popped & q' & pending' & Hrun & Hh & Heq).
    + rewrite Hhead1. lia.
    + rewrite Hcap1, length_app. simpl.
      replace (Z.of_nat (length pending + 1)) with (Z.of_nat (length pending) + 1) by lia.
      exact Hbelow.
    + exists popped, q', pending'. simpl. rewrite Hpush. cbn [mbind outcome_bind].
      split; [exact Hrun|]. split; [exact Hh|].
      rewrite <- Heq. rewrite <- app_assoc. reflexivity.
  - simpl in Hbelow, Hnowrap. destruct pending as [|x pending].
    + destruct (IH q [] Hholds) as (popped & q' & pending' & Hrun & Hh & Heq);
        [lia|exact Hbelow|].
      exists popped, q', pending'. simpl.
      rewrite (pop_holds_empty q T_default Hholds). cbn [mbind outcome_bind].
      rewrite Hrun. cbn [mbind outcome_bind]. split; [reflexivity|].
      split; [exact Hh|exact Heq].
    + destruct (pop_holds_cons q x pending T_default Hholds ltac:(lia))
        as (q1 & Hpop & Hholds1 & Hcap1 & Hhead1).
      destruct (IH q1 pending Hholds1) as (popped & q' & pending' & Hrun & Hh & Heq).
      * rewrite Hhead1. lia.
      * rewrite Hcap1. simpl length in Hbelow.
        replace (Z.max 0 (Z.of_nat (S (length pending)) - 1))
          with (Z.of_nat (length pending)) in Hbelow by lia.
        exact Hbelow.
      * exists (x :: popped), q', pending'. simpl. rewrite Hpop. cbn [mbind outcome_bind].
        rewrite Hrun. cbn [mbind outcome_bind]. split; [reflexivity|].
        split; [exact Hh|]. rewrite Heq. reflexivity.
Qed.

Lemma new_spsc_queue_holds min_cache_lines min_elements (q : spsc_queue T) :
  new_spsc_queue T T_default sizeof_T size_policy min_cache_lines min_elements = Ret q ->
  Sound.sound sizeof_T size_policy (m_buffer q) ->
  holds q [] /\ m_head q = 0.
Proof.
  unfold new_spsc_queue.
  destruct (CacheUtils.new_buffer T T_default sizeof_T size_policy
              min_cache_lines min_elements) as [b| |]; try discriminate.
  cbn [mbind outcome_bind]. intros Hq. injection Hq as <-. simpl. intros Hsound.
  destruct (sound_size T sizeof_T size_policy sizeof_T_pos b Hsound) as [Hsize Hpos].
  pose proof Hsound as (_ & _ & Hfit & _).
  split; [|reflexivity]. unfold Fifo.holds. simpl.
  split; [exact Hsound|]. split; [reflexivity|].
  split; [apply wrap_small; lia|]. split; [reflexivity|]. split; [lia|].
  split; [reflexivity|]. split; [lia|]. intros j x Hx. discriminate.
Qed.

End SpscFifo.

(** X1: on a sound buffer, and as long as the number of pending elements
    stays below the capacity, every call of a run of pushes and pops
    returns, and the successful pops yield the pushed elements in push
    order, none lost and none twice: the pushed elements are the popped
    ones followed by those still in the queue. *)
Theorem spsc_pops_in_push_order
    (T : Type) (T_default : T) (T_moved_from : T -> T)
    (sizeof_T : Z) (size_policy : CacheUtils.cache_size_policy)
    (min_cache_lines min_elements : Z)
    (q : SpscQueue.spsc_queue T) (calls : list (SpscQueue.call T)) :
  1 <= sizeof_T ->
  SpscQueue.new_spsc_queue T T_default sizeof_T size_policy
    min_cache_lines min_elements = Ret q ->
  Sound.sound sizeof_T size_policy (SpscQueue.m_buffer q) ->
  Z.of_nat (length calls) < 2 ^ 64 ->
  Fifo.below_capacity (SpscQueue.capacity q) 0 calls ->
  exists popped q' pending,
    SpscQueue.run T T_default T_moved_from calls q = Ret (popped, q') /\
    Fifo.pushed calls = popped ++ pending /\
    SpscQueue.size q' = Z.of_nat (length pending).
Proof.
  intros Hsize Hnew Hsound Hlen Hbelow.
  destruct (new_spsc_queue_holds T T_default sizeof_T size_policy Hsize
              min_cache_lines min_elements q Hnew Hsound) as [Hholds Hhead].
  destruct (run_holds T T_default T_moved_from sizeof_T size_policy Hsize
              calls q [] Hholds) as (popped & q' & pending & Hrun & Hholds' & Heq).
  - rewrite Hhead. lia.
  - exact Hbelow.
  - exists popped, q', pending. split; [exact Hrun|]. split; [exact Heq|].
    destruct (holds_capacity T sizeof_T size_policy Hsize q' pending Hholds')
      as [_ Hrange].
    destruct Hholds' as (_ & _ & _ & _ & _ & Hh & Hl & _).
    unfold SpscQueue.size. rewrite Hh.
    replace (SpscQueue.m_tail q' + Z.of_nat (length pending) - SpscQueue.m_tail q')
      with (Z.of_nat (length pending)) by lia.
    apply wrap_small. lia.
Qed.

(** [spsc_pops_in_push_order] on [spsc_queue<int> q(1, 8)]: two pushes,
    three pops (the last on an empty queue) and a push. *)
Lemma spsc_pops_in_push_order_witness :
  exists q q',
    SpscExamples.int_queue 1 8 = Ret q /\
    SpscExamples.run_int
      [SpscQueue.call_push 10; SpscQueue.call_push 20; SpscQueue.call_pop;
       SpscQueue.call_pop; SpscQueue.call_pop; SpscQueue.call_push 30] q
    = Ret ([10; 20], q') /\
    SpscQueue.size q' = 1.
Proof.
  assert (exists q q',
             SpscExamples.int_queue 1 8 = Ret q /\
             SpscQueue.capacity q = 16 /\
             CacheUtils.number_of_cache_lines (SpscQueue.m_buffer q) = 1 /\
             CacheUtils.m_mod_index (SpscQueue.m_buffer q) = CacheUtils.mod_pow2 0 /\
             CacheUtils.m_div_index (SpscQueue.m_buffer q) = CacheUtils.div_pow2 0 /\
             CacheUtils.m_mod_index2 (SpscQueue.m_buffer q) = CacheUtils.mod_pow2 15 /\
             CacheUtils.m_lines (SpscQueue.m_buffer q) = [replicate 16 0] /\
             SpscExamples.run_int
               [SpscQueue.call_push 10; SpscQueue.call_push 20; SpscQueue.call_pop;
                SpscQueue.call_pop; SpscQueue.call_pop; SpscQueue.call_push 30] q
             = Ret ([10; 20], q'))
    as (q & q' & Hq & Hcap & HM & Hmod & Hdiv & Hmod2 & Hlines & Hrun).
  { eexists. eexists. split; [vm_compute; reflexivity|].
    split; [vm_compute; reflexivity|]. split; [vm_compute; reflexivity|].
    split; [vm_compute; reflexivity|]. split; [vm_compute; reflexivity|].
    split; [vm_compute; reflexivity|]. split; [vm_compute; reflexivity|].
    vm_compute. reflexivity. }
  assert (Sound.sound 4 CacheUtils.pow2 (SpscQueue.m_buffer q)) as Hsound.
  { unfold Sound.sound, Layout.laid_out, CacheUtils.size. rewrite HM, Hmod, Hdiv, Hmod2, Hlines.
    split; [|split; [reflexivity|split; [reflexivity|]]].
    - split; [reflexivity|]. split; [reflexivity|]. split; [reflexivity|].
      apply Forall_cons. split; [reflexivity|apply Forall_nil_2].
    - intros _. exists 0. split; [lia|reflexivity]. }
  destruct (spsc_pops_in_push_order Z 0 (fun x => x) 4 CacheUtils.pow2 1 8 q
              [SpscQueue.call_push 10; SpscQueue.call_push 20; SpscQueue.call_pop;
               SpscQueue.call_pop; SpscQueue.call_pop; SpscQueue.call_push 30])
    as (popped & q'' & pending & Hrun' & Hpushed & Hsz).
  - lia.
  - exact Hq.
  - exact Hsound.
  - reflexivity.
  - rewrite Hcap. simpl. lia.
  - unfold SpscExamples.run_int in Hrun. rewrite Hrun in Hrun'.
    injection Hrun' as <- <-. exists q, q'. split; [exact Hq|].
    split; [exact Hrun|]. rewrite Hsz. simpl in Hpushed.
    assert (pending = [30]) as -> by (injection Hpushed as <-; reflexivity).
    reflexivity.
Defined.

(** X2: the SPSC wrap-around scenario: on [spsc_queue<int> q(1, 8)], of
    capacity 16, [push(i)] then [pop] for [i] in [0, 5 * 16) yields [i]
    from every pop. *)
Lemma spsc_wrap_around_round_trip :
  exists q q',
    SpscExamples.int_queue 1 8 = Ret q /\
    SpscQueue.capacity q = 16 /\
    SpscExamples.run_int (Fifo.alternate (map Z.of_nat (seq 0 (5 * 16)))) q
    = Ret (map Z.of_nat (seq 0 (5 * 16)), q').
Proof.
  eexists. eexists. split; [vm_compute; reflexivity|].
  split; [vm_compute; reflexivity|]. vm_compute. reflexivity.
Qed.

(** ** How many lines the constructor allocates *)

Lemma round_up_division E K :
  0 < K -> E <= (E + (K - 1)) / K * K < E + K.
Proof.
  intros HK. pose proof (Z.div_mod (E + (K - 1)) K ltac:(lia)) as Hdm.
  pose proof (Z.mod_pos_bound (E + (K - 1)) K HK) as Hr. lia.
Qed.

Section LineCount.

Variable T : Type.
Variable T_default : T.
Variable sizeof_T : Z.
Hypothesis sizeof_T_pos : 1 <= sizeof_T.

Lemma replicate_lines_count count K :
  0 <= count ->
  Z.of_nat (length (replicate (Z.to_nat count) (replicate (Z.to_nat K) T_default))) = count.
Proof. intros Hc. rewrite length_replicate. lia. Qed.

(** X3: under the [exact] policy the constructor returns a buffer of
    [max(L, ceil(E / K))] lines, where [ceil(E / K)] is computed as
    [(E + K - 1) / K], and [size()] is the number of lines times [K]. *)
Theorem exact_policy_line_count (L E : Z) :
  let K := CacheUtils.elements_per_cache_line sizeof_T CacheUtils.exact in
  0 <= L -> 0 <= E -> E + (K - 1) < 2 ^ 64 ->
  exists b,
    CacheUtils.new_buffer T T_default sizeof_T CacheUtils.exact L E = Ret b /\
    CacheUtils.number_of_cache_lines b = Z.max L ((E + (K - 1)) / K) /\
    E <= (E + (K - 1)) / K * K < E + K /\
    (CacheUtils.number_of_cache_lines b * K < 2 ^ 64 ->
     CacheUtils.size sizeof_T CacheUtils.exact b = CacheUtils.number_of_cache_lines b * K).
Proof.
  intros K HL HE Hfit.
  pose proof (exact_elements_range sizeof_T sizeof_T_pos) as HK. fold K in HK.
  unfold CacheUtils.new_buffer, CacheUtils.calc_min_cache_lines, CacheUtils.new_div_indexer,
    CacheUtils.elements_per_line.
  cbn [mbind outcome_bind]. fold K.
  rewrite (wrap_small (K - 1)) by lia.
  rewrite (wrap_small (E + (K - 1))) by lia.
  assert (0 <= (E + (K - 1)) / K) as Hc by (apply Z.div_pos; lia).
  eexists. split; [reflexivity|].
  unfold CacheUtils.number_of_cache_lines, CacheUtils.size, CacheUtils.number_of_cache_lines,
    CacheUtils.elements_per_line.
  cbn [CacheUtils.m_lines]. fold K.
  rewrite replicate_lines_count by lia.
  split; [reflexivity|]. split; [apply round_up_division; lia|].
  intros Hsmall. apply wrap_small.
  split; [|exact Hsmall]. apply Z.mul_nonneg_nonneg; lia.
Qed.

(** X4: under the [pow2] policy the constructor rounds only the minimum
    number of lines up to a power of two, and then takes the larger of
    that and [ceil(E / K)]: the number of lines is a power of two when
    [ceil(E / K)] does not exceed the rounded minimum. *)
Theorem pow2_policy_line_count (L E : Z) :
  let K := CacheUtils.elements_per_cache_line sizeof_T CacheUtils.pow2 in
  let rounded := 2 ^ Z.log2_up L in
  let needed := (E + (K - 1)) / K in
  0 <= L <= 2 ^ 62 -> 0 <= E -> E + (K - 1) < 2 ^ 64 -> needed < 2 ^ 63 ->
  exists b,
    CacheUtils.new_buffer T T_default sizeof_T CacheUtils.pow2 L E = Ret b /\
    CacheUtils.number_of_cache_lines b = Z.max rounded needed /\
    (needed <= rounded -> is_pow2 (CacheUtils.number_of_cache_lines b)).
Proof.
  intros K rounded needed HL HE Hfit Hneeded.
  pose proof (elements_per_cache_line_pos sizeof_T CacheUtils.pow2 sizeof_T_pos) as HK.
  fold K in HK.
  assert (0 <= Z.log2_up L <= 62) as Hlog.
  { split; [apply Z.log2_up_nonneg|].
    destruct (Z.eq_dec L 0) as [->|Hne]; [rewrite Z.log2_up_nonpos by lia; lia|].
    apply Z.log2_up_le_pow2; lia. }
  assert (0 < rounded <= 2 ^ 62) as Hrounded.
  { unfold rounded. split; [apply Z.pow_pos_nonneg; lia|].
    apply Z.pow_le_mono_r; lia. }
  assert (0 <= needed) as Hn0 by (apply Z.div_pos; lia).
  unfold CacheUtils.new_buffer, CacheUtils.calc_min_cache_lines, CacheUtils.elements_per_line.
  rewrite pow2_upper_spec by lia. cbn [mbind outcome_bind]. fold K rounded.
  rewrite (wrap_small (K - 1)) by lia.
  rewrite (wrap_small (E + (K - 1))) by lia. fold needed.
  rewrite replicate_lines_count by lia.
  unfold CacheUtils.new_div_indexer.
  rewrite log2_lower_spec by lia. cbn [mbind outcome_bind].
  eexists. split; [reflexivity|].
  unfold CacheUtils.number_of_cache_lines. cbn [CacheUtils.m_lines].
  rewrite replicate_lines_count by lia.
  split; [reflexivity|]. intros Hle. rewrite Z.max_l by exact Hle.
  exists (Z.log2_up L). split; [lia|reflexivity].
Qed.

End LineCount.

(** [exact_policy_line_count] for [int], 2 lines and 100 elements asked:
    7 lines of 16. *)
Lemma exact_policy_line_count_witness :
  exists b,
    CacheUtils.new_buffer Z 0 4 CacheUtils.exact 2 100 = Ret b /\
    CacheUtils.number_of_cache_lines b = 7 /\
    CacheUtils.size 4 CacheUtils.exact b = 112.
Proof.
  destruct (exact_policy_line_count Z 0 4 ltac:(lia) 2 100)
    as (b & Hnew & Hlines & _ & Hsize).
  - lia.
  - lia.
  - reflexivity.
  - exists b. split; [exact Hnew|]. split; [exact Hlines|].
    rewrite Hsize; rewrite Hlines; reflexivity.
Defined.

(** [pow2_policy_line_count] for the [SizeAndCapacityPow2] test: 3 lines
    and 7 elements asked give 4 lines. *)
Lemma pow2_policy_line_count_witness :
  exists b,
    CacheUtils.new_buffer Z 0 4 CacheUtils.pow2 3 7 = Ret b /\
    CacheUtils.number_of_cache_lines b = 4 /\
    is_pow2 (CacheUtils.number_of_cache_lines b).
Proof.
  destruct (pow2_policy_line_count Z 0 4 ltac:(lia) 3 7)
    as (b & Hnew & Hlines & Hpow).
  - split; [lia|]. vm_compute. discriminate.
  - lia.
  - reflexivity.
  - reflexivity.
  - exists b. split; [exact Hnew|]. split; [exact Hlines|].
    apply Hpow. vm_compute. discriminate.
Defined.

(** ** Ownership of the subscription handles *)

Lemma owned_insert_present subs (hs : gmap nat MpmcFanout.subscription_handle) p h :
  Fanout.owned subs hs -> is_Some (hs !! p) -> Fanout.owned subs (<[p := h]> hs).
Proof.
  intros [Hnodup Hvalid] Hp. split; [exact Hnodup|].
  intros p' Hp'. destruct (decide (p = p')) as [<-|Hne].
  - rewrite lookup_insert_eq. eauto.
  - rewrite lookup_insert_ne by exact Hne. apply Hvalid. exact Hp'.
Qed.

(** X5: the subscription list of a fan-out queue always holds distinct
    pointers to handles that exist: the constructor establishes this and
    [subscribe], [unsubscribe], [pop], [push] and the daemon's
    [update_min_tail] keep it. *)
Theorem fanout_ownership_is_kept (T : Type) :
  (forall (T_default : T) sizeof_T size_policy (callback : Type) (update : callback)
          d min_cache_lines min_elements q d',
      MpmcFanout.new_mpmc_fanout T T_default sizeof_T size_policy update d
        min_cache_lines min_elements = Ret (q, d') ->
      Fanout.owned (MpmcFanout.m_subscriptions q) (MpmcFanout.handles q)) /\
  (forall q : MpmcFanout.mpmc_fanout T,
      Fanout.owned (MpmcFanout.m_subscriptions q) (MpmcFanout.handles q) ->
      Fanout.owned (MpmcFanout.m_subscriptions (snd (MpmcFanout.subscribe q)))
                   (MpmcFanout.handles (snd (MpmcFanout.subscribe q)))) /\
  (forall (q q' : MpmcFanout.mpmc_fanout T) sub,
      Fanout.owned (MpmcFanout.m_subscriptions q) (MpmcFanout.handles q) ->
      MpmcFanout.unsubscribe sub q = Ret q' ->
      Fanout.owned (MpmcFanout.m_subscriptions q') (MpmcFanout.handles q')) /\
  (forall (q q' : MpmcFanout.mpmc_fanout T) sub out ok x,
      Fanout.owned (MpmcFanout.m_subscriptions q) (MpmcFanout.handles q) ->
      MpmcFanout.pop sub out q = Ret (ok, x, q') ->
      Fanout.owned (MpmcFanout.m_subscriptions q') (MpmcFanout.handles q')) /\
  (forall (q q' : MpmcFanout.mpmc_fanout T) spurious v,
      Fanout.owned (MpmcFanout.m_subscriptions q) (MpmcFanout.handles q) ->
      MpmcFanout.push spurious v q = Ret q' ->
      Fanout.owned (MpmcFanout.m_subscriptions q') (MpmcFanout.handles q')) /\
  (forall (q q' : MpmcFanout.mpmc_fanout T),
      Fanout.owned (MpmcFanout.m_subscriptions q) (MpmcFanout.handles q) ->
      MpmcFanout.update_min_tail q = Ret q' ->
      Fanout.owned (MpmcFanout.m_subscriptions q') (MpmcFanout.handles q')).
Proof.
  split; [|split; [|split; [|split; [|split]]]].
  - intros T_default sizeof_T size_policy callback update d L E q d'.
    unfold MpmcFanout.new_mpmc_fanout.
    destruct (CacheUtils.new_buffer T T_default sizeof_T size_policy L E) as [b| |];
      try discriminate.
    cbn [mbind outcome_bind]. unfold Daemon.add_callback.
    intros Hq. injection Hq as <- _. simpl.
    split; [apply NoDup_nil_2|]. intros p [].
  - intros q [Hnodup Hvalid]. unfold MpmcFanout.subscribe. simpl.
    assert (MpmcFanout.handles q !! fresh (dom (MpmcFanout.handles q)) = None) as Hfresh.
    { apply not_elem_of_dom. apply is_fresh. }
    split.
    + apply NoDup_app. split; [exact Hnodup|]. split; [|apply NoDup_singleton].
      intros p Hp Hq. apply list_elem_of_singleton in Hq. subst p.
      apply list_elem_of_In in Hp. destruct (Hvalid _ Hp) as [h Hh].
      rewrite Hfresh in Hh. discriminate.
    + intros p Hp. apply in_app_or in Hp.
      destruct (decide (fresh (dom (MpmcFanout.handles q)) = p)) as [<-|Hne].
      * rewrite lookup_insert_eq. eauto.
      * rewrite lookup_insert_ne by exact Hne. destruct Hp as [Hp|[Hp|[]]].
        -- apply Hvalid. exact Hp.
        -- contradiction.
  - intros q q' sub Howned. unfold MpmcFanout.unsubscribe.
    destruct (MpmcFanout.handles q !! sub) as [h|] eqn:Hh; try discriminate.
    intros Hq. injection Hq as <-. simpl.
    apply owned_insert_present; [exact Howned|]. rewrite Hh. eauto.
  - intros q q' sub out ok x Howned. unfold MpmcFanout.pop.
    destruct (MpmcFanout.handles q !! sub) as [h|] eqn:Hh; try discriminate.
    destruct (_ <=? _).
    + intros Hq. injection Hq as _ _ <-. exact Howned.
    + destruct (CacheUtils.get _ _) as [y| |]; try discriminate.
      cbn [mbind outcome_bind]. intros Hq. injection Hq as _ _ <-. simpl.
      apply owned_insert_present; [exact Howned|]. rewrite Hh. eauto.
  - intros q q' spurious v Howned. unfold MpmcFanout.push, MpmcFanout.get_free_index.
    destruct (WriteConfirm.get_write_index _) as [index w].
    destruct (_ <=? _); try discriminate. cbn [mbind outcome_bind].
    destruct (CacheUtils.assign _ _ _) as [b| |]; try discriminate.
    cbn [mbind outcome_bind]. unfold MpmcFanout.update_read_head.
    destruct (WriteConfirm.confirm_write _ _ _) as [w'| |]; try discriminate.
    cbn [mbind outcome_bind]. intros Hq. injection Hq as <-. exact Howned.
  - intros q q' Howned. unfold MpmcFanout.update_min_tail.
    destruct (update_min_tail_walk_spec
                (MpmcFanout.m_subscriptions q) (MpmcFanout.handles q)
                (WriteConfirm.get_read_index (MpmcFanout.m_write_confirmer q)) Howned)
      as (m & kept & hs' & Hwalk & Hkept & _ & Hkeep & _).
    rewrite Hwalk. cbn [mbind outcome_bind]. intros Hq. injection Hq as <-. simpl.
    destruct Howned as [Hnodup Hvalid]. rewrite Hkept. split.
    + apply NoDup_ListNoDup. apply List.NoDup_filter.
      apply NoDup_ListNoDup. exact Hnodup.
    + intros p Hp. apply filter_In in Hp. destruct Hp as [Hp Hlive].
      rewrite Hkeep by (right; exact Hlive). apply Hvalid. exact Hp.
Qed.

(** ** Further facts *)

(** X6: [add_callback(func)] returns the next key, registers [func] under
    it, leaves the other entries alone and moves the key generator on by
    one. *)
Theorem add_callback_registers_under_next_key
    (callback : Type) (func : callback) (d : Daemon.daemon callback) :
  let key := fst (Daemon.add_callback callback func d) in
  let d' := snd (Daemon.add_callback callback func d) in
  key = Daemon.m_next_callback callback d /\
  Daemon.m_callbacks callback d' !! key = Some func /\
  (forall other, other <> key ->
      Daemon.m_callbacks callback d' !! other = Daemon.m_callbacks callback d !! other) /\
  Daemon.m_next_callback callback d' = wrap (key + 1) /\
  Daemon.remove_callback callback key d'
  = {| Daemon.m_callbacks := delete key (Daemon.m_callbacks callback d);
       Daemon.m_next_callback := wrap (key + 1) |}.
Proof.
  unfold Daemon.add_callback. simpl.
  split; [reflexivity|]. split; [apply lookup_insert_eq|].
  split; [intros other Hne; apply lookup_insert_ne; congruence|].
  split; [reflexivity|].
  unfold Daemon.remove_callback. simpl. rewrite lookup_insert_eq.
  rewrite delete_insert_eq. reflexivity.
Qed.



(** ** The rounding loops over the whole range of [size_t] *)

Lemma wrap_pow2_word : wrap (2 ^ 64) = 0.
Proof. reflexivity. Qed.

Lemma log2_lower_loop_stuck fuel value out :
  0 <= value -> CacheUtils.log2_factory.lower_loop fuel value 0 out = Spins.
Proof.
  intros Hv. revert out. induction fuel as [|fuel IH]; intros out; [reflexivity|].
  simpl. destruct (0 <=? value) eqn:Htest; [apply IH|].
  apply Z.leb_gt in Htest. lia.
Qed.

Lemma log2_upper_loop_stuck fuel value out :
  0 < value -> CacheUtils.log2_factory.upper_loop fuel value 0 out = Spins.
Proof.
  intros Hv. revert out. induction fuel as [|fuel IH]; intros out; [reflexivity|].
  simpl. destruct (0 <? value) eqn:Htest; [apply IH|].
  apply Z.ltb_ge in Htest. lia.
Qed.

(** From [2^63] on, the counter of [lower] is doubled to 0 before it
    exceeds the value, and the loop never ends. *)
Lemma pow2_lower_loop_overflows fuel value j :
  2 ^ 63 <= value -> 0 <= j <= 64 ->
  CacheUtils.pow2_factory.lower_loop fuel value (wrap (2 ^ j)) = Spins.
Proof.
  intros Hv. revert j. induction fuel as [|fuel IH]; intros j Hj; [reflexivity|].
  destruct (Z.eq_dec j 64) as [->|Hne].
  - rewrite wrap_pow2_word. apply pow2_lower_loop_stuck. lia.
  - rewrite (wrap_small (2 ^ j)) by (apply pow2_below_word; lia).
    simpl. assert (2 ^ j <= 2 ^ 63) as Hle by (apply Z.pow_le_mono_r; lia).
    destruct (2 ^ j <=? value) eqn:Htest; [|apply Z.leb_gt in Htest; lia].
    rewrite pow2_double by lia. apply IH. lia.
Qed.

Lemma pow2_upper_loop_overflows fuel value j :
  2 ^ 63 < value -> 0 <= j <= 64 ->
  CacheUtils.pow2_factory.upper_loop fuel value (wrap (2 ^ j)) = Spins.
Proof.
  intros Hv. revert j. induction fuel as [|fuel IH]; intros j Hj; [reflexivity|].
  destruct (Z.eq_dec j 64) as [->|Hne].
  - rewrite wrap_pow2_word. apply pow2_upper_loop_stuck. lia.
  - rewrite (wrap_small (2 ^ j)) by (apply pow2_below_word; lia).
    simpl. assert (2 ^ j <= 2 ^ 63) as Hle by (apply Z.pow_le_mono_r; lia).
    destruct (2 ^ j <? value) eqn:Htest; [|apply Z.ltb_ge in Htest; lia].
    rewrite pow2_double by lia. apply IH. lia.
Qed.

Lemma log2_lower_loop_overflows fuel value j out :
  2 ^ 63 <= value -> 0 <= j <= 64 ->
  CacheUtils.log2_factory.lower_loop fuel value (wrap (2 ^ j)) out = Spins.
Proof.
  intros Hv. revert j out. induction fuel as [|fuel IH]; intros j out Hj; [reflexivity|].
  destruct (Z.eq_dec j 64) as [->|Hne].
  - rewrite wrap_pow2_word. apply log2_lower_loop_stuck. lia.
  - rewrite (wrap_small (2 ^ j)) by (apply pow2_below_word; lia).
    simpl. assert (2 ^ j <= 2 ^ 63) as Hle by (apply Z.pow_le_mono_r; lia).
    destruct (2 ^ j <=? value) eqn:Htest; [|apply Z.leb_gt in Htest; lia].
    rewrite pow2_double by lia. apply IH. lia.
Qed.

Lemma log2_upper_loop_overflows fuel value j out :
  2 ^ 63 < value -> 0 <= j <= 64 ->
  CacheUtils.log2_factory.upper_loop fuel value (wrap (2 ^ j)) out = Spins.
Proof.
  intros Hv. revert j out. induction fuel as [|fuel IH]; intros j out Hj; [reflexivity|].
  destruct (Z.eq_dec j 64) as [->|Hne].
  - rewrite wrap_pow2_word. apply log2_upper_loop_stuck. lia.
  - rewrite (wrap_small (2 ^ j)) by (apply pow2_below_word; lia).
    simpl. assert (2 ^ j <= 2 ^ 63) as Hle by (apply Z.pow_le_mono_r; lia).
    destruct (2 ^ j <? value) eqn:Htest; [|apply Z.ltb_ge in Htest; lia].
    rewrite pow2_double by lia. apply IH. lia.
Qed.

Lemma log2_up_word value : value <= 2 ^ 63 -> 0 <= Z.log2_up value <= 63.
Proof.
  intros Hsmall. split; [apply Z.log2_up_nonneg|].
  destruct (Z.le_gt_cases value 0) as [Hle|Hpos].
  - rewrite Z.log2_up_nonpos by assumption. lia.
  - apply Z.log2_up_le_pow2; assumption.
Qed.

Lemma log2_upper_loop_spec value fuel j :
  value <= 2 ^ 63 ->
  0 <= j <= Z.log2_up value ->
  (Z.to_nat (Z.log2_up value - j) < fuel)%nat ->
  CacheUtils.log2_factory.upper_loop fuel value (2 ^ j) j = Ret (Z.log2_up value).
Proof.
  intros Hsmall. revert j. induction fuel as [|fuel IH]; intros j Hj Hfuel; [lia|].
  pose proof (log2_up_word value Hsmall) as Hup.
  simpl. destruct (2 ^ j <? value) eqn:Htest.
  - apply Z.ltb_lt in Htest.
    assert (0 < value) as Hpos by (pose proof (Z.pow_pos_nonneg 2 j); lia).
    apply Z.log2_up_lt_pow2 in Htest; [|assumption].
    rewrite pow2_double by lia.
    rewrite (wrap_small (2 ^ (j + 1))) by (apply pow2_below_word; lia).
    rewrite (wrap_small (j + 1)) by lia.
    apply IH; lia.
  - apply Z.ltb_ge in Htest. f_equal.
    destruct (Z.le_gt_cases value 0) as [Hle|Hpos].
    + rewrite Z.log2_up_nonpos in * by assumption. lia.
    + apply Z.log2_up_le_pow2 in Htest; [lia|assumption].
Qed.

Lemma log2_upper_spec value :
  value <= 2 ^ 63 -> CacheUtils.log2_factory.upper value = Ret (Z.log2_up value).
Proof.
  intros Hsmall. pose proof (log2_up_word value Hsmall).
  apply (log2_upper_loop_spec value loop_fuel 0); unfold loop_fuel; lia.
Qed.

(** What [Z.log2_up] is, in the terms the statements below use. *)
Lemma log2_up_least value :
  0 <= value ->
  value <= 2 ^ Z.log2_up value /\
  (1 < value -> 2 ^ (Z.log2_up value - 1) < value) /\
  (value <= 1 -> Z.log2_up value = 0).
Proof.
  intros Hv. destruct (Z.le_gt_cases value 1) as [Hle|Hgt].
  - assert (Z.log2_up value = 0) as Hz.
    { destruct (Z.eq_dec value 1) as [->|Hne]; [reflexivity|].
      apply Z.log2_up_nonpos. lia. }
    rewrite Hz. split; [simpl; lia|]. split; [lia|reflexivity].
  - pose proof (Z.log2_up_spec value ltac:(lia)) as Hs.
    rewrite <- Z.sub_1_r in Hs. split; [lia|]. split; [lia|lia].
Qed.

(** X8: [pow2_factory::lower] returns the greatest power of two not above
    its argument for arguments in [1, 2^63), returns 0 for 0, and never
    returns from [2^63] on; [pow2_factory::upper] returns the least power
    of two not below its argument up to [2^63] (1 for 0 and 1), and never
    returns above [2^63]. *)
Theorem pow2_factory_rounds_within_the_word (value : Z) :
  0 <= value < 2 ^ 64 ->
  (value = 0 -> CacheUtils.pow2_factory.lower value = Ret 0) /\
  (1 <= value < 2 ^ 63 ->
   exists k, 0 <= k < 63 /\
             CacheUtils.pow2_factory.lower value = Ret (2 ^ k) /\
             2 ^ k <= value < 2 ^ (k + 1)) /\
  (2 ^ 63 <= value -> CacheUtils.pow2_factory.lower value = Spins) /\
  (value <= 2 ^ 63 ->
   exists k, 0 <= k <= 63 /\
             CacheUtils.pow2_factory.upper value = Ret (2 ^ k) /\
             value <= 2 ^ k /\
             (1 < value -> 2 ^ (k - 1) < value) /\
             (value <= 1 -> k = 0)) /\
  (2 ^ 63 < value -> CacheUtils.pow2_factory.upper value = Spins).
Proof.
  intros Hrange. split; [|split; [|split; [|split]]].
  - intros ->. reflexivity.
  - intros Hv. exists (Z.log2 value).
    pose proof (Z.log2_spec value ltac:(lia)) as Hs. rewrite <- Z.add_1_r in Hs.
    split; [split; [apply Z.log2_nonneg|apply Z.log2_lt_pow2; lia]|].
    split; [apply pow2_lower_spec; lia|exact Hs].
  - intros Hv. unfold CacheUtils.pow2_factory.lower.
    change 1 with (wrap (2 ^ 0)). apply pow2_lower_loop_overflows; lia.
  - intros Hv. exists (Z.log2_up value).
    split; [apply log2_up_word; exact Hv|].
    split; [apply pow2_upper_spec; exact Hv|].
    apply log2_up_least. lia.
  - intros Hv. unfold CacheUtils.pow2_factory.upper.
    change 1 with (wrap (2 ^ 0)). apply pow2_upper_loop_overflows; lia.
Qed.

(** [pow2_factory_rounds_within_the_word] at 40, between 32 and 64. *)
Lemma pow2_factory_rounds_witness :
  (exists k, CacheUtils.pow2_factory.lower 40 = Ret (2 ^ k) /\ 2 ^ k <= 40 < 2 ^ (k + 1)) /\
  (exists k, CacheUtils.pow2_factory.upper 40 = Ret (2 ^ k) /\ 2 ^ (k - 1) < 40 <= 2 ^ k).
Proof.
  destruct (pow2_factory_rounds_within_the_word 40) as (_ & Hlow & _ & Hup & _).
  - lia.
  - destruct Hlow as (k & _ & Hk & Hbounds); [lia|].
    destruct Hup as (k' & _ & Hk' & Hle & Hgt & _); [lia|].
    split.
    + exists k. split; [exact Hk|exact Hbounds].
    + exists k'. split; [exact Hk'|]. split; [apply Hgt; lia|exact Hle].
Defined.

(** X9: [log2_factory::lower] returns the floor of the binary logarithm
    for arguments in [1, 2^63) and [log2_factory::upper] its ceiling for
    arguments up to [2^63]; they are the exponents of the powers
    [pow2_factory] returns.  At 0, [lower] returns [2^64 - 1] (the
    counter is decremented from 0); from [2^63] on [lower], and above
    [2^63] [upper], never return. *)
Theorem log2_factory_counts_the_doublings (value : Z) :
  0 <= value < 2 ^ 64 ->
  (value = 0 -> CacheUtils.log2_factory.lower value = Ret (2 ^ 64 - 1)) /\
  (1 <= value < 2 ^ 63 ->
   exists k, 0 <= k < 63 /\
             CacheUtils.log2_factory.lower value = Ret k /\
             2 ^ k <= value < 2 ^ (k + 1) /\
             CacheUtils.pow2_factory.lower value = Ret (2 ^ k)) /\
  (2 ^ 63 <= value -> CacheUtils.log2_factory.lower value = Spins) /\
  (value <= 2 ^ 63 ->
   exists k, 0 <= k <= 63 /\
             CacheUtils.log2_factory.upper value = Ret k /\
             value <= 2 ^ k /\
             (1 < value -> 2 ^ (k - 1) < value) /\
             CacheUtils.pow2_factory.upper value = Ret (2 ^ k)) /\
  (2 ^ 63 < value -> CacheUtils.log2_factory.upper value = Spins).
Proof.
  intros Hrange. split; [|split; [|split; [|split]]].
  - intros ->. reflexivity.
  - intros Hv. exists (Z.log2 value).
    pose proof (Z.log2_spec value ltac:(lia)) as Hs. rewrite <- Z.add_1_r in Hs.
    split; [split; [apply Z.log2_nonneg|apply Z.log2_lt_pow2; lia]|].
    split; [apply log2_lower_spec; lia|].
    split; [exact Hs|apply pow2_lower_spec; lia].
  - intros Hv. unfold CacheUtils.log2_factory.lower.
    change 1 with (wrap (2 ^ 0)). apply log2_lower_loop_overflows; lia.
  - intros Hv. exists (Z.log2_up value).
    split; [apply log2_up_word; exact Hv|].
    split; [apply log2_upper_spec; exact Hv|].
    destruct (log2_up_least value ltac:(lia)) as (Hle & Hmin & _).
    split; [exact Hle|]. split; [exact Hmin|apply pow2_upper_spec; exact Hv].
  - intros Hv. unfold CacheUtils.log2_factory.upper.
    change 1 with (wrap (2 ^ 0)). apply log2_upper_loop_overflows; lia.
Qed.

(** [log2_factory_counts_the_doublings] at 40, between [2^5] and [2^6]. *)
Lemma log2_factory_counts_witness :
  (exists k, CacheUtils.log2_factory.lower 40 = Ret k /\ 2 ^ k <= 40 < 2 ^ (k + 1)) /\
  (exists k, CacheUtils.log2_factory.upper 40 = Ret k /\ 2 ^ (k - 1) < 40 <= 2 ^ k).
Proof.
  destruct (log2_factory_counts_the_doublings 40) as (_ & Hlow & _ & Hup & _).
  - lia.
  - destruct Hlow as (k & _ & Hk & Hbounds & _); [lia|].
    destruct Hup as (k' & _ & Hk' & Hle & Hgt & _); [lia|].
    split.
    + exists k. split; [exact Hk|exact Hbounds].
    + exists k'. split; [exact Hk'|]. split; [apply Hgt; lia|exact Hle].
Defined.

(** ** Elements per cache line, for every element size *)

(** X10: a cache line holds between 1 and 64 elements; under [exact] as
    many as fit in 64 bytes (one when the element is larger than a line),
    under [pow2] the greatest power of two not above that. *)
Theorem elements_per_line_fill_the_line (sizeof_T : Z) :
  let Ke := CacheUtils.elements_per_cache_line sizeof_T CacheUtils.exact in
  let Kp := CacheUtils.elements_per_cache_line sizeof_T CacheUtils.pow2 in
  1 <= sizeof_T ->
  1 <= Kp /\ Kp <= Ke /\ Ke <= 64 /\
  (sizeof_T <= 64 -> Ke * sizeof_T <= 64 < (Ke + 1) * sizeof_T) /\
  (64 < sizeof_T -> Ke = 1 /\ Kp = 1) /\
  is_pow2 Kp /\ Ke < 2 * Kp.
Proof.
  intros Ke Kp Hs.
  pose proof (exact_elements_range sizeof_T Hs) as Hr. fold Ke in Hr.
  pose proof (pow2_elements_spec sizeof_T Hs) as Hp. fold Ke Kp in Hp.
  pose proof (Z.log2_spec Ke ltac:(lia)) as Hlog.
  rewrite <- Z.add_1_r, Z.pow_add_r, <- Hp in Hlog by (try apply Z.log2_nonneg; lia).
  split; [lia|]. split; [lia|]. split; [lia|].
  split; [|split; [|split; [|lia]]].
  - intros Hle. unfold Ke, CacheUtils.elements_per_cache_line, CacheUtils.cache_line_size.
    destruct (sizeof_T >? 64) eqn:Hbig; [lia|].
    pose proof (Z.div_mod 64 sizeof_T ltac:(lia)) as Hdm.
    pose proof (Z.mod_pos_bound 64 sizeof_T ltac:(lia)) as Hm. nia.
  - intros Hbig.
    assert (Ke = 1) as HKe.
    { unfold Ke, CacheUtils.elements_per_cache_line, CacheUtils.cache_line_size.
      destruct (sizeof_T >? 64) eqn:Hgt; [reflexivity|lia]. }
    split; [exact HKe|]. rewrite Hp, HKe. reflexivity.
  - apply pow2_elements_is_pow2. exact Hs.
Qed.

(** [elements_per_line_fill_the_line] for a 12-byte element: 5 fit, and
    the [pow2] policy keeps 4. *)
Lemma elements_per_line_witness :
  CacheUtils.elements_per_cache_line 12 CacheUtils.exact * 12 <= 64
  < (CacheUtils.elements_per_cache_line 12 CacheUtils.exact + 1) * 12 /\
  CacheUtils.elements_per_cache_line 12 CacheUtils.exact
  < 2 * CacheUtils.elements_per_cache_line 12 CacheUtils.pow2.
Proof.
  destruct (elements_per_line_fill_the_line 12) as (_ & _ & _ & Hfit & _ & _ & Hlt).
  - lia.
  - split; [apply Hfit; lia|exact Hlt].
Defined.

(** ** The mask and shift indexers against the dividing ones *)

Lemma land_pred_pow2 sz :
  0 < sz -> Z.land sz (sz - 1) = 0 -> sz = 2 ^ Z.log2 sz.
Proof.
  intros Hsz Hland. pose proof (Z.log2_spec sz Hsz) as Hs.
  pose proof (Z.log2_nonneg sz) as Hnn.
  destruct (Z.eq_dec sz (2 ^ Z.log2 sz)) as [Heq|Hne]; [exact Heq|].
  assert (Z.log2 (sz - 1) = Z.log2 sz) as Hlog.
  { apply Z.log2_unique; lia. }
  assert (Z.testbit (Z.land sz (sz - 1)) (Z.log2 sz) = true) as Hbit.
  { rewrite Z.land_spec. rewrite (Z.bit_log2 sz Hsz).
    rewrite <- Hlog. rewrite Z.bit_log2 by lia. reflexivity. }
  rewrite Hland, Z.bits_0 in Hbit. discriminate.
Qed.

(** X11: the indexers of the [exact] policy compute [index % sz] and
    [index / sz] for every [sz > 0]; those of the [pow2] policy, a mask
    with [sz - 1] and a shift by [floor(log2 sz)], agree with them on
    every index exactly when [sz] is a power of two. *)
Theorem pow2_indexers_need_a_power_of_two (sz : Z) :
  0 < sz < 2 ^ 63 ->
  exists d,
    CacheUtils.new_div_indexer CacheUtils.pow2 sz = Ret d /\
    ((forall i, CacheUtils.mod_index (CacheUtils.new_mod_indexer CacheUtils.pow2 sz) i
                = CacheUtils.mod_index (CacheUtils.new_mod_indexer CacheUtils.exact sz) i)
     <-> is_pow2 sz) /\
    ((forall i, CacheUtils.div_index d i
                = CacheUtils.div_index (CacheUtils.div_exact sz) i)
     <-> is_pow2 sz) /\
    (forall i, CacheUtils.mod_index (CacheUtils.new_mod_indexer CacheUtils.exact sz) i
               = Ret (i mod sz)) /\
    (forall i, CacheUtils.div_index (CacheUtils.div_exact sz) i = Ret (i / sz)).
Proof.
  intros Hsz. pose proof (Z.log2_nonneg sz) as Hnn.
  assert (Z.log2 sz < 63) as Hlog by (apply Z.log2_lt_pow2; lia).
  pose proof (Z.log2_spec sz ltac:(lia)) as Hspec.
  assert (forall i, CacheUtils.mod_index (CacheUtils.new_mod_indexer CacheUtils.exact sz) i
                    = Ret (i mod sz)) as Hmod.
  { intros i. apply mod_index_spec; [lia|discriminate]. }
  assert (forall i, CacheUtils.div_index (CacheUtils.div_exact sz) i = Ret (i / sz)) as Hdiv.
  { intros i. apply (div_index_spec CacheUtils.exact sz); [lia|discriminate|reflexivity]. }
  exists (CacheUtils.div_pow2 (Z.log2 sz)).
  assert (CacheUtils.new_div_indexer CacheUtils.pow2 sz
          = Ret (CacheUtils.div_pow2 (Z.log2 sz))) as Hnew.
  { unfold CacheUtils.new_div_indexer. rewrite log2_lower_spec by lia. reflexivity. }
  split; [exact Hnew|]. split; [|split; [|split; [exact Hmod|exact Hdiv]]].
  - split.
    + intros Hagree. specialize (Hagree sz). rewrite Hmod in Hagree.
      simpl in Hagree. rewrite wrap_small in Hagree by lia.
      rewrite Z.mod_same in Hagree by lia. injection Hagree as Hland.
      exists (Z.log2 sz). split; [exact Hnn|]. apply land_pred_pow2; [lia|exact Hland].
    + intros Hpow i. rewrite Hmod. apply mod_index_spec; [lia|intros _; exact Hpow].
  - split.
    + intros Hagree. specialize (Hagree (2 ^ Z.log2 sz)). rewrite Hdiv in Hagree.
      simpl in Hagree. destruct (64 <=? Z.log2 sz) eqn:Hw; [discriminate|].
      injection Hagree as Hshift.
      rewrite Z.shiftr_div_pow2, Z.div_same in Hshift by lia.
      exists (Z.log2 sz). split; [exact Hnn|].
      destruct (Z.eq_dec sz (2 ^ Z.log2 sz)) as [Heq|Hne]; [exact Heq|].
      rewrite Z.div_small in Hshift by lia. discriminate.
    + intros Hpow i. rewrite Hdiv.
      apply (div_index_spec CacheUtils.pow2 sz); [lia|intros _; exact Hpow|exact Hnew].
Qed.

(** [pow2_indexers_need_a_power_of_two] at 3, a line count the [pow2]
    constructor can allocate: the indexers disagree. *)
Lemma pow2_indexers_witness :
  ~ (forall i, CacheUtils.mod_index (CacheUtils.new_mod_indexer CacheUtils.pow2 3) i
               = CacheUtils.mod_index (CacheUtils.new_mod_indexer CacheUtils.exact 3) i).
Proof.
  destruct (pow2_indexers_need_a_power_of_two 3) as (d & _ & Hmod & _).
  - lia.
  - intros Hagree. apply three_is_not_pow2. apply Hmod. exact Hagree.
Defined.

(** ** The buffer as an array indexed modulo its size *)

Section BufferArray.

Variable T : Type.
Variable T_default : T.
Variable sizeof_T : Z.
Variable size_policy : CacheUtils.cache_size_policy.
Hypothesis sizeof_T_pos : 1 <= sizeof_T.

Local Abbreviation K := (CacheUtils.elements_per_cache_line sizeof_T size_policy).

Lemma sound_get_congruent (b : CacheUtils.false_sharing_optimized_buffer T) i j :
  Sound.sound sizeof_T size_policy b ->
  i mod (CacheUtils.number_of_cache_lines b * K) = j mod (CacheUtils.number_of_cache_lines b * K) ->
  CacheUtils.get b j = CacheUtils.get b i.
Proof.
  intros Hsound Hcong.
  pose proof Hsound as (_ & HM & _ & _).
  pose proof (elements_per_cache_line_pos sizeof_T size_policy sizeof_T_pos) as HK.
  unfold CacheUtils.get.
  rewrite !(sound_get_index T sizeof_T size_policy sizeof_T_pos) by exact Hsound.
  apply (same_cell_iff _ _ HM HK) in Hcong. rewrite Hcong. reflexivity.
Qed.

(** X12: on a sound buffer [b[i] = v] is defined and keeps the buffer
    sound and its size; afterwards [b[j]] is [v] for every [j] congruent
    to [i] modulo [size()], and what it was before for every other [j]. *)
Theorem buffer_reads_last_write
    (b : CacheUtils.false_sharing_optimized_buffer T) (i : Z) (v : T) :
  Sound.sound sizeof_T size_policy b ->
  exists b',
    CacheUtils.assign b i v = Ret b' /\
    Sound.sound sizeof_T size_policy b' /\
    CacheUtils.size sizeof_T size_policy b' = CacheUtils.size sizeof_T size_policy b /\
    forall j,
      CacheUtils.get b' j =
      if decide (i mod CacheUtils.size sizeof_T size_policy b
                 = j mod CacheUtils.size sizeof_T size_policy b)
      then Ret v
      else CacheUtils.get b j.
Proof.
  intros Hsound.
  destruct (sound_assign_defined T sizeof_T size_policy sizeof_T_pos b i v Hsound)
    as [b' Hassign].
  destruct (sound_assign T sizeof_T size_policy b b' i v Hsound Hassign) as [Hsound' Hlines].
  destruct (sound_size T sizeof_T size_policy sizeof_T_pos b Hsound) as [Hsize _].
  destruct (sound_size T sizeof_T size_policy sizeof_T_pos b' Hsound') as [Hsize' _].
  exists b'. split; [exact Hassign|]. split; [exact Hsound'|].
  split; [rewrite Hsize, Hsize', Hlines; reflexivity|].
  intros j. rewrite Hsize.
  destruct (decide (i mod (CacheUtils.number_of_cache_lines b * K)
                    = j mod (CacheUtils.number_of_cache_lines b * K))) as [Hcong|Hapart].
  - rewrite (sound_get_congruent b' i j Hsound') by (rewrite Hlines; exact Hcong).
    eapply get_of_defined_assign. exact Hassign.
  - eapply sound_assign_other; eassumption.
Qed.

(** ** What the constructor builds *)

Lemma new_buffer_storage L E (b : CacheUtils.false_sharing_optimized_buffer T) :
  CacheUtils.new_buffer T T_default sizeof_T size_policy L E = Ret b ->
  exists lines,
    CacheUtils.calc_min_cache_lines size_policy L = Ret lines /\
    CacheUtils.m_lines b
    = replicate (Z.to_nat (Z.max lines (wrap (E + wrap (K - 1)) / K)))
                (replicate (Z.to_nat K) T_default).
Proof.
  unfold CacheUtils.new_buffer, CacheUtils.elements_per_line.
  destruct (CacheUtils.calc_min_cache_lines size_policy L) as [lines| |];
    cbn [mbind outcome_bind]; try discriminate.
  destruct (CacheUtils.new_div_indexer _ _) as [dv| |];
    cbn [mbind outcome_bind]; try discriminate.
  intros Hb. injection Hb as <-. exists lines. split; reflexivity.
Qed.

Lemma new_buffer_returns L E lines :
  CacheUtils.calc_min_cache_lines size_policy L = Ret lines ->
  0 < Z.max lines (wrap (E + wrap (K - 1)) / K) < 2 ^ 63 ->
  exists b, CacheUtils.new_buffer T T_default sizeof_T size_policy L E = Ret b.
Proof.
  intros Hcalc Hcount.
  unfold CacheUtils.new_buffer, CacheUtils.elements_per_line.
  rewrite Hcalc. cbn [mbind outcome_bind].
  rewrite replicate_lines_count by lia.
  destruct size_policy; cbn [CacheUtils.new_div_indexer mbind outcome_bind].
  - eexists. reflexivity.
  - rewrite log2_lower_spec by lia. cbn [mbind outcome_bind]. eexists. reflexivity.
Qed.

Lemma new_buffer_sound (L E : Z) :
  0 <= L <= 2 ^ 57 -> 0 <= E <= 2 ^ 57 ->
  (size_policy = CacheUtils.exact -> 1 <= L \/ 1 <= E) ->
  (size_policy = CacheUtils.pow2 -> E <= 2 ^ Z.log2_up L * K) ->
  exists b,
    CacheUtils.new_buffer T T_default sizeof_T size_policy L E = Ret b /\
    Sound.sound sizeof_T size_policy b /\
    L <= CacheUtils.number_of_cache_lines b /\
    E <= CacheUtils.size sizeof_T size_policy b /\
    (forall i, CacheUtils.get b i = Ret T_default).
Proof.
  intros HL HE Hexact Hpow2.
  pose proof (elements_per_cache_line_pos sizeof_T size_policy sizeof_T_pos) as HK.
  assert (K <= 64) as HK64.
  { destruct (CacheUtils.elements_per_cache_line sizeof_T size_policy) eqn:HKe; try lia.
    rewrite <- HKe. clear HKe. destruct size_policy.
    - apply exact_elements_range. exact sizeof_T_pos.
    - pose proof (exact_elements_range sizeof_T sizeof_T_pos) as Hr.
      pose proof (pow2_elements_spec sizeof_T sizeof_T_pos) as Hp.
      pose proof (Z.log2_spec (CacheUtils.elements_per_cache_line sizeof_T CacheUtils.exact)
                    ltac:(lia)) as Hlog.
      lia. }
  set (needed := (E + (K - 1)) / K).
  assert (wrap (E + wrap (K - 1)) / K = needed) as Hneeded.
  { rewrite (wrap_small (K - 1)) by lia. rewrite wrap_small; [reflexivity|].
    assert (2 ^ 57 + 64 < 2 ^ 64) by reflexivity. lia. }
  pose proof (round_up_division E K HK) as Hround. fold needed in Hround.
  assert (0 <= needed <= E) as Hn.
  { split; [apply Z.div_pos; lia|]. nia. }
  assert (exists lines,
             CacheUtils.calc_min_cache_lines size_policy L = Ret lines /\
             L <= lines /\
             0 < Z.max lines needed <= 2 ^ 57 /\
             (size_policy = CacheUtils.pow2 -> is_pow2 (Z.max lines needed)))
    as (lines & Hcalc & HLl & Hcount & Hshape).
  { destruct size_policy; cbn [CacheUtils.calc_min_cache_lines].
    - exists L. split; [reflexivity|]. split; [lia|]. split; [|discriminate].
      destruct (Hexact eq_refl) as [H1|H1]; nia.
    - assert (2 ^ 57 <= 2 ^ 63) by (apply Z.pow_le_mono_r; lia).
      exists (2 ^ Z.log2_up L). split; [apply pow2_upper_spec; lia|].
      destruct (log2_up_least L ltac:(lia)) as (Hle & _ & _).
      assert (0 <= Z.log2_up L <= 57) as Hlog.
      { split; [apply Z.log2_up_nonneg|].
        destruct (Z.eq_dec L 0) as [->|Hne]; [rewrite Z.log2_up_nonpos by lia; lia|].
        apply Z.log2_up_le_pow2; lia. }
      assert (0 < 2 ^ Z.log2_up L <= 2 ^ 57) as Hr.
      { split; [apply Z.pow_pos_nonneg; lia|apply Z.pow_le_mono_r; lia]. }
      assert (needed <= 2 ^ Z.log2_up L) as Hfit.
      { specialize (Hpow2 eq_refl). nia. }
      split; [exact Hle|]. rewrite Z.max_l by exact Hfit.
      split; [exact Hr|]. intros _. exists (Z.log2_up L). split; [lia|reflexivity]. }
  assert (2 ^ 57 * 64 < 2 ^ 64) as Hword by reflexivity.
  assert (2 ^ 57 < 2 ^ 63) as Hword' by reflexivity.
  destruct (new_buffer_returns L E lines Hcalc) as [b Hb].
  { rewrite Hneeded. lia. }
  destruct (new_buffer_storage L E b Hb) as (lines' & Hcalc' & Hstorage).
  rewrite Hcalc in Hcalc'. injection Hcalc' as <-. rewrite Hneeded in Hstorage.
  assert (CacheUtils.number_of_cache_lines b = Z.max lines needed) as Hlines.
  { unfold CacheUtils.number_of_cache_lines. rewrite Hstorage.
    apply replicate_lines_count. lia. }
  assert (Sound.sound sizeof_T size_policy b) as Hsound.
  { split; [eapply new_buffer_laid_out; exact Hb|]. rewrite Hlines.
    split; [lia|]. split; [nia|exact Hshape]. }
  destruct (sound_size T sizeof_T size_policy sizeof_T_pos b Hsound) as [Hsize _].
  exists b. split; [exact Hb|]. split; [exact Hsound|].
  split; [lia|]. split; [rewrite Hsize, Hlines; nia|].
  intros i. unfold CacheUtils.get.
  rewrite (sound_get_index T sizeof_T size_policy sizeof_T_pos) by exact Hsound.
  cbn [mbind outcome_bind]. rewrite Hlines, Hstorage.
  pose proof (tile_of_range (Z.max lines needed) ltac:(lia) i) as Htile.
  pose proof (slot_of_range (Z.max lines needed) K ltac:(lia) HK i) as Hslot.
  rewrite lookup_replicate_2 by lia. rewrite lookup_replicate_2 by lia. reflexivity.
Qed.

(** X13: for arguments up to [2^57], the constructor returns a sound
    buffer with at least the lines and at least the elements asked for,
    every element value-initialised: under [exact] when a line or an
    element is asked for, under [pow2] when the elements asked for fit in
    the rounded line count. *)
Theorem constructed_buffer_is_sound (L E : Z) :
  0 <= L <= 2 ^ 57 -> 0 <= E <= 2 ^ 57 ->
  (size_policy = CacheUtils.exact -> 1 <= L \/ 1 <= E) ->
  (size_policy = CacheUtils.pow2 -> E <= 2 ^ Z.log2_up L * K) ->
  exists b,
    CacheUtils.new_buffer T T_default sizeof_T size_policy L E = Ret b /\
    Sound.sound sizeof_T size_policy b /\
    L <= CacheUtils.number_of_cache_lines b /\
    E <= CacheUtils.size sizeof_T size_policy b /\
    (forall i, CacheUtils.get b i = Ret T_default).
Proof. exact (new_buffer_sound L E). Qed.

Lemma round_up_of_nothing k : 0 < k <= 64 -> wrap (0 + wrap (k - 1)) / k = 0.
Proof.
  intros Hk. rewrite (wrap_small (k - 1)) by lia.
  rewrite wrap_small by lia. apply Z.div_small. lia.
Qed.

Lemma exact_buffer_of_nothing :
  CacheUtils.new_buffer T T_default sizeof_T CacheUtils.exact 0 0
  = Ret {| CacheUtils.m_lines := [];
           CacheUtils.m_mod_index := CacheUtils.mod_exact 0;
           CacheUtils.m_div_index := CacheUtils.div_exact 0;
           CacheUtils.m_mod_index2 := CacheUtils.mod_exact 0 |}.
Proof.
  pose proof (exact_elements_range sizeof_T sizeof_T_pos) as HKe.
  unfold CacheUtils.new_buffer, CacheUtils.elements_per_line.
  cbn [CacheUtils.calc_min_cache_lines mbind outcome_bind].
  rewrite round_up_of_nothing by lia. reflexivity.
Qed.

Lemma pow2_buffer_of_nothing :
  exists b,
    CacheUtils.new_buffer T T_default sizeof_T CacheUtils.pow2 0 0 = Ret b /\
    CacheUtils.number_of_cache_lines b = 1.
Proof.
  pose proof (elements_per_cache_line_pos sizeof_T CacheUtils.pow2 sizeof_T_pos) as HKp.
  assert (CacheUtils.elements_per_cache_line sizeof_T CacheUtils.pow2 <= 64) as HKp64.
  { pose proof (exact_elements_range sizeof_T sizeof_T_pos) as HKe.
    pose proof (pow2_elements_spec sizeof_T sizeof_T_pos) as Hp.
    pose proof (Z.log2_spec (CacheUtils.elements_per_cache_line sizeof_T CacheUtils.exact)
                  ltac:(lia)) as Hlog.
    lia. }
  unfold CacheUtils.new_buffer, CacheUtils.elements_per_line.
  revert HKp HKp64.
  generalize (CacheUtils.elements_per_cache_line sizeof_T CacheUtils.pow2).
  intros Kp HKp HKp64.
  cbn [CacheUtils.calc_min_cache_lines].
  assert (CacheUtils.pow2_factory.upper 0 = Ret 1) as -> by (vm_compute; reflexivity).
  cbn [mbind outcome_bind]. rewrite round_up_of_nothing by lia.
  assert (Z.max 1 0 = 1) as -> by reflexivity.
  rewrite replicate_lines_count by lia.
  assert (CacheUtils.new_div_indexer CacheUtils.pow2 1 = Ret (CacheUtils.div_pow2 0))
    as -> by (vm_compute; reflexivity).
  cbn [mbind outcome_bind]. eexists. split; [reflexivity|].
  unfold CacheUtils.number_of_cache_lines. cbn [CacheUtils.m_lines].
  apply replicate_lines_count. lia.
Qed.

(** X14: under the [exact] policy a buffer asked for with no line and no
    element has no line: [size()] is 0 and every subscript is undefined
    (a remainder by 0); a queue on it has capacity 0, [push] is
    undefined and [pop] finds it empty.  Under [pow2] the same arguments
    give one line. *)
Theorem exact_buffer_without_lines (T_moved_from : T -> T) :
  exists b q b1,
    CacheUtils.new_buffer T T_default sizeof_T CacheUtils.exact 0 0 = Ret b /\
    CacheUtils.number_of_cache_lines b = 0 /\
    CacheUtils.size sizeof_T CacheUtils.exact b = 0 /\
    (forall i, CacheUtils.get b i = Undefined) /\
    (forall i v, CacheUtils.assign b i v = Undefined) /\
    SpscQueue.new_spsc_queue T T_default sizeof_T CacheUtils.exact 0 0 = Ret q /\
    SpscQueue.capacity q = 0 /\
    (forall v, SpscQueue.push v q = Undefined) /\
    (forall out, SpscQueue.pop T_moved_from out q = Ret (false, out, q)) /\
    CacheUtils.new_buffer T T_default sizeof_T CacheUtils.pow2 0 0 = Ret b1 /\
    CacheUtils.number_of_cache_lines b1 = 1.
Proof.
  pose proof exact_buffer_of_nothing as Hb.
  destruct pow2_buffer_of_nothing as (b1 & Hb1 & Hlines1).
  eexists. eexists. exists b1.
  split; [exact Hb|]. split; [reflexivity|]. split; [reflexivity|].
  split; [intros i; reflexivity|]. split; [intros i v; reflexivity|].
  split; [unfold SpscQueue.new_spsc_queue; rewrite Hb; cbn [mbind outcome_bind]; reflexivity|].
  split; [vm_compute; reflexivity|]. split; [intros v; vm_compute; reflexivity|].
  split; [intros out; vm_compute; reflexivity|].
  split; [exact Hb1|exact Hlines1].
Qed.

End BufferArray.

(** [exact_buffer_without_lines] for [spsc_queue<int, exact> q(0)]. *)
Lemma exact_buffer_without_lines_witness :
  exists q,
    SpscQueue.new_spsc_queue Z 0 4 CacheUtils.exact 0 0 = Ret q /\
    SpscQueue.capacity q = 0 /\
    SpscQueue.push 5 q = Undefined.
Proof.
  destruct (exact_buffer_without_lines Z 0 4 ltac:(lia) (fun x => x))
    as (b & q & b1 & _ & _ & _ & _ & _ & Hq & Hcap & Hpush & _).
  exists q. split; [exact Hq|]. split; [exact Hcap|apply Hpush].
Defined.

(** [buffer_reads_last_write] on the [int] buffer of 2 lines of 16:
    writing index 3 is read back at index 35. *)
Lemma buffer_reads_last_write_witness :
  exists b',
    CacheUtils.assign Examples.int_exact_2_buffer 3 7 = Ret b' /\
    CacheUtils.get b' 35 = Ret 7 /\
    CacheUtils.get b' 4 = Ret 0.
Proof.
  assert (Sound.sound 4 CacheUtils.exact Examples.int_exact_2_buffer) as Hsound.
  { split; [|split; [reflexivity|split; [reflexivity|discriminate]]].
    split; [reflexivity|]. split; [reflexivity|]. split; [reflexivity|].
    apply Forall_cons. split; [reflexivity|].
    apply Forall_cons. split; [reflexivity|apply Forall_nil_2]. }
  destruct (buffer_reads_last_write Z 4 CacheUtils.exact ltac:(lia)
              Examples.int_exact_2_buffer 3 7 Hsound) as (b' & Hassign & _ & _ & Hget).
  exists b'. split; [exact Hassign|]. split.
  - rewrite Hget. reflexivity.
  - rewrite Hget. reflexivity.
Defined.

(** [constructed_buffer_is_sound] for [false_sharing_optimized_buffer<int>
    (3, 7)] under [pow2]: 7 elements fit in the 4 lines of 16. *)
Lemma constructed_buffer_witness :
  exists b,
    CacheUtils.new_buffer Z 0 4 CacheUtils.pow2 3 7 = Ret b /\
    Sound.sound 4 CacheUtils.pow2 b /\
    CacheUtils.get b 100 = Ret 0.
Proof.
  destruct (constructed_buffer_is_sound Z 0 4 CacheUtils.pow2 ltac:(lia) 3 7)
    as (b & Hb & Hsound & _ & _ & Hget).
  - split; [lia|]. vm_compute. discriminate.
  - split; [lia|]. vm_compute. discriminate.
  - discriminate.
  - intros _. vm_compute. discriminate.
  - exists b. split; [exact Hb|]. split; [exact Hsound|apply Hget].
Defined.

(** ** Reserving and committing slots *)

Lemma reserve_many_spec n : forall w,
  0 <= WriteConfirm.m_write_head w ->
  WriteConfirm.m_write_head w + Z.of_nat n < 2 ^ 64 ->
  Protocol.reserve_many n w
  = (map (fun k => WriteConfirm.m_write_head w + Z.of_nat k) (seq 0 n),
     {| WriteConfirm.m_write_head := WriteConfirm.m_write_head w + Z.of_nat n;
        WriteConfirm.m_read_head := WriteConfirm.m_read_head w |}).
Proof.
  induction n as [|n IH]; intros w Hnn Hfit.
  - simpl. rewrite Z.add_0_r. destruct w; reflexivity.
  - cbn [Protocol.reserve_many WriteConfirm.get_write_index].
    rewrite IH; cbn [WriteConfirm.m_write_head WriteConfirm.m_read_head];
      rewrite ?wrap_small by lia; try lia.
    cbn [seq map]. rewrite <- seq_shift, map_map.
    f_equal; [f_equal; [f_equal; lia|apply map_ext; intros k; lia]|f_equal; lia].
Qed.

Lemma confirm_all_in_order spurious n : forall w,
  0 <= WriteConfirm.m_read_head w ->
  WriteConfirm.m_read_head w + Z.of_nat n < 2 ^ 64 ->
  Protocol.confirm_all spurious
    (map (fun k => WriteConfirm.m_read_head w + Z.of_nat k) (seq 0 n)) w
  = Ret {| WriteConfirm.m_write_head := WriteConfirm.m_write_head w;
           WriteConfirm.m_read_head := WriteConfirm.m_read_head w + Z.of_nat n |}.
Proof.
  induction n as [|n IH]; intros w Hnn Hfit.
  - simpl. rewrite Z.add_0_r. destruct w; reflexivity.
  - cbn [seq map Protocol.confirm_all]. rewrite Z.add_0_r.
    rewrite confirm_write_at_head by (try split; try reflexivity; lia).
    cbn [mbind outcome_bind]. rewrite <- seq_shift, map_map.
    rewrite (map_ext _ (fun k => WriteConfirm.m_read_head
                                   {| WriteConfirm.m_write_head := WriteConfirm.m_write_head w;
                                      WriteConfirm.m_read_head := WriteConfirm.m_read_head w + 1 |}
                                 + Z.of_nat k))
      by (intros k; cbn [WriteConfirm.m_read_head]; lia).
    rewrite IH by (cbn [WriteConfirm.m_read_head]; lia).
    cbn [WriteConfirm.m_read_head WriteConfirm.m_write_head]. f_equal. f_equal. lia.
Qed.

(** X15: on a barrier whose reserved slots are all committed, [n] calls
    of [get_write_index] return the next [n] indices, each once, and
    leave the read head alone; committing them in that order brings the
    read head up to the write head, while a commit of any of them but the
    oldest, made first, makes no progress on its own.  (The counters are
    taken not to wrap.) *)
Theorem reserved_slots_commit_in_order
    (n : nat) (w : WriteConfirm.write_confirm) (spurious : list bool) :
  let h := WriteConfirm.m_write_head w in
  let indices := fst (Protocol.reserve_many n w) in
  let w1 := snd (Protocol.reserve_many n w) in
  0 <= h -> h + Z.of_nat n < 2 ^ 64 ->
  WriteConfirm.m_read_head w = h ->
  indices = map (fun k => h + Z.of_nat k) (seq 0 n) /\
  NoDup indices /\
  WriteConfirm.m_write_head w1 = h + Z.of_nat n /\
  WriteConfirm.m_read_head w1 = h /\
  (exists w2,
      Protocol.confirm_all spurious indices w1 = Ret w2 /\
      WriteConfirm.m_read_head w2 = h + Z.of_nat n /\
      WriteConfirm.m_write_head w2 = h + Z.of_nat n) /\
  (forall i, In i indices -> i <> h ->
             WriteConfirm.confirm_write spurious w1 i = Spins).
Proof.
  intros h indices w1 Hnn Hfit Hread. subst indices w1.
  rewrite reserve_many_spec by assumption. fold h. cbn [fst snd].
  split; [reflexivity|]. split; [|split; [reflexivity|split; [exact Hread|split]]].
  - apply NoDup_fmap_2; [intros a b Hab; lia|]. apply NoDup_ListNoDup, seq_NoDup.
  - exists {| WriteConfirm.m_write_head := h + Z.of_nat n;
              WriteConfirm.m_read_head := h + Z.of_nat n |}.
    split; [|split; reflexivity]. rewrite Hread.
    pose proof (confirm_all_in_order spurious n
                  {| WriteConfirm.m_write_head := h + Z.of_nat n;
                     WriteConfirm.m_read_head := h |}) as Hcommit.
    cbn [WriteConfirm.m_read_head WriteConfirm.m_write_head] in Hcommit.
    apply Hcommit; lia.
  - intros i Hin Hne. apply in_map_iff in Hin. destruct Hin as (k & <- & Hk).
    apply in_seq in Hk. apply confirm_write_before_head.
    + split; lia.
    + cbn [WriteConfirm.m_read_head]. lia.
Qed.

(** [reserved_slots_commit_in_order] for three producers on a fresh
    barrier: they get 0, 1 and 2, and the three commits publish 3. *)
Lemma reserved_slots_witness :
  fst (Protocol.reserve_many 3 WriteConfirm.new_write_confirm) = [0; 1; 2] /\
  exists w2,
    Protocol.confirm_all []
      (fst (Protocol.reserve_many 3 WriteConfirm.new_write_confirm))
      (snd (Protocol.reserve_many 3 WriteConfirm.new_write_confirm)) = Ret w2 /\
    WriteConfirm.m_read_head w2 = 3.
Proof.
  destruct (reserved_slots_commit_in_order 3 WriteConfirm.new_write_confirm [])
    as (Hindices & _ & _ & _ & (w2 & Hcommit & Hread & _) & _).
  - simpl. lia.
  - reflexivity.
  - reflexivity.
  - split; [exact Hindices|]. exists w2. split; [exact Hcommit|exact Hread].
Defined.

Lemma follows_protocol_bounds l : forall w,
  0 <= WriteConfirm.m_read_head w <= WriteConfirm.m_write_head w ->
  WriteConfirm.m_write_head w + Z.of_nat (length l) < 2 ^ 64 ->
  Protocol.follows_protocol l w ->
  0 <= WriteConfirm.m_read_head (WriteConfirm.accesses l w)
    <= WriteConfirm.m_write_head (WriteConfirm.accesses l w) /\
  WriteConfirm.m_write_head w <= WriteConfirm.m_write_head (WriteConfirm.accesses l w)
    <= WriteConfirm.m_write_head w + Z.of_nat (length l).
Proof.
  induction l as [|a l IH]; intros w Hle Hfit Hprot.
  - simpl. lia.
  - destruct Hprot as [Ha Hrest]. cbn [length] in Hfit. rewrite Nat2Z.inj_succ in Hfit.
    change (WriteConfirm.accesses (a :: l) w)
      with (WriteConfirm.accesses l (WriteConfirm.access a w)).
    assert (0 <= WriteConfirm.m_read_head (WriteConfirm.access a w)
              <= WriteConfirm.m_write_head (WriteConfirm.access a w) /\
            WriteConfirm.m_write_head w <= WriteConfirm.m_write_head (WriteConfirm.access a w)
              <= WriteConfirm.m_write_head w + 1) as [Hle' Hstep].
    { destruct a as [| |i s]; cbn [WriteConfirm.access WriteConfirm.get_write_index snd
                                    WriteConfirm.m_read_head WriteConfirm.m_write_head].
      - rewrite wrap_small by lia. lia.
      - lia.
      - unfold WriteConfirm.compare_exchange_weak.
        destruct ((WriteConfirm.m_read_head w =? i) && negb s) eqn:Hok;
          cbn [snd WriteConfirm.m_read_head WriteConfirm.m_write_head]; [|lia].
        rewrite wrap_small by lia. lia. }
    assert (WriteConfirm.m_write_head (WriteConfirm.access a w) + Z.of_nat (length l) < 2 ^ 64)
      as Hfit' by lia.
    destruct (IH (WriteConfirm.access a w) Hle' Hfit' Hrest) as [Hfinal Hgrow].
    split; [exact Hfinal|]. cbn [length]. rewrite Nat2Z.inj_succ. lia.
Qed.

(** X16: as long as every exchange is for an index that
    [get_write_index] handed out before, the read head never passes the
    write head, whatever the interleaving of the atomic accesses: the
    consumer is never shown a slot that no producer reserved.  (The write
    head is taken not to wrap.) *)
Theorem read_head_stays_behind_write_head
    (l : list WriteConfirm.atomic_access) (w : WriteConfirm.write_confirm) :
  0 <= WriteConfirm.m_read_head w <= WriteConfirm.m_write_head w ->
  WriteConfirm.m_write_head w + Z.of_nat (length l) < 2 ^ 64 ->
  Protocol.follows_protocol l w ->
  0 <= WriteConfirm.get_read_index (WriteConfirm.accesses l w)
    <= WriteConfirm.m_write_head (WriteConfirm.accesses l w).
Proof.
  intros Hle Hfit Hprot. unfold WriteConfirm.get_read_index.
  apply follows_protocol_bounds; assumption.
Qed.

(** [read_head_stays_behind_write_head] for two producers that reserve 0
    and 1 and commit 1 (in vain), 0 and then 1 again. *)
Lemma read_head_stays_behind_witness :
  0 <= WriteConfirm.get_read_index
         (WriteConfirm.accesses
            [WriteConfirm.fetch_add_write_head; WriteConfirm.fetch_add_write_head;
             WriteConfirm.exchange_read_head 1 false;
             WriteConfirm.exchange_read_head 0 false;
             WriteConfirm.exchange_read_head 1 false]
            WriteConfirm.new_write_confirm)
    <= 2.
Proof.
  apply (read_head_stays_behind_write_head
           [WriteConfirm.fetch_add_write_head; WriteConfirm.fetch_add_write_head;
            WriteConfirm.exchange_read_head 1 false;
            WriteConfirm.exchange_read_head 0 false;
            WriteConfirm.exchange_read_head 1 false]
           WriteConfirm.new_write_confirm).
  - simpl. lia.
  - reflexivity.
  - simpl. repeat split; try reflexivity; discriminate.
Defined.

(** ** The daemon's keys *)

Section RegistryFacts.

Variable callback : Type.

Lemma add_callback_keeps_keys_below_next func (d : Daemon.daemon callback) :
  Registry.keys_below_next d ->
  Daemon.m_next_callback callback d + 1 < 2 ^ 64 ->
  Registry.keys_below_next (snd (Daemon.add_callback callback func d)) /\
  Daemon.m_next_callback callback (snd (Daemon.add_callback callback func d))
  = Daemon.m_next_callback callback d + 1.
Proof.
  intros [Hnn Hbelow] Hfit. unfold Daemon.add_callback.
  cbn [snd]. unfold Registry.keys_below_next.
  cbn [Daemon.m_next_callback Daemon.m_callbacks].
  rewrite wrap_small by lia. split; [|reflexivity]. split; [lia|].
  intros key Hkey.
  destruct (decide (Daemon.m_next_callback callback d = key)) as [<-|Hne]; [lia|].
  rewrite lookup_insert_ne in Hkey by exact Hne. specialize (Hbelow key Hkey). lia.
Qed.

Lemma remove_callback_keeps_keys_below_next key (d : Daemon.daemon callback) :
  Registry.keys_below_next d ->
  Registry.keys_below_next (Daemon.remove_callback callback key d) /\
  Daemon.m_next_callback callback (Daemon.remove_callback callback key d)
  = Daemon.m_next_callback callback d.
Proof.
  intros [Hnn Hbelow]. unfold Daemon.remove_callback.
  destruct (Daemon.m_callbacks callback d !! key) as [f|] eqn:Hf.
  - split; [|reflexivity]. split; [exact Hnn|].
    cbn [Daemon.m_next_callback Daemon.m_callbacks]. intros other Hother.
    apply Hbelow. destruct Hother as [g Hg].
    apply lookup_delete_Some in Hg. destruct Hg as [_ Hg]. eauto.
  - split; [split; assumption|reflexivity].
Qed.

Lemma run_keeps_keys_below_next calls : forall d : Daemon.daemon callback,
  Registry.keys_below_next d ->
  Daemon.m_next_callback callback d + Z.of_nat (length calls) < 2 ^ 64 ->
  Registry.keys_below_next (Registry.run calls d) /\
  Daemon.m_next_callback callback (Registry.run calls d)
  <= Daemon.m_next_callback callback d + Z.of_nat (length calls).
Proof.
  induction calls as [|c calls IH]; intros d Hkeys Hfit.
  - simpl. split; [exact Hkeys|lia].
  - cbn [length] in *. rewrite Nat2Z.inj_succ in *.
    change (Registry.run (c :: calls) d) with (Registry.run calls (Registry.perform c d)).
    assert (Registry.keys_below_next (Registry.perform c d) /\
            Daemon.m_next_callback callback (Registry.perform c d)
            <= Daemon.m_next_callback callback d + 1) as [Hkeys' Hnext].
    { destruct c as [func|key]; cbn [Registry.perform].
      - destruct (add_callback_keeps_keys_below_next func d Hkeys ltac:(lia)) as [H1 H2].
        split; [exact H1|lia].
      - destruct (remove_callback_keeps_keys_below_next key d Hkeys) as [H1 H2].
        split; [exact H1|lia]. }
    destruct (IH (Registry.perform c d) Hkeys' ltac:(lia)) as [Hfinal Hbound].
    split; [exact Hfinal|lia].
Qed.

Lemma new_daemon_keys_below_next : Registry.keys_below_next (Daemon.new_daemon callback).
Proof.
  split; [reflexivity|]. intros key [f Hf]. cbn in Hf.
  rewrite lookup_empty in Hf. discriminate.
Qed.

(** X17: after any run of [add_callback] and [remove_callback] calls on a
    new daemon (fewer than [2^64 - 1] of them), the key [add_callback]
    returns is in use by no registered callback and above every key in
    use; so the call keeps every registered callback and adds exactly
    one. *)
Theorem callback_keys_are_unique
    (calls : list (Registry.registry_call callback)) (func : callback) :
  let d := Registry.run calls (Daemon.new_daemon callback) in
  let key := fst (Daemon.add_callback callback func d) in
  let d' := snd (Daemon.add_callback callback func d) in
  Z.of_nat (length calls) + 1 < 2 ^ 64 ->
  Daemon.m_callbacks callback d !! key = None /\
  (forall other, is_Some (Daemon.m_callbacks callback d !! other) -> other < key) /\
  (forall other f, Daemon.m_callbacks callback d !! other = Some f ->
                   Daemon.m_callbacks callback d' !! other = Some f) /\
  Daemon.m_callbacks callback d' !! key = Some func /\
  size (Daemon.m_callbacks callback d') = S (size (Daemon.m_callbacks callback d)).
Proof.
  intros d key d' Hlen.
  destruct (run_keeps_keys_below_next calls (Daemon.new_daemon callback)
              new_daemon_keys_below_next) as [[Hnn Hbelow] _].
  { cbn [Daemon.m_next_callback Daemon.new_daemon]. lia. }
  fold d in Hnn, Hbelow.
  assert (Daemon.m_callbacks callback d !! key = None) as Hfresh.
  { destruct (Daemon.m_callbacks callback d !! key) as [f|] eqn:Hf; [|reflexivity].
    specialize (Hbelow key ltac:(eauto)). unfold key, Daemon.add_callback in Hbelow.
    cbn [fst] in Hbelow. lia. }
  split; [exact Hfresh|]. split; [|split; [|split]].
  - intros other Hother. specialize (Hbelow other Hother).
    unfold key, Daemon.add_callback. cbn [fst]. lia.
  - intros other f Hf. unfold d', Daemon.add_callback.
    cbn [snd Daemon.m_callbacks]. rewrite lookup_insert_ne; [exact Hf|].
    intros Heq. unfold key, Daemon.add_callback in Hfresh. cbn [fst] in Hfresh.
    rewrite Heq in Hfresh. congruence.
  - unfold d', key, Daemon.add_callback. cbn [fst snd Daemon.m_callbacks].
    apply lookup_insert_eq.
  - unfold d', Daemon.add_callback. cbn [snd Daemon.m_callbacks].
    apply map_size_insert_None. exact Hfresh.
Qed.

End RegistryFacts.

(** [callback_keys_are_unique] after two registrations and the removal of
    the first: the third callback gets key 2, and the second one is still
    registered under key 1. *)
Lemma callback_keys_witness :
  let d := Registry.run [Registry.call_add 7%nat; Registry.call_add 8%nat;
                         Registry.call_remove 0] (Daemon.new_daemon nat) in
  fst (Daemon.add_callback nat 9%nat d) = 2 /\
  Daemon.m_callbacks nat d !! 2 = None /\
  Daemon.m_callbacks nat (snd (Daemon.add_callback nat 9%nat d)) !! 1 = Some 8%nat.
Proof.
  destruct (callback_keys_are_unique nat
              [Registry.call_add 7%nat; Registry.call_add 8%nat; Registry.call_remove 0]
              9%nat) as (Hfresh & _ & Hkept & _ & _).
  - simpl. lia.
  - split; [reflexivity|]. split; [exact Hfresh|]. apply Hkept. reflexivity.
Defined.

(** ** The fan-out queue and the process-wide daemon *)

Section LifetimeFacts.

Variable T : Type.
Variable T_default : T.
Variable sizeof_T : Z.
Variable size_policy : CacheUtils.cache_size_policy.
Variable callback : Type.

Lemma construct_spec update (g g' : option (Daemon.daemon callback)) L E
    (q : MpmcFanout.mpmc_fanout T) :
  Lifetime.construct T T_default sizeof_T size_policy callback update g L E = Ret (q, g') ->
  let d := fst (Daemon.find_or_create_daemon callback g) in
  Registry.registered g = Daemon.m_callbacks callback d /\
  MpmcFanout.m_callback_key q = Daemon.m_next_callback callback d /\
  g' = Some {| Daemon.m_callbacks :=
                 <[Daemon.m_next_callback callback d := update]>
                   (Daemon.m_callbacks callback d);
               Daemon.m_next_callback := wrap (Daemon.m_next_callback callback d + 1) |}.
Proof.
  unfold Lifetime.construct, MpmcFanout.new_mpmc_fanout.
  destruct (Daemon.find_or_create_daemon callback g) as [d g0] eqn:Hfind.
  destruct (CacheUtils.new_buffer T T_default sizeof_T size_policy L E) as [b| |];
    cbn [mbind outcome_bind]; try discriminate.
  unfold Daemon.add_callback. cbn [mbind outcome_bind].
  intros Hq. injection Hq as <- <-. cbn [fst MpmcFanout.m_callback_key].
  split; [|split; reflexivity].
  destruct g as [d0|]; cbn in Hfind; injection Hfind as <- _; reflexivity.
Qed.

(** X18: two fan-out queues constructed one after the other register
    with the same process-wide daemon under different keys, neither in
    use before; destroying the first leaves the callback of the second
    registered, and once both are destroyed the registry holds what it
    held before.  (The key generator is taken not to wrap.) *)
Theorem fanout_queues_share_the_daemon
    (update1 update2 : callback) (g g1 g2 : option (Daemon.daemon callback))
    (L1 E1 L2 E2 : Z) (q1 q2 : MpmcFanout.mpmc_fanout T) :
  let d := fst (Daemon.find_or_create_daemon callback g) in
  let key1 := MpmcFanout.m_callback_key q1 in
  let key2 := MpmcFanout.m_callback_key q2 in
  Registry.keys_below_next d ->
  Daemon.m_next_callback callback d + 1 < 2 ^ 64 ->
  Lifetime.construct T T_default sizeof_T size_policy callback update1 g L1 E1
  = Ret (q1, g1) ->
  Lifetime.construct T T_default sizeof_T size_policy callback update2 g1 L2 E2
  = Ret (q2, g2) ->
  key1 <> key2 /\
  Registry.registered g !! key1 = None /\
  Registry.registered g !! key2 = None /\
  Registry.registered g2
  = <[key2 := update2]> (<[key1 := update1]> (Registry.registered g)) /\
  Registry.registered (Lifetime.destroy q1 g2)
  = <[key2 := update2]> (Registry.registered g) /\
  Registry.registered (Lifetime.destroy q2 (Lifetime.destroy q1 g2))
  = Registry.registered g.
Proof.
  intros d key1 key2 [Hnn Hbelow] Hfit Hq1 Hq2.
  destruct (construct_spec update1 g g1 L1 E1 q1 Hq1) as (Hreg & Hkey1 & Hg1).
  fold d in Hreg, Hkey1, Hg1. fold key1 in Hkey1.
  destruct (construct_spec update2 g1 g2 L2 E2 q2 Hq2) as (_ & Hkey2 & Hg2).
  rewrite Hg1 in Hkey2, Hg2.
  cbn [Daemon.find_or_create_daemon fst Daemon.m_next_callback Daemon.m_callbacks]
    in Hkey2, Hg2.
  rewrite (wrap_small (Daemon.m_next_callback callback d + 1)) in Hkey2, Hg2 by lia.
  fold key2 in Hkey2. rewrite <- Hkey1 in Hkey2, Hg2. rewrite <- Hkey2 in Hg2.
  rewrite <- Hreg in Hg2.
  assert (forall key, Daemon.m_next_callback callback d <= key ->
                      Registry.registered g !! key = None) as Hunused.
  { intros key Hkey. rewrite Hreg.
    destruct (Daemon.m_callbacks callback d !! key) as [f|] eqn:Hf; [|reflexivity].
    specialize (Hbelow key ltac:(eauto)). lia. }
  assert (key1 <> key2) as Hne by lia.
  assert (Registry.registered g !! key1 = None) as Hfresh1 by (apply Hunused; lia).
  assert (Registry.registered g !! key2 = None) as Hfresh2 by (apply Hunused; lia).
  split; [exact Hne|]. split; [exact Hfresh1|]. split; [exact Hfresh2|].
  rewrite Hg2. cbn [Registry.registered Daemon.m_callbacks].
  split; [reflexivity|].
  assert (Lifetime.destroy q1
            (Some {| Daemon.m_callbacks :=
                       <[key2 := update2]> (<[key1 := update1]> (Registry.registered g));
                     Daemon.m_next_callback := wrap (key2 + 1) |})
          = Some {| Daemon.m_callbacks := <[key2 := update2]> (Registry.registered g);
                    Daemon.m_next_callback := wrap (key2 + 1) |}) as Hdestroy1.
  { unfold Lifetime.destroy, MpmcFanout.delete_mpmc_fanout, Daemon.remove_callback.
    cbn [Daemon.find_or_create_daemon Daemon.m_callbacks Daemon.m_next_callback].
    fold key1. rewrite lookup_insert_ne by congruence. rewrite lookup_insert_eq.
    rewrite delete_insert_ne by congruence.
    rewrite delete_insert_id by exact Hfresh1. reflexivity. }
  rewrite Hdestroy1. split; [reflexivity|].
  unfold Lifetime.destroy, MpmcFanout.delete_mpmc_fanout, Daemon.remove_callback.
  cbn [Daemon.find_or_create_daemon Daemon.m_callbacks Daemon.m_next_callback
       Registry.registered].
  fold key2. rewrite lookup_insert_eq. cbn [Daemon.m_callbacks].
  apply delete_insert_id. exact Hfresh2.
Qed.

End LifetimeFacts.

(** [fanout_queues_share_the_daemon] for the first two [mpmc_fanout<int>]
    queues of a process: they get the keys 0 and 1. *)
Lemma fanout_queues_witness :
  exists q1 g1 q2 g2,
    Lifetime.construct Z 0 4 CacheUtils.pow2 nat 1%nat None 1 8 = Ret (q1, g1) /\
    Lifetime.construct Z 0 4 CacheUtils.pow2 nat 2%nat g1 2 16 = Ret (q2, g2) /\
    MpmcFanout.m_callback_key q1 <> MpmcFanout.m_callback_key q2 /\
    Registry.registered (Lifetime.destroy q1 g2)
    = <[MpmcFanout.m_callback_key q2 := 2%nat]> ∅ /\
    Registry.registered (Lifetime.destroy q2 (Lifetime.destroy q1 g2)) = ∅.
Proof.
  assert (exists q1 g1 q2 g2,
             Lifetime.construct Z 0 4 CacheUtils.pow2 nat 1%nat None 1 8 = Ret (q1, g1) /\
             Lifetime.construct Z 0 4 CacheUtils.pow2 nat 2%nat g1 2 16 = Ret (q2, g2))
    as (q1 & g1 & q2 & g2 & Hq1 & Hq2).
  { eexists. eexists. eexists. eexists. split; [vm_compute; reflexivity|].
    vm_compute. reflexivity. }
  destruct (fanout_queues_share_the_daemon Z 0 4 CacheUtils.pow2 nat 1%nat 2%nat
              None g1 g2 1 8 2 16 q1 q2) as (Hne & _ & _ & _ & Hone & Hnone).
  - apply new_daemon_keys_below_next.
  - reflexivity.
  - exact Hq1.
  - exact Hq2.
  - exists q1, g1, q2, g2. split; [exact Hq1|]. split; [exact Hq2|].
    split; [exact Hne|]. split; [exact Hone|exact Hnone].
Defined.

(** ** How many elements the SPSC queue holds *)

(** A sound [int] queue to apply the statements to:
    [spsc_queue<int> q(1, 8)], of capacity 16. *)
Lemma int_queue_1_8_holds :
  exists q,
    SpscExamples.int_queue 1 8 = Ret q /\
    Fifo.holds 4 CacheUtils.pow2 q [] /\
    SpscQueue.m_head q = 0 /\
    SpscQueue.capacity q = 16.
Proof.
  destruct (new_buffer_sound Z 0 4 CacheUtils.pow2 ltac:(lia) 1 8)
    as (b & Hb & Hsound & _ & _ & _).
  - lia.
  - lia.
  - discriminate.
  - intros _. vm_compute. discriminate.
  - assert (exists q, SpscExamples.int_queue 1 8 = Ret q /\ SpscQueue.capacity q = 16)
      as (q & Hq & Hcap).
    { eexists. split; [vm_compute; reflexivity|]. vm_compute. reflexivity. }
    exists q. split; [exact Hq|].
    assert (SpscQueue.m_buffer q = b) as Hbuf.
    { unfold SpscExamples.int_queue, SpscQueue.new_spsc_queue in Hq.
      rewrite Hb in Hq. cbn [mbind outcome_bind] in Hq. injection Hq as <-. reflexivity. }
    destruct (new_spsc_queue_holds Z 0 4 CacheUtils.pow2 ltac:(lia) 1 8 q Hq) as [Hholds Hhead].
    { rewrite Hbuf. exact Hsound. }
    split; [exact Hholds|]. split; [exact Hhead|exact Hcap].
Qed.

(** X19: a sound SPSC queue holds at most [capacity() - 1] elements: with
    fewer pending, [push] returns and the element is pending too; with
    [capacity() - 1] pending, [push] busy-waits until a [pop].  (The head
    is taken not to wrap.) *)
Theorem spsc_holds_one_less_than_capacity
    (T : Type) (sizeof_T : Z) (size_policy : CacheUtils.cache_size_policy)
    (q : SpscQueue.spsc_queue T) (pending : list T) (v : T) :
  1 <= sizeof_T ->
  Fifo.holds sizeof_T size_policy q pending ->
  SpscQueue.m_head q + 1 < 2 ^ 64 ->
  Z.of_nat (length pending) + 1 <= SpscQueue.capacity q /\
  (Z.of_nat (length pending) + 1 < SpscQueue.capacity q ->
   exists q',
     SpscQueue.push v q = Ret q' /\
     Fifo.holds sizeof_T size_policy q' (pending ++ [v]) /\
     SpscQueue.size q' = Z.of_nat (length pending) + 1) /\
  (Z.of_nat (length pending) + 1 = SpscQueue.capacity q ->
   SpscQueue.push v q = Spins).
Proof.
  intros Hsize Hholds Hnowrap.
  destruct (holds_capacity T sizeof_T size_policy Hsize q pending Hholds) as [_ Hcap].
  pose proof Hholds as (_ & _ & Hfree & Hprivate & Htail & Hhead & Hlen & _).
  unfold SpscQueue.capacity. split; [lia|]. split.
  - intros Hroom.
    destruct (push_holds T sizeof_T size_policy Hsize q pending v Hholds Hroom Hnowrap)
      as (q' & Hpush & Hholds' & Hcap' & Hhead').
    exists q'. split; [exact Hpush|]. split; [exact Hholds'|].
    destruct Hholds' as (_ & _ & _ & _ & Htail' & Hh' & _ & _).
    unfold SpscQueue.size. rewrite Hh', length_app. cbn [length].
    rewrite wrap_small by lia. lia.
  - intros Hfull. unfold SpscQueue.push, SpscQueue.get_free_index.
    rewrite Hfree, Hprivate, Hhead.
    replace (SpscQueue.m_tail q + Z.of_nat (length pending) - SpscQueue.m_tail q)
      with (Z.of_nat (length pending)) by lia.
    rewrite wrap_small by lia.
    destruct (SpscQueue.m_capacity q - 1 <=? Z.of_nat (length pending)) eqn:Htest;
      [reflexivity|]. apply Z.leb_gt in Htest. lia.
Qed.

(** [spsc_holds_one_less_than_capacity] on a new [spsc_queue<int> q(1, 8)]:
    the first push returns. *)
Lemma spsc_holds_witness :
  exists q q',
    SpscExamples.int_queue 1 8 = Ret q /\
    SpscQueue.push 10 q = Ret q' /\
    SpscQueue.size q' = 1.
Proof.
  destruct int_queue_1_8_holds as (q & Hq & Hholds & Hhead & Hcap).
  destruct (spsc_holds_one_less_than_capacity Z 4 CacheUtils.pow2 q [] 10)
    as (_ & Hpush & _).
  - lia.
  - exact Hholds.
  - rewrite Hhead. reflexivity.
  - destruct Hpush as (q' & Hpush & _ & Hsz).
    + rewrite Hcap. reflexivity.
    + exists q, q'. split; [exact Hq|]. split; [exact Hpush|exact Hsz].
Defined.

(** ** The MPSC queue used by one thread *)

Section MpscSingle.

Variable T : Type.
Variable T_default : T.
Variable T_moved_from : T -> T.
Variable sizeof_T : Z.
Variable size_policy : CacheUtils.cache_size_policy.
Hypothesis sizeof_T_pos : 1 <= sizeof_T.

Lemma mpsc_push_as_spsc spurious v (q : MpscQueue.mpsc_queue T) s' :
  WriteConfirm.m_write_head (MpscQueue.m_write_confirm q)
  = WriteConfirm.m_read_head (MpscQueue.m_write_confirm q) ->
  0 <= WriteConfirm.m_read_head (MpscQueue.m_write_confirm q) ->
  WriteConfirm.m_read_head (MpscQueue.m_write_confirm q) + 1 < 2 ^ 64 ->
  SpscQueue.push v (MpscRuns.as_spsc q) = Ret s' ->
  exists q', MpscQueue.push spurious v q = Ret q' /\ MpscRuns.as_spsc q' = s'.
Proof.
  destruct q as [b [wh rh] t c f].
  cbn [MpscQueue.m_write_confirm WriteConfirm.m_write_head WriteConfirm.m_read_head].
  intros -> Hnn Hnowrap.
  unfold SpscQueue.push, SpscQueue.get_free_index, MpscQueue.push, MpscQueue.get_free_index,
    WriteConfirm.get_write_index, MpscRuns.as_spsc.
  cbn [SpscQueue.m_free_capacity_needed SpscQueue.m_private_head SpscQueue.m_tail
       SpscQueue.m_buffer SpscQueue.m_head SpscQueue.m_capacity
       MpscQueue.m_write_confirm MpscQueue.m_buffer MpscQueue.m_tail MpscQueue.m_capacity
       MpscQueue.m_free_capacity_needed
       WriteConfirm.m_write_head WriteConfirm.m_read_head].
  destruct (f <=? wrap (rh - t)); [discriminate|].
  cbn [mbind outcome_bind SpscQueue.m_buffer SpscQueue.m_private_head SpscQueue.m_head
       SpscQueue.m_tail SpscQueue.m_capacity SpscQueue.m_free_capacity_needed
       MpscQueue.with_write_confirm MpscQueue.m_buffer].
  destruct (CacheUtils.assign b rh v) as [b'| |]; cbn [mbind outcome_bind]; try discriminate.
  intros Hs. injection Hs as <-.
  unfold MpscQueue.update_read_head, MpscQueue.with_buffer, MpscQueue.with_write_confirm.
  cbn [MpscQueue.m_write_confirm MpscQueue.m_buffer MpscQueue.m_tail MpscQueue.m_capacity
       MpscQueue.m_free_capacity_needed].
  rewrite confirm_write_at_head by (try split; try reflexivity; lia).
  cbn [mbind outcome_bind]. eexists. split; [reflexivity|].
  unfold SpscQueue.update_read_head.
  cbn [MpscQueue.m_write_confirm MpscQueue.m_buffer MpscQueue.m_tail MpscQueue.m_capacity
       MpscQueue.m_free_capacity_needed WriteConfirm.m_write_head WriteConfirm.m_read_head
       SpscQueue.m_buffer SpscQueue.m_private_head SpscQueue.m_tail SpscQueue.m_capacity
       SpscQueue.m_free_capacity_needed].
  rewrite (wrap_small (rh + 1)) by lia. reflexivity.
Qed.

Lemma mpsc_pop_as_spsc out (q : MpscQueue.mpsc_queue T) ok x s' :
  SpscQueue.pop T_moved_from out (MpscRuns.as_spsc q) = Ret (ok, x, s') ->
  exists q', MpscQueue.pop T_moved_from out q = Ret (ok, x, q') /\ MpscRuns.as_spsc q' = s'.
Proof.
  destruct q as [b [wh rh] t c f].
  unfold SpscQueue.pop, MpscQueue.pop, WriteConfirm.get_read_index, MpscRuns.as_spsc.
  cbn [SpscQueue.m_head SpscQueue.m_tail SpscQueue.m_buffer SpscQueue.m_private_head
       SpscQueue.m_capacity SpscQueue.m_free_capacity_needed
       MpscQueue.m_write_confirm MpscQueue.m_buffer MpscQueue.m_tail MpscQueue.m_capacity
       MpscQueue.m_free_capacity_needed WriteConfirm.m_write_head WriteConfirm.m_read_head].
  destruct (rh <=? t).
  - intros Hs. injection Hs as <- <- <-. eexists. split; reflexivity.
  - destruct (CacheUtils.get b t) as [y| |]; cbn [mbind outcome_bind]; try discriminate.
    destruct (CacheUtils.assign b t (T_moved_from y)) as [b'| |];
      cbn [mbind outcome_bind]; try discriminate.
    intros Hs. injection Hs as <- <- <-. eexists. split; reflexivity.
Qed.

Lemma mpsc_run_as_spsc calls : forall (q : MpscQueue.mpsc_queue T) pending,
  Fifo.holds sizeof_T size_policy (MpscRuns.as_spsc q) pending ->
  SpscQueue.m_head (MpscRuns.as_spsc q) + Z.of_nat (length calls) < 2 ^ 64 ->
  Fifo.below_capacity (MpscQueue.m_capacity q) (Z.of_nat (length pending))
    (map MpscRuns.as_spsc_call calls) ->
  exists popped q' pending',
    MpscRuns.run T T_default T_moved_from calls q = Ret (popped, q') /\
    SpscQueue.run T T_default T_moved_from (map MpscRuns.as_spsc_call calls)
      (MpscRuns.as_spsc q) = Ret (popped, MpscRuns.as_spsc q') /\
    Fifo.holds sizeof_T size_policy (MpscRuns.as_spsc q') pending' /\
    pending ++ Fifo.pushed (map MpscRuns.as_spsc_call calls) = popped ++ pending'.
Proof.
  induction calls as [|[spurious v|] rest IH]; intros q pending Hholds Hnowrap Hbelow.
  - exists [], q, pending. split; [reflexivity|]. split; [reflexivity|].
    split; [exact Hholds|]. simpl. apply app_nil_r.
  - destruct Hbelow as [Hroom Hbelow]. cbn [length] in Hnowrap.
    rewrite Nat2Z.inj_succ in Hnowrap.
    pose proof Hholds as (_ & _ & _ & Hprivate & Htail & Hhead & _ & _).
    destruct (push_holds T sizeof_T size_policy sizeof_T_pos (MpscRuns.as_spsc q) pending v
                Hholds Hroom ltac:(lia)) as (s1 & Hpush & Hholds1 & Hcap1 & Hhead1).
    destruct (mpsc_push_as_spsc spurious v q s1) as (q1 & Hpush' & Hq1);
      [exact Hprivate|cbn [MpscRuns.as_spsc SpscQueue.m_head SpscQueue.m_tail] in *; lia
      |cbn [MpscRuns.as_spsc SpscQueue.m_head] in *; lia|exact Hpush|].
    subst s1.
    destruct (IH q1 (pending ++ [v]) Hholds1)
      as (popped & q' & pending' & Hrun & Hrun' & Hh & Heq).
    + rewrite Hhead1. lia.
    + change (MpscQueue.m_capacity q1) with (SpscQueue.m_capacity (MpscRuns.as_spsc q1)).
      rewrite Hcap1, length_app. cbn [length MpscRuns.as_spsc SpscQueue.m_capacity].
      replace (Z.of_nat (length pending + 1)) with (Z.of_nat (length pending) + 1) by lia.
      exact Hbelow.
    + exists popped, q', pending'.
      cbn [MpscRuns.run map MpscRuns.as_spsc_call SpscQueue.run].
      rewrite Hpush, Hpush'. cbn [mbind outcome_bind].
      split; [exact Hrun|]. split; [exact Hrun'|]. split; [exact Hh|].
      change (Fifo.pushed (SpscQueue.call_push v :: map MpscRuns.as_spsc_call rest))
        with (v :: Fifo.pushed (map MpscRuns.as_spsc_call rest)).
      rewrite <- Heq. rewrite <- app_assoc. reflexivity.
  - cbn [map MpscRuns.as_spsc_call Fifo.below_capacity] in Hbelow.
    cbn [length] in Hnowrap. rewrite Nat2Z.inj_succ in Hnowrap.
    destruct pending as [|x pending].
    + pose proof (pop_holds_empty T T_moved_from sizeof_T size_policy (MpscRuns.as_spsc q)
                    T_default Hholds) as Hpop.
      destruct (mpsc_pop_as_spsc T_default q false T_default (MpscRuns.as_spsc q) Hpop)
        as (q1 & Hpop' & Hq1).
      assert (MpscRuns.as_spsc q1 = MpscRuns.as_spsc q -> q1 = q) as Hinj.
      { destruct q as [b [wh rh] t c f], q1 as [b1 [wh1 rh1] t1 c1 f1].
        unfold MpscRuns.as_spsc. cbn. intros Heq. injection Heq as -> -> -> -> -> ->.
        reflexivity. }
      apply Hinj in Hq1. subst q1.
      destruct (IH q [] Hholds) as (popped & q' & pending' & Hrun & Hrun' & Hh & Heq);
        [lia|exact Hbelow|].
      exists popped, q', pending'.
      cbn [MpscRuns.run map MpscRuns.as_spsc_call SpscQueue.run].
      rewrite Hpop, Hpop'. cbn [mbind outcome_bind]. rewrite Hrun, Hrun'.
      cbn [mbind outcome_bind].
      split; [reflexivity|]. split; [reflexivity|]. split; [exact Hh|exact Heq].
    + destruct (pop_holds_cons T T_moved_from sizeof_T size_policy sizeof_T_pos
                  (MpscRuns.as_spsc q) x pending T_default Hholds ltac:(lia))
        as (s1 & Hpop & Hholds1 & Hcap1 & Hhead1).
      destruct (mpsc_pop_as_spsc T_default q true x s1 Hpop) as (q1 & Hpop' & Hq1).
      subst s1.
      destruct (IH q1 pending Hholds1) as (popped & q' & pending' & Hrun & Hrun' & Hh & Heq).
      * rewrite Hhead1. lia.
      * change (MpscQueue.m_capacity q1) with (SpscQueue.m_capacity (MpscRuns.as_spsc q1)).
        rewrite Hcap1. cbn [MpscRuns.as_spsc SpscQueue.m_capacity]. cbn [length] in Hbelow.
        replace (Z.max 0 (Z.of_nat (S (length pending)) - 1))
          with (Z.of_nat (length pending)) in Hbelow by lia.
        exact Hbelow.
      * exists (x :: popped), q', pending'.
        cbn [MpscRuns.run map MpscRuns.as_spsc_call SpscQueue.run].
        rewrite Hpop, Hpop'. cbn [mbind outcome_bind]. rewrite Hrun, Hrun'.
        cbn [mbind outcome_bind].
        split; [reflexivity|]. split; [reflexivity|]. split; [exact Hh|].
        change (Fifo.pushed (SpscQueue.call_pop :: map MpscRuns.as_spsc_call rest))
          with (Fifo.pushed (map MpscRuns.as_spsc_call rest)).
        cbn [app]. rewrite Heq. reflexivity.
Qed.

Lemma new_mpsc_queue_as_spsc L E (q : MpscQueue.mpsc_queue T) :
  MpscQueue.new_mpsc_queue T T_default sizeof_T size_policy L E = Ret q ->
  SpscQueue.new_spsc_queue T T_default sizeof_T size_policy L E = Ret (MpscRuns.as_spsc q).
Proof.
  unfold MpscQueue.new_mpsc_queue, SpscQueue.new_spsc_queue.
  destruct (CacheUtils.new_buffer T T_default sizeof_T size_policy L E) as [b| |];
    cbn [mbind outcome_bind]; try discriminate.
  intros Hq. injection Hq as <-. reflexivity.
Qed.

(** X20: used by one thread, the MPSC queue is a FIFO and does what the
    SPSC queue does: on a sound buffer, and as long as the number of
    pending elements stays below the capacity, every call of a run of
    pushes and pops returns, the pushed elements are the popped ones
    followed by those still pending, [size()] is the number pending, and
    the same calls on an SPSC queue built from the same arguments return
    the same elements and leave the same members. *)
Theorem mpsc_pops_in_push_order
    (min_cache_lines min_elements : Z)
    (q : MpscQueue.mpsc_queue T) (calls : list (MpscRuns.call T)) :
  MpscQueue.new_mpsc_queue T T_default sizeof_T size_policy
    min_cache_lines min_elements = Ret q ->
  Sound.sound sizeof_T size_policy (MpscQueue.m_buffer q) ->
  Z.of_nat (length calls) < 2 ^ 64 ->
  Fifo.below_capacity (MpscQueue.capacity q) 0 (map MpscRuns.as_spsc_call calls) ->
  exists popped q' pending,
    MpscRuns.run T T_default T_moved_from calls q = Ret (popped, q') /\
    Fifo.pushed (map MpscRuns.as_spsc_call calls) = popped ++ pending /\
    MpscQueue.size q' = Z.of_nat (length pending) /\
    SpscQueue.new_spsc_queue T T_default sizeof_T size_policy
      min_cache_lines min_elements = Ret (MpscRuns.as_spsc q) /\
    SpscQueue.run T T_default T_moved_from (map MpscRuns.as_spsc_call calls)
      (MpscRuns.as_spsc q) = Ret (popped, MpscRuns.as_spsc q').
Proof.
  intros Hnew Hsound Hlen Hbelow.
  pose proof (new_mpsc_queue_as_spsc min_cache_lines min_elements q Hnew) as Hspsc.
  destruct (new_spsc_queue_holds T T_default sizeof_T size_policy sizeof_T_pos
              min_cache_lines min_elements (MpscRuns.as_spsc q) Hspsc Hsound)
    as [Hholds Hhead].
  destruct (mpsc_run_as_spsc calls q [] Hholds)
    as (popped & q' & pending & Hrun & Hrun' & Hholds' & Heq).
  - rewrite Hhead. lia.
  - exact Hbelow.
  - exists popped, q', pending. split; [exact Hrun|]. split; [exact Heq|].
    split; [|split; [exact Hspsc|exact Hrun']].
    destruct (holds_capacity T sizeof_T size_policy sizeof_T_pos _ _ Hholds') as [_ Hrange].
    destruct Hholds' as (_ & _ & _ & _ & _ & Hh & Hl & _).
    cbn [MpscRuns.as_spsc SpscQueue.m_head SpscQueue.m_tail SpscQueue.m_capacity] in *.
    unfold MpscQueue.size, WriteConfirm.get_read_index. rewrite Hh.
    replace (MpscQueue.m_tail q' + Z.of_nat (length pending) - MpscQueue.m_tail q')
      with (Z.of_nat (length pending)) by lia.
    apply wrap_small. lia.
Qed.

End MpscSingle.

(** [mpsc_pops_in_push_order] on [mpsc_queue<int> q(1, 8)]: two pushes
    (the second after a spurious failure of its exchange), three pops and
    a push. *)
Lemma mpsc_pops_in_push_order_witness :
  exists q q',
    MpscQueue.new_mpsc_queue Z 0 4 CacheUtils.pow2 1 8 = Ret q /\
    MpscRuns.run Z 0 (fun x => x)
      [MpscRuns.call_push [] 10; MpscRuns.call_push [true] 20; MpscRuns.call_pop;
       MpscRuns.call_pop; MpscRuns.call_pop; MpscRuns.call_push [] 30] q
    = Ret ([10; 20], q') /\
    MpscQueue.size q' = 1.
Proof.
  destruct (new_buffer_sound Z 0 4 CacheUtils.pow2 ltac:(lia) 1 8)
    as (b & Hb & Hsound & _ & _ & _).
  - lia.
  - lia.
  - discriminate.
  - intros _. vm_compute. discriminate.
  - assert (exists q q',
               MpscQueue.new_mpsc_queue Z 0 4 CacheUtils.pow2 1 8 = Ret q /\
               MpscQueue.capacity q = 16 /\
               MpscRuns.run Z 0 (fun x => x)
                 [MpscRuns.call_push [] 10; MpscRuns.call_push [true] 20; MpscRuns.call_pop;
                  MpscRuns.call_pop; MpscRuns.call_pop; MpscRuns.call_push [] 30] q
               = Ret ([10; 20], q')) as (q & q' & Hq & Hcap & Hrun).
    { eexists. eexists. split; [vm_compute; reflexivity|].
      split; [vm_compute; reflexivity|]. vm_compute. reflexivity. }
    assert (MpscQueue.m_buffer q = b) as Hbuf.
    { unfold MpscQueue.new_mpsc_queue in Hq.
      rewrite Hb in Hq. cbn [mbind outcome_bind] in Hq. injection Hq as <-. reflexivity. }
    destruct (mpsc_pops_in_push_order Z 0 (fun x => x) 4 CacheUtils.pow2 ltac:(lia) 1 8 q
                [MpscRuns.call_push [] 10; MpscRuns.call_push [true] 20; MpscRuns.call_pop;
                 MpscRuns.call_pop; MpscRuns.call_pop; MpscRuns.call_push [] 30])
      as (popped & q'' & pending & Hrun' & Hpushed & Hsz & _).
    + exact Hq.
    + rewrite Hbuf. exact Hsound.
    + reflexivity.
    + rewrite Hcap. simpl. lia.
    + rewrite Hrun in Hrun'. injection Hrun' as <- <-.
      exists q, q'. split; [exact Hq|]. split; [exact Hrun|].
      rewrite Hsz. simpl in Hpushed.
      assert (pending = [30]) as -> by (injection Hpushed as <-; reflexivity).
      reflexivity.
Defined.

(** ** The storage of the backing vectors *)

Lemma lookup_foldr_delete_Some {V : Type} (m : gmap nat V) (ks : list nat) (p : nat) (v : V) :
  foldr delete m ks !! p = Some v -> m !! p = Some v.
Proof.
  induction ks as [|k ks IH]; simpl; [auto|].
  intros Hp. apply lookup_delete_Some in Hp. destruct Hp as [_ Hp]. auto.
Qed.

Section VecStorage.

Import SpmcPushVec.

Variable T : Type.
Variable T_default : T.

Local Abbreviation vec := (spmc_push_vec T).

(** The vector [reserve(elements)] leaves when it moves to a new backing
    vector, a copy of [v]. *)
Local Abbreviation moved elements v s :=
  {| store := <[fresh (dom (store s)) := vector_reserve T elements (vector_copy T v)]>
                (store s);
     m_old_vecs := m_old_vecs s ++ [fresh (dom (store s))];
     m_current_vec := fresh (dom (store s));
     m_size := m_size s |}.

Lemma reserve_detail elements (s : vec) v :
  store s !! m_current_vec s = Some v ->
  reserve T elements s
  = Normal tt (if v_capacity v <? elements then moved elements v s else s).
Proof.
  intros Hv.
  unfold reserve, capacity, get_current_vec, load_current_vec, deref.
  unfold mbind, M_bind, bind, mret, M_ret, ret. rewrite Hv.
  destruct (v_capacity v <? elements) eqn:Htest; [|reflexivity].
  rewrite Hv. unfold create_new_vector, through, store_current_vec. simpl.
  rewrite lookup_insert_eq. simpl. rewrite insert_insert_eq. reflexivity.
Qed.

(** The vector a call leaves when it applies [f] to the active vector
    [v1] of [s1] and stores the size [n]. *)
Local Abbreviation applied f n v1 s1 :=
  {| store := <[m_current_vec s1 := f v1]> (store s1);
     m_old_vecs := m_old_vecs s1;
     m_current_vec := m_current_vec s1;
     m_size := n |}.

Lemma push_back_detail element (s : vec) v :
  store s !! m_current_vec s = Some v ->
  push_back T element s
  = if (v_capacity v <=? m_size s) && (v_capacity v <? wrap (v_capacity v * 2))
    then Normal tt (applied (vector_push_back T element) (wrap (m_size s + 1))
                      (vector_reserve T (wrap (v_capacity v * 2)) (vector_copy T v))
                      (moved (wrap (v_capacity v * 2)) v s))
    else Normal tt (applied (vector_push_back T element) (wrap (m_size s + 1)) v s).
Proof.
  intros Hv.
  unfold push_back, size, capacity, get_current_vec, load_current_vec, deref.
  unfold mbind, M_bind, bind, ret. rewrite Hv.
  destruct (v_capacity v <=? m_size s); cbn [andb].
  - rewrite Hv. rewrite (reserve_detail _ s v Hv).
    destruct (v_capacity v <? wrap (v_capacity v * 2)).
    + unfold through, store_size. cbn [store m_current_vec m_old_vecs m_size].
      rewrite lookup_insert_eq. reflexivity.
    + unfold through, store_size. rewrite Hv. reflexivity.
  - unfold through, store_size. rewrite Hv. reflexivity.
Qed.

Lemma resize_detail elements (s : vec) v :
  store s !! m_current_vec s = Some v ->
  m_size s <= elements ->
  resize T T_default elements s
  = if v_capacity v <? elements
    then Normal tt (applied (vector_resize T T_default elements) elements
                      (vector_reserve T elements (vector_copy T v))
                      (moved elements v s))
    else Normal tt (applied (vector_resize T T_default elements) elements v s).
Proof.
  intros Hv Hle.
  unfold resize, size, throw, mbind, M_bind, bind, ret, load_current_vec.
  destruct (elements <? m_size s) eqn:Htest; [lia|].
  rewrite (reserve_detail _ s v Hv).
  destruct (v_capacity v <? elements).
  - unfold through, store_size. cbn [store m_current_vec m_old_vecs m_size].
    rewrite lookup_insert_eq. reflexivity.
  - unfold through, store_size. rewrite Hv. reflexivity.
Qed.

Lemma copy_within_capacity elements (v : std_vector T) :
  v_elems (vector_reserve T elements (vector_copy T v)) = v_elems v /\
  v_capacity (vector_reserve T elements (vector_copy T v)) = Z.max (v_size T v) elements.
Proof.
  unfold vector_reserve, vector_copy. cbn [v_capacity v_elems].
  destruct (v_size T v <? elements) eqn:Htest; cbn [v_capacity v_elems]; split;
    try reflexivity; lia.
Qed.

Lemma push_back_within_capacity element (v : std_vector T) :
  v_size T v <= v_capacity v ->
  v_size T (vector_push_back T element v) <= v_capacity (vector_push_back T element v) /\
  v_capacity v <= v_capacity (vector_push_back T element v).
Proof.
  unfold vector_push_back, v_size. cbn [v_elems v_capacity]. rewrite length_app.
  cbn [length]. intros Hle.
  destruct (Z.of_nat (length (v_elems v)) <? v_capacity v) eqn:Htest; lia.
Qed.

Lemma resize_within_capacity elements (v : std_vector T) :
  v_size T v <= v_capacity v ->
  v_size T (vector_resize T T_default elements v)
  <= v_capacity (vector_resize T T_default elements v) /\
  v_capacity v <= v_capacity (vector_resize T T_default elements v).
Proof.
  unfold vector_resize, v_size. cbn [v_elems v_capacity].
  rewrite length_app, length_take, length_replicate. intros Hle. lia.
Qed.

Lemma new_within_capacity initial_capacity (s : vec) :
  new_spmc_push_vec T initial_capacity = Normal tt s -> Storage.within_capacity s.
Proof.
  unfold new_spmc_push_vec, create_new_vector, store_current_vec, load_current_vec,
    through.
  unfold mbind, M_bind, bind. simpl. rewrite lookup_insert_eq.
  intros Hs. injection Hs as <-. eexists. cbn [store m_current_vec].
  split; [apply lookup_insert_eq|].
  unfold vector_reserve, vector_copy, vector_empty, v_size. cbn [v_elems v_capacity length].
  change (Z.of_nat 0) with 0.
  destruct (Z.ltb_spec 0 initial_capacity); cbn [v_elems v_capacity length]; lia.
Qed.

(** One producer call, from a vector whose active vector [v] is within
    its capacity: the active vector afterwards is within its capacity
    and not smaller, and no backing vector was reallocated, provided the
    size is in step with [v] and twice the capacity fits [size_t]. *)
Lemma perform_storage c (s s' : vec) v :
  Archive.archive_inv s ->
  store s !! m_current_vec s = Some v ->
  v_size T v <= v_capacity v ->
  perform T T_default c s = Some s' ->
  (exists v',
      store s' !! m_current_vec s' = Some v' /\
      v_size T v' <= v_capacity v' /\
      v_capacity v <= v_capacity v') /\
  (forall p, is_Some (store s !! p) -> store s' !! p = None ->
             c = call_drop_old T /\ p <> m_current_vec s) /\
  (m_size s = v_size T v -> v_capacity v < 2 ^ 63 -> Storage.kept_in_place s s').
Proof.
  intros Hinv Hv Hwithin Hcall.
  assert (0 <= v_size T v) as Hnn by (unfold v_size; lia).
  assert (store s !! fresh (dom (store s)) = None) as Hfresh
    by apply fresh_pointer_unused.
  assert (forall p w, store s !! p = Some w -> fresh (dom (store s)) <> p) as Hother.
  { intros p w Hp Heq. rewrite Heq in Hfresh. congruence. }
  (* the two shapes a call that appends or resizes leaves *)
  assert (forall f n,
             v_size T (f v) <= v_capacity (f v) ->
             v_capacity v <= v_capacity (f v) ->
             (m_size s = v_size T v -> v_capacity v < 2 ^ 63 ->
              v_elems v `prefix_of` v_elems (f v) /\
              (0 < v_capacity v -> v_capacity (f v) = v_capacity v)) ->
             s' = applied f n v s ->
             (exists v',
                 store s' !! m_current_vec s' = Some v' /\
                 v_size T v' <= v_capacity v' /\
                 v_capacity v <= v_capacity v') /\
             (forall p, is_Some (store s !! p) -> store s' !! p = None ->
                        c = call_drop_old T /\ p <> m_current_vec s) /\
             (m_size s = v_size T v -> v_capacity v < 2 ^ 63 ->
              Storage.kept_in_place s s')) as Hplace.
  { intros f n Hfit Hgrow Hkeep ->. cbn [store m_current_vec]. split; [|split].
    - exists (f v). split; [apply lookup_insert_eq|]. split; assumption.
    - intros p [w Hp] Hnone. destruct (decide (m_current_vec s = p)) as [<-|Hne].
      + rewrite lookup_insert_eq in Hnone. discriminate.
      + rewrite lookup_insert_ne in Hnone by exact Hne. congruence.
    - intros Hstep Hbound p w w' Hp Hp'. cbn [store] in Hp'.
      destruct (decide (m_current_vec s = p)) as [<-|Hne].
      + rewrite lookup_insert_eq in Hp'. injection Hp' as <-.
        rewrite Hv in Hp. injection Hp as <-. apply Hkeep; assumption.
      + rewrite lookup_insert_ne in Hp' by exact Hne.
        rewrite Hp in Hp'. injection Hp' as <-. split; [reflexivity|auto]. }
  assert (forall f n elements,
             v_capacity v < elements ->
             (forall w, v_size T w <= v_capacity w ->
                        v_size T (f w) <= v_capacity (f w) /\
                        v_capacity w <= v_capacity (f w)) ->
             s' = applied f n (vector_reserve T elements (vector_copy T v))
                    (moved elements v s) ->
             (exists v',
                 store s' !! m_current_vec s' = Some v' /\
                 v_size T v' <= v_capacity v' /\
                 v_capacity v <= v_capacity v') /\
             (forall p, is_Some (store s !! p) -> store s' !! p = None ->
                        c = call_drop_old T /\ p <> m_current_vec s) /\
             (m_size s = v_size T v -> v_capacity v < 2 ^ 63 ->
              Storage.kept_in_place s s')) as Hmoved.
  { intros f n elements Hlt Hf ->. cbn [store m_current_vec].
    destruct (copy_within_capacity elements v) as [Helems Hcap].
    destruct (Hf (vector_reserve T elements (vector_copy T v))) as [Hfit Hgrow].
    { unfold v_size at 1. rewrite Helems, Hcap. fold (v_size T v). lia. }
    split; [|split].
    - eexists. split; [apply lookup_insert_eq|]. split; [exact Hfit|]. lia.
    - intros p [w Hp] Hnone. rewrite insert_insert_eq in Hnone.
      rewrite lookup_insert_ne in Hnone by (eapply Hother; exact Hp). congruence.
    - intros _ _ p w w' Hp Hp'. cbn [store] in Hp'. rewrite insert_insert_eq in Hp'.
      rewrite lookup_insert_ne in Hp' by (eapply Hother; exact Hp).
      rewrite Hp in Hp'. injection Hp' as <-. split; [reflexivity|auto]. }
  assert (forall element,
             left_by (push_back T element s) = Some s' ->
             (exists v',
                 store s' !! m_current_vec s' = Some v' /\
                 v_size T v' <= v_capacity v' /\
                 v_capacity v <= v_capacity v') /\
             (forall p, is_Some (store s !! p) -> store s' !! p = None ->
                        c = call_drop_old T /\ p <> m_current_vec s) /\
             (m_size s = v_size T v -> v_capacity v < 2 ^ 63 ->
              Storage.kept_in_place s s')) as Hpush.
  { intros element Hleft. rewrite (push_back_detail element s v Hv) in Hleft.
    destruct ((v_capacity v <=? m_size s) && (v_capacity v <? wrap (v_capacity v * 2)))
      eqn:Htest; cbn [left_by] in Hleft; injection Hleft as Hs'; symmetry in Hs'.
    - apply andb_prop in Htest. destruct Htest as [_ Hlt]. apply Z.ltb_lt in Hlt.
      eapply Hmoved; [exact Hlt| |exact Hs'].
      intros w Hw. apply push_back_within_capacity. exact Hw.
    - destruct (push_back_within_capacity element v Hwithin) as [Hfit Hgrow].
      eapply Hplace; [exact Hfit|exact Hgrow| |exact Hs'].
      intros Hstep Hbound. split.
      + unfold vector_push_back. cbn [v_elems]. apply prefix_app_r. reflexivity.
      + intros Hpos. unfold vector_push_back. cbn [v_capacity].
        destruct (v_size T v <? v_capacity v) eqn:Hroom; [reflexivity|].
        apply Z.ltb_ge in Hroom. apply andb_false_iff in Htest.
        destruct Htest as [Htest|Htest].
        * apply Z.leb_gt in Htest. lia.
        * apply Z.ltb_ge in Htest. rewrite wrap_small in Htest by lia. lia. }
  destruct c as [element|element|elements|elements|]; cbn [perform] in Hcall.
  - apply (Hpush element). exact Hcall.
  - destruct (emplace_back_spec T element s Hinv) as (s1 & Hem & Hpb).
    rewrite Hem in Hcall. apply (Hpush element). rewrite Hpb. exact Hcall.
  - rewrite (reserve_detail elements s v Hv) in Hcall. cbn [left_by] in Hcall.
    injection Hcall as Hs'. symmetry in Hs'.
    destruct (v_capacity v <? elements) eqn:Htest.
    + apply Z.ltb_lt in Htest. rewrite Hs'. cbn [store m_current_vec].
      destruct (copy_within_capacity elements v) as [Helems Hcap].
      split; [|split].
      * eexists. split; [apply lookup_insert_eq|].
        unfold v_size at 1. rewrite Helems, Hcap. fold (v_size T v). lia.
      * intros p [w Hp] Hnone.
        rewrite lookup_insert_ne in Hnone by (eapply Hother; exact Hp). congruence.
      * intros _ _ p w w' Hp Hp'. cbn [store] in Hp'.
        rewrite lookup_insert_ne in Hp' by (eapply Hother; exact Hp).
        rewrite Hp in Hp'. injection Hp' as <-. split; [reflexivity|auto].
    + subst s'. split; [|split].
      * exists v. split; [exact Hv|]. split; [exact Hwithin|lia].
      * intros p [w Hp] Hnone. congruence.
      * intros _ _ p w w' Hp Hp'. rewrite Hp in Hp'. injection Hp' as <-.
        split; [reflexivity|auto].
  - destruct (Z.lt_ge_cases elements (m_size s)) as [Hlt|Hge].
    + rewrite (resize_shrink_spec T T_default elements s Hlt) in Hcall.
      cbn [left_by] in Hcall. injection Hcall as <-. split; [|split].
      * exists v. split; [exact Hv|]. split; [exact Hwithin|lia].
      * intros p [w Hp] Hnone. congruence.
      * intros _ _ p w w' Hp Hp'. rewrite Hp in Hp'. injection Hp' as <-.
        split; [reflexivity|auto].
    + rewrite (resize_detail elements s v Hv Hge) in Hcall.
      destruct (v_capacity v <? elements) eqn:Htest; cbn [left_by] in Hcall;
        injection Hcall as Hs'; symmetry in Hs'.
      * apply Z.ltb_lt in Htest. eapply Hmoved; [exact Htest| |exact Hs'].
        intros w Hw. apply resize_within_capacity. exact Hw.
      * apply Z.ltb_ge in Htest.
        destruct (resize_within_capacity elements v Hwithin) as [Hfit Hgrow].
        eapply Hplace; [exact Hfit|exact Hgrow| |exact Hs'].
        intros Hstep Hbound. unfold vector_resize. cbn [v_elems v_capacity]. split.
        -- rewrite take_ge by (unfold v_size in Hstep; lia). apply prefix_app_r. reflexivity.
        -- intros _. lia.
  - destruct (drop_old_spec T s Hinv) as (s1 & Hdrop & _ & _ & Hcur & Hstore & _).
    pose proof Hdrop as Hform. unfold drop_old in Hform.
    destruct (last (m_old_vecs s)) as [current|] eqn:Hlast; [|discriminate].
    injection Hform as Hform. rewrite Hdrop in Hcall. cbn [left_by] in Hcall.
    injection Hcall as <-. split; [|split].
    + exists v. rewrite Hstore. split; [exact Hv|]. split; [exact Hwithin|lia].
    + intros p Hp Hnone. split; [reflexivity|]. intros ->.
      rewrite <- Hcur, Hstore, Hv in Hnone. discriminate.
    + intros _ _ p w w' Hp Hp'. rewrite <- Hform in Hp'. cbn [store] in Hp'.
      apply lookup_foldr_delete_Some in Hp'. rewrite Hp in Hp'. injection Hp' as <-.
      split; [reflexivity|auto].
Qed.

Lemma reachable_within_capacity (s : vec) :
  reachable T_default s -> Storage.within_capacity s.
Proof.
  induction 1 as [initial_capacity s Hnew|c s s' Hreach IH Hcall].
  - destruct (new_spec T initial_capacity) as (s0 & Hs0 & _).
    rewrite Hs0 in Hnew. injection Hnew as <-.
    eapply new_within_capacity. exact Hs0.
  - destruct IH as (v & Hv & Hwithin).
    destruct (reachable_inv T T_default s Hreach) as (Hinv & _).
    destruct (perform_storage c s s' v Hinv Hv Hwithin Hcall) as ((v' & Hv' & Hfit & _) & _).
    exists v'. split; assumption.
Qed.

End VecStorage.

(** A vector to apply the statements to: [spmc_push_vec<int> vec(2)]
    after [push_back(1)], [push_back(2)] and [push_back(3)], the last of
    which moved to a second backing vector. *)
Lemma three_pushed :
  exists s,
    SpmcPushVec.reachable 0 s /\
    Archive.current_elems s = [1; 2; 3] /\
    SpmcPushVec.m_size s = 3 /\
    SpmcPushVec.m_old_vecs s = [0%nat; 1%nat] /\
    SpmcPushVec.m_current_vec s = 1%nat /\
    SpmcPushVec.capacity s = SpmcPushVec.Normal 4 s.
Proof.
  assert (exists s0 s1 s2 s,
             SpmcPushVec.left_by (SpmcPushVec.new_spmc_push_vec Z 2) = Some s0 /\
             SpmcPushVec.perform Z 0 (SpmcPushVec.call_push_back Z 1) s0 = Some s1 /\
             SpmcPushVec.perform Z 0 (SpmcPushVec.call_push_back Z 2) s1 = Some s2 /\
             SpmcPushVec.perform Z 0 (SpmcPushVec.call_push_back Z 3) s2 = Some s /\
             Archive.current_elems s = [1; 2; 3] /\
             SpmcPushVec.m_size s = 3 /\
             SpmcPushVec.m_old_vecs s = [0%nat; 1%nat] /\
             SpmcPushVec.m_current_vec s = 1%nat /\
             SpmcPushVec.capacity s = SpmcPushVec.Normal 4 s)
    as (s0 & s1 & s2 & s & Hnew & H1 & H2 & H3 & Helems & Hsize & Hold & Hcur & Hcap).
  { eexists. eexists. eexists. eexists. split; [vm_compute; reflexivity|].
    split; [vm_compute; reflexivity|]. split; [vm_compute; reflexivity|].
    split; [vm_compute; reflexivity|]. split; [vm_compute; reflexivity|].
    split; [vm_compute; reflexivity|]. split; [vm_compute; reflexivity|].
    split; [vm_compute; reflexivity|]. vm_compute. reflexivity. }
  exists s. split; [|split; [exact Helems|split; [exact Hsize|split;
                    [exact Hold|split; [exact Hcur|exact Hcap]]]]].
  eapply SpmcPushVec.reachable_call; [|exact H3].
  eapply SpmcPushVec.reachable_call; [|exact H2].
  eapply SpmcPushVec.reachable_call; [|exact H1].
  eapply SpmcPushVec.reachable_new. exact Hnew.
Qed.

Section VecCapacity.

Import SpmcPushVec.

Variable T : Type.
Variable T_default : T.

Local Abbreviation vec := (spmc_push_vec T).

Lemma capacity_detail (s : vec) v :
  store s !! m_current_vec s = Some v -> capacity s = Normal (v_capacity v) s.
Proof.
  intros Hv. unfold capacity, get_current_vec, load_current_vec, deref.
  unfold mbind, M_bind, bind, ret. rewrite Hv. reflexivity.
Qed.



Lemma push_all_spec (values : list T) : forall s : vec,
  Archive.archive_inv s ->
  m_size s = Z.of_nat (length (Archive.current_elems s)) ->
  Z.of_nat (length (Archive.current_elems s)) + Z.of_nat (length values) < 2 ^ 64 ->
  exists s',
    VecRuns.push_all values s = Normal tt s' /\
    Archive.archive_inv s' /\
    Archive.current_elems s' = Archive.current_elems s ++ values /\
    m_size s' = Z.of_nat (length (Archive.current_elems s')).
Proof.
  induction values as [|x values IH]; intros s Hinv Hsize Hfit.
  - exists s. split; [reflexivity|]. split; [exact Hinv|].
    split; [rewrite app_nil_r; reflexivity|exact Hsize].
  - cbn [length] in Hfit. rewrite Nat2Z.inj_succ in Hfit.
    destruct (push_back_spec T x s Hinv) as (s1 & Hpush & Hinv1 & Helems1 & Hsize1).
    destruct (IH s1 Hinv1) as (s' & Hall & Hinv' & Helems' & Hsize').
    + rewrite Hsize1, Helems1, length_app, Hsize. cbn [length].
      rewrite wrap_small by lia. lia.
    + rewrite Helems1, length_app. cbn [length]. lia.
    + exists s'. cbn [VecRuns.push_all]. unfold bind. rewrite Hpush.
      split; [exact Hall|]. split; [exact Hinv'|]. split; [|exact Hsize'].
      rewrite Helems', Helems1, <- app_assoc. reflexivity.
Qed.

(** X23: [push_back] of the elements of a list, one after the other, on
    a new vector of any initial capacity: every call returns, [size()]
    is the length of the list, [operator[]] reads the [i]-th pushed
    element at index [i], and has no defined result from [size()] on. *)
Theorem pushed_elements_read_back (initial_capacity : Z) (values : list T) :
  Z.of_nat (length values) < 2 ^ 64 ->
  exists s0 s,
    new_spmc_push_vec T initial_capacity = Normal tt s0 /\
    VecRuns.push_all values s0 = Normal tt s /\
    size s = Normal (Z.of_nat (length values)) s /\
    (forall i x, values !! i = Some x -> at_index (Z.of_nat i) s = Normal x s) /\
    (forall i, Z.of_nat (length values) <= i -> at_index i s = Undef).
Proof.
  intros Hlen.
  destruct (new_spec T initial_capacity) as (s0 & Hnew & Hinv0 & Helems0 & Hsize0).
  destruct (push_all_spec values s0 Hinv0) as (s & Hall & Hinv & Helems & Hsize).
  - rewrite Hsize0, Helems0. reflexivity.
  - rewrite Helems0. cbn [length]. lia.
  - rewrite Helems0 in Helems. cbn [app] in Helems.
    exists s0, s. split; [exact Hnew|]. split; [exact Hall|].
    split; [unfold size; rewrite Hsize, Helems; reflexivity|]. split.
    + intros i x Hx. apply at_index_current_elems; [exact Hinv|].
      rewrite Helems, Nat2Z.id. exact Hx.
    + intros i Hi. rewrite at_index_spec.
      destruct (archive_inv_current T s Hinv) as [v Hv]. rewrite Hv.
      rewrite <- (current_elems_lookup T s v Hv), Helems.
      rewrite lookup_ge_None_2 by lia. reflexivity.
Qed.

Lemma range_for_loop_spec (s : vec) (this : nat) (fuel : nat) : forall k : nat,
  Archive.archive_inv s ->
  Z.of_nat (length (Archive.current_elems s)) < 2 ^ 64 ->
  (k <= length (Archive.current_elems s))%nat ->
  range_for_loop fuel {| m_vec := this; m_idx := Z.of_nat k |}
    {| m_vec := this; m_idx := Z.of_nat (length (Archive.current_elems s)) |} s
  = Normal (if decide (length (Archive.current_elems s) - k < fuel)%nat
            then Some (drop k (Archive.current_elems s))
            else None) s.
Proof.
  induction fuel as [|fuel IH]; intros k Hinv Hfits Hk.
  - cbn [range_for_loop]. destruct (decide _) as [Hlt|_]; [lia|reflexivity].
  - cbn [range_for_loop]. unfold iterator_ne. cbn [m_idx m_vec].
    rewrite Nat.eqb_refl. cbn [negb]. rewrite orb_false_r.
    destruct (Z.of_nat k =? Z.of_nat (length (Archive.current_elems s))) eqn:Htest;
      cbn [negb].
    + apply Z.eqb_eq in Htest. apply Nat2Z.inj in Htest. subst k.
      rewrite drop_all. destruct (decide _) as [_|Hge]; [reflexivity|lia].
    + apply Z.eqb_neq in Htest.
      assert (k < length (Archive.current_elems s))%nat as Hlt by lia.
      destruct (lookup_lt_is_Some_2 _ _ Hlt) as [x Hx].
      unfold mbind, M_bind, bind, iterator_deref, iterator_incr. cbn [m_idx m_vec].
      rewrite (at_index_current_elems s (Z.of_nat k) x Hinv)
        by (rewrite Nat2Z.id; exact Hx).
      rewrite wrap_small by lia.
      replace (Z.of_nat k + 1) with (Z.of_nat (S k)) by lia.
      rewrite IH by (try assumption; lia).
      unfold ret. rewrite (drop_S _ x k Hx).
      destruct (decide (length (Archive.current_elems s) - S k < fuel)%nat) as [H1|H1];
        destruct (decide (length (Archive.current_elems s) - k < S fuel)%nat) as [H2|H2];
        try lia; reflexivity.
Qed.

(** X24: a range-based [for] over the vector visits the [size()]
    elements in index order, makes exactly [size()] turns and leaves the
    vector as it is; [begin()] equals [end()] exactly when the vector is
    empty; and [operator!=] is the negation of [operator==].  (The vector
    holds fewer than [2^64] elements.) *)
Theorem iteration_visits_the_elements_in_order (s : vec) (this : nat) :
  reachable T_default s ->
  Archive.fits s ->
  let elements := Archive.current_elems s in
  size s = Normal (Z.of_nat (length elements)) s /\
  (forall fuel,
      range_for this fuel s
      = Normal (if decide (length elements < fuel)%nat then Some elements else None) s) /\
  (exists first last,
      begin_ this s = Normal first s /\
      end_ this s = Normal last s /\
      (iterator_eq first last = true <-> elements = [])) /\
  (forall it other, iterator_ne it other = negb (iterator_eq it other)).
Proof.
  intros Hreach Hfits elements.
  destruct (reachable_inv T T_default s Hreach) as (Hinv & _ & Hagree).
  specialize (Hagree Hfits). fold elements in Hagree.
  split; [unfold size; rewrite Hagree; reflexivity|]. split; [|split].
  - intros fuel. unfold range_for, begin_, end_, size, mbind, M_bind, bind, ret.
    rewrite Hagree. change 0 with (Z.of_nat 0).
    unfold elements. rewrite range_for_loop_spec by (try assumption; lia).
    rewrite Nat.sub_0_r. reflexivity.
  - eexists. eexists. unfold begin_, end_, size, mbind, M_bind, bind, ret.
    split; [reflexivity|]. split; [reflexivity|].
    unfold iterator_eq. cbn [m_idx m_vec]. rewrite Nat.eqb_refl, andb_true_r, Hagree.
    split.
    + intros Heq. apply Z.eqb_eq in Heq. apply nil_length_inv. lia.
    + intros ->. reflexivity.
  - intros it other. unfold iterator_ne, iterator_eq. rewrite negb_andb. reflexivity.
Qed.

End VecCapacity.



(** [pushed_elements_read_back] for five elements on a vector of
    capacity 1, which moves three times. *)
Lemma pushed_elements_witness :
  exists s0 s,
    SpmcPushVec.new_spmc_push_vec Z 1 = SpmcPushVec.Normal tt s0 /\
    VecRuns.push_all [10; 20; 30; 40; 50] s0 = SpmcPushVec.Normal tt s /\
    SpmcPushVec.at_index 3 s = SpmcPushVec.Normal 40 s.
Proof.
  destruct (pushed_elements_read_back Z 1 [10; 20; 30; 40; 50])
    as (s0 & s & Hnew & Hall & _ & Hread & _).
  - reflexivity.
  - exists s0, s. split; [exact Hnew|]. split; [exact Hall|].
    apply (Hread 3%nat). reflexivity.
Defined.

(** [iteration_visits_the_elements_in_order] on the vector of three
    elements, as in the [ForwardIteratorContract] test. *)
Lemma iteration_witness :
  exists s,
    SpmcPushVec.reachable 0 s /\
    SpmcPushVec.range_for 7 4 s = SpmcPushVec.Normal (Some [1; 2; 3]) s /\
    SpmcPushVec.range_for 7 3 s = SpmcPushVec.Normal None s.
Proof.
  destruct three_pushed as (s & Hreach & Helems & _).
  destruct (iteration_visits_the_elements_in_order Z 0 s 7 Hreach) as (_ & Hfor & _).
  - unfold Archive.fits. rewrite Helems. reflexivity.
  - exists s. split; [exact Hreach|]. rewrite !Hfor, Helems. split; reflexivity.
Defined.

(** ** The fan-out queue delivers every element to every subscriber *)

Lemma forallb_false_witness {A : Type} (f : A -> bool) (l : list A) :
  forallb f l = false -> exists x, In x l /\ f x = false.
Proof.
  induction l as [|a l IH]; cbn [forallb]; [discriminate|].
  destruct (f a) eqn:Hfa; cbn [andb].
  - intros Hl. destruct (IH Hl) as (x & Hx & Hfx). exists x. split; [right; exact Hx|exact Hfx].
  - intros _. exists a. split; [left; reflexivity|exact Hfa].
Qed.

Section FanoutBroadcast.

Import MpmcFanout.

Variable T : Type.
Variable T_default : T.
Variable sizeof_T : Z.
Variable size_policy : CacheUtils.cache_size_policy.
Hypothesis sizeof_T_pos : 1 <= sizeof_T.

Local Abbreviation holds := (Broadcast.holds sizeof_T size_policy).

Lemma broadcast_capacity (q : mpmc_fanout T) log :
  holds q log ->
  m_capacity q
  = CacheUtils.number_of_cache_lines (m_buffer q)
    * CacheUtils.elements_per_cache_line sizeof_T size_policy /\
  0 < m_capacity q < 2 ^ 64.
Proof.
  intros (Hsound & Hcap & _).
  destruct (sound_size T sizeof_T size_policy sizeof_T_pos _ Hsound) as [Hsize Hpos].
  pose proof Hsound as (_ & _ & Hfit & _).
  rewrite Hcap, Hsize. split; [reflexivity|lia].
Qed.

Lemma broadcast_size (q : mpmc_fanout T) log :
  holds q log ->
  size q = Z.of_nat (length log) - m_min_tail q /\ size q < capacity T q.
Proof.
  intros Hholds. destruct (broadcast_capacity q log Hholds) as [_ Hrange].
  destruct Hholds as (_ & _ & _ & _ & Hrh & Hmin & Hlen & _).
  cbv zeta in Hrh, Hmin, Hlen.
  unfold size, capacity, WriteConfirm.get_read_index. rewrite Hrh.
  rewrite wrap_small by lia. lia.
Qed.

Lemma broadcast_new (callback : Type) (update : callback) (d : Daemon.daemon callback)
    (L E : Z) :
  0 <= L <= 2 ^ 57 -> 0 <= E <= 2 ^ 57 ->
  (size_policy = CacheUtils.exact -> 1 <= L \/ 1 <= E) ->
  (size_policy = CacheUtils.pow2 ->
   E <= 2 ^ Z.log2_up L * CacheUtils.elements_per_cache_line sizeof_T size_policy) ->
  exists q d',
    new_mpmc_fanout T T_default sizeof_T size_policy update d L E = Ret (q, d') /\
    holds q [] /\ m_subscriptions q = [] /\ E <= capacity T q.
Proof.
  intros HL HE Hexact Hpow2.
  destruct (new_buffer_sound T T_default sizeof_T size_policy sizeof_T_pos L E
              HL HE Hexact Hpow2) as (b & Hnew & Hsound & _ & Hsize & _).
  destruct (sound_size T sizeof_T size_policy sizeof_T_pos _ Hsound) as [Hcap Hpos].
  pose proof Hsound as (_ & _ & Hfit & _).
  unfold new_mpmc_fanout. rewrite Hnew. cbn [mbind outcome_bind].
  unfold Daemon.add_callback. eexists. eexists. split; [reflexivity|].
  unfold capacity. cbn [m_capacity m_subscriptions].
  split; [|split; [reflexivity|exact Hsize]].
  unfold Broadcast.holds.
  cbn [m_buffer m_capacity m_free_capacity_needed m_write_confirmer m_min_tail
       m_subscriptions handles length WriteConfirm.new_write_confirm
       WriteConfirm.m_write_head WriteConfirm.m_read_head].
  change (Z.of_nat 0) with 0.
  split; [exact Hsound|]. split; [reflexivity|].
  split; [apply wrap_small; lia|]. split; [reflexivity|]. split; [reflexivity|].
  split; [lia|]. split; [lia|].
  split; [split; [apply NoDup_nil_2|intros p []]|].
  split; [intros p h Hh; rewrite lookup_empty in Hh; discriminate|].
  intros j x Hx. rewrite lookup_nil in Hx. discriminate.
Qed.

Lemma broadcast_push (q : mpmc_fanout T) log spurious v :
  holds q log ->
  Z.of_nat (length log) + 1 < 2 ^ 64 ->
  Z.of_nat (length log) - m_min_tail q < m_capacity q - 1 ->
  exists q',
    push spurious v q = Ret q' /\
    holds q' (log ++ [v]) /\
    m_min_tail q' = m_min_tail q /\
    m_capacity q' = m_capacity q /\
    m_subscriptions q' = m_subscriptions q /\
    handles q' = handles q.
Proof.
  intros Hholds Hnowrap Hroom.
  destruct (broadcast_capacity q log Hholds) as [HcapMK Hcaprange].
  destruct Hholds as (Hsound & Hcap & Hfree & Hwh & Hrh & Hmin & Hlen & Howned
                      & Hhandles & Helems).
  cbv zeta in Hwh, Hrh, Hmin, Hlen, Hhandles.
  unfold push, get_free_index, WriteConfirm.get_write_index. rewrite Hfree, Hwh.
  rewrite (wrap_small (Z.of_nat (length log) - m_min_tail q)) by lia.
  destruct (Z.leb_spec (m_capacity q - 1) (Z.of_nat (length log) - m_min_tail q))
    as [Hspin|_]; [lia|].
  cbn [mbind outcome_bind with_write_confirmer m_buffer].
  destruct (sound_assign_defined T sizeof_T size_policy sizeof_T_pos
              (m_buffer q) (Z.of_nat (length log)) v Hsound) as [b Hassign].
  rewrite Hassign. cbn [mbind outcome_bind].
  destruct (sound_assign T sizeof_T size_policy (m_buffer q) b _ _ Hsound Hassign)
    as [Hsound' Hlines].
  unfold update_read_head.
  cbn [with_buffer with_write_confirmer m_write_confirmer m_buffer m_min_tail m_capacity
       m_free_capacity_needed m_subscriptions handles m_callback_key].
  rewrite confirm_write_at_head by (first [split; lia | exact Hrh]).
  cbn [mbind outcome_bind WriteConfirm.m_write_head].
  rewrite (wrap_small (Z.of_nat (length log) + 1)) by lia.
  eexists. split; [reflexivity|].
  cbn [with_buffer with_write_confirmer m_write_confirmer m_buffer m_min_tail m_capacity
       m_free_capacity_needed m_subscriptions handles m_callback_key].
  split; [|repeat split; reflexivity].
  unfold Broadcast.holds.
  cbn [with_buffer with_write_confirmer m_write_confirmer m_buffer m_min_tail m_capacity
       m_free_capacity_needed m_subscriptions handles m_callback_key
       WriteConfirm.m_write_head WriteConfirm.m_read_head].
  rewrite length_app. cbn [length]. rewrite Nat2Z.inj_add. change (Z.of_nat 1) with 1.
  split; [exact Hsound'|].
  split; [rewrite Hcap; unfold CacheUtils.size; rewrite Hlines; reflexivity|].
  split; [exact Hfree|]. split; [reflexivity|]. split; [reflexivity|].
  split; [lia|]. split; [lia|]. split; [exact Howned|].
  split.
  - intros p h Hh. destruct (Hhandles p h Hh) as [Hp Ht]. split; [exact Hp|lia].
  - intros j x Hx Hj.
    destruct (Nat.lt_ge_cases j (length log)) as [Hlt|Hge].
    + rewrite lookup_app_l in Hx by exact Hlt.
      rewrite (sound_assign_other T sizeof_T size_policy sizeof_T_pos
                 (m_buffer q) b (Z.of_nat (length log)) (Z.of_nat j) v Hsound Hassign).
      * apply Helems; assumption.
      * rewrite <- HcapMK. apply apart_not_congruent. lia.
    + rewrite lookup_app_r in Hx by exact Hge.
      destruct (j - length log)%nat as [|n] eqn:Hn; [|destruct n; discriminate].
      injection Hx as <-.
      replace (Z.of_nat j) with (Z.of_nat (length log)) by lia.
      eapply get_of_defined_assign. exact Hassign.
Qed.

Lemma broadcast_push_full (q : mpmc_fanout T) log spurious v :
  holds q log ->
  m_capacity q - 1 <= Z.of_nat (length log) - m_min_tail q ->
  push spurious v q = Spins.
Proof.
  intros Hholds Hfull.
  destruct (broadcast_capacity q log Hholds) as [_ Hcaprange].
  destruct Hholds as (_ & _ & Hfree & Hwh & _ & Hmin & Hlen & _).
  cbv zeta in Hwh, Hmin, Hlen.
  unfold push, get_free_index, WriteConfirm.get_write_index. rewrite Hfree, Hwh.
  rewrite (wrap_small (Z.of_nat (length log) - m_min_tail q)) by lia.
  destruct (Z.leb_spec (m_capacity q - 1) (Z.of_nat (length log) - m_min_tail q))
    as [_|Hroom]; [reflexivity|lia].
Qed.

Lemma broadcast_pop (q : mpmc_fanout T) log sub h out :
  holds q log ->
  Z.of_nat (length log) + 1 < 2 ^ 64 ->
  handles q !! sub = Some h ->
  match log !! Z.to_nat (h_tail h) with
  | None => pop sub out q = Ret (false, out, q)
  | Some x =>
      exists q',
        pop sub out q = Ret (true, x, q') /\
        holds q' log /\
        handles q'
        = <[sub := {| h_tail := h_tail h + 1; h_subscribed := h_subscribed h |}]> (handles q) /\
        m_min_tail q' = m_min_tail q /\
        m_capacity q' = m_capacity q /\
        m_subscriptions q' = m_subscriptions q
  end.
Proof.
  intros Hholds Hnowrap Hh.
  destruct Hholds as (Hsound & Hcap & Hfree & Hwh & Hrh & Hmin & Hlen & Howned
                      & Hhandles & Helems).
  cbv zeta in Hwh, Hrh, Hmin, Hlen, Hhandles.
  destruct (Hhandles sub h Hh) as [Hsub Htail].
  unfold pop, WriteConfirm.get_read_index. rewrite Hh, Hrh.
  destruct (log !! Z.to_nat (h_tail h)) as [x|] eqn:Hx.
  - pose proof (lookup_lt_Some _ _ _ Hx) as Hlt.
    destruct (Z.leb_spec (Z.of_nat (length log)) (h_tail h)) as [Hle|_]; [lia|].
    pose proof (Helems (Z.to_nat (h_tail h)) x Hx) as Hget.
    rewrite Z2Nat.id in Hget by lia. rewrite Hget by lia.
    cbn [mbind outcome_bind]. rewrite (wrap_small (h_tail h + 1)) by lia.
    eexists. split; [reflexivity|].
    cbn [with_subscriptions m_write_confirmer m_buffer m_min_tail m_capacity
         m_free_capacity_needed m_subscriptions handles m_callback_key].
    split; [|repeat split; reflexivity].
    unfold Broadcast.holds.
    cbn [with_subscriptions m_write_confirmer m_buffer m_min_tail m_capacity
         m_free_capacity_needed m_subscriptions handles m_callback_key].
    split; [exact Hsound|]. split; [exact Hcap|]. split; [exact Hfree|].
    split; [exact Hwh|]. split; [exact Hrh|]. split; [exact Hmin|].
    split; [exact Hlen|].
    split; [apply owned_insert_present; [exact Howned|rewrite Hh; eauto]|].
    split; [|exact Helems].
    intros p h' Hp. destruct (decide (sub = p)) as [<-|Hne].
    + rewrite lookup_insert_eq in Hp. injection Hp as <-. cbn [h_tail].
      split; [exact Hsub|lia].
    + rewrite lookup_insert_ne in Hp by exact Hne. apply Hhandles. exact Hp.
  - apply lookup_ge_None_1 in Hx.
    destruct (Z.leb_spec (Z.of_nat (length log)) (h_tail h)) as [_|Hgt];
      [reflexivity|lia].
Qed.

Lemma broadcast_subscribe (q : mpmc_fanout T) log :
  holds q log ->
  holds (snd (subscribe q)) log /\
  handles q !! fst (subscribe q) = None /\
  handles (snd (subscribe q))
  = <[fst (subscribe q) := {| h_tail := Z.of_nat (length log); h_subscribed := true |}]>
      (handles q) /\
  m_subscriptions (snd (subscribe q)) = m_subscriptions q ++ [fst (subscribe q)] /\
  m_min_tail (snd (subscribe q)) = m_min_tail q.
Proof.
  intros (Hsound & Hcap & Hfree & Hwh & Hrh & Hmin & Hlen & Howned & Hhandles & Helems).
  cbv zeta in Hwh, Hrh, Hmin, Hlen, Hhandles.
  unfold subscribe, WriteConfirm.get_read_index. cbn [fst snd]. rewrite Hrh.
  cbn [with_subscriptions m_write_confirmer m_buffer m_min_tail m_capacity
       m_free_capacity_needed m_subscriptions handles m_callback_key].
  assert (handles q !! fresh (dom (handles q)) = None) as Hfresh.
  { apply not_elem_of_dom. apply is_fresh. }
  split; [|repeat split; try reflexivity; exact Hfresh].
  unfold Broadcast.holds.
  cbn [with_subscriptions m_write_confirmer m_buffer m_min_tail m_capacity
       m_free_capacity_needed m_subscriptions handles m_callback_key].
  split; [exact Hsound|]. split; [exact Hcap|]. split; [exact Hfree|].
  split; [exact Hwh|]. split; [exact Hrh|]. split; [exact Hmin|].
  split; [exact Hlen|]. destruct Howned as [Hnodup Hvalid].
  split; [split|split; [|exact Helems]].
  - apply NoDup_app. split; [exact Hnodup|]. split; [|apply NoDup_singleton].
    intros p Hp Hq. apply list_elem_of_singleton in Hq. subst p.
    apply list_elem_of_In in Hp. destruct (Hvalid _ Hp) as [h Hh].
    rewrite Hfresh in Hh. discriminate.
  - intros p Hp. destruct (decide (fresh (dom (handles q)) = p)) as [<-|Hne].
    + rewrite lookup_insert_eq. eauto.
    + rewrite lookup_insert_ne by exact Hne. apply in_app_or in Hp.
      destruct Hp as [Hp|[Hp|[]]]; [apply Hvalid; exact Hp|contradiction].
  - intros p h Hp. destruct (decide (fresh (dom (handles q)) = p)) as [<-|Hne].
    + rewrite lookup_insert_eq in Hp. injection Hp as <-. cbn [h_tail].
      split; [apply in_or_app; right; left; reflexivity|lia].
    + rewrite lookup_insert_ne in Hp by exact Hne.
      destruct (Hhandles p h Hp) as [Hin Ht].
      split; [apply in_or_app; left; exact Hin|exact Ht].
Qed.

Lemma broadcast_unsubscribe (q : mpmc_fanout T) log sub h :
  holds q log ->
  handles q !! sub = Some h ->
  exists q',
    unsubscribe sub q = Ret q' /\
    holds q' log /\
    handles q' = <[sub := {| h_tail := h_tail h; h_subscribed := false |}]> (handles q) /\
    m_subscriptions q' = m_subscriptions q /\
    m_min_tail q' = m_min_tail q.
Proof.
  intros (Hsound & Hcap & Hfree & Hwh & Hrh & Hmin & Hlen & Howned & Hhandles & Helems) Hh.
  cbv zeta in Hwh, Hrh, Hmin, Hlen, Hhandles.
  unfold unsubscribe. rewrite Hh. eexists. split; [reflexivity|].
  cbn [with_subscriptions m_write_confirmer m_buffer m_min_tail m_capacity
       m_free_capacity_needed m_subscriptions handles m_callback_key].
  split; [|repeat split; reflexivity].
  unfold Broadcast.holds.
  cbn [with_subscriptions m_write_confirmer m_buffer m_min_tail m_capacity
       m_free_capacity_needed m_subscriptions handles m_callback_key].
  split; [exact Hsound|]. split; [exact Hcap|]. split; [exact Hfree|].
  split; [exact Hwh|]. split; [exact Hrh|]. split; [exact Hmin|].
  split; [exact Hlen|].
  split; [apply owned_insert_present; [exact Howned|rewrite Hh; eauto]|].
  split; [|exact Helems].
  intros p h' Hp. destruct (decide (sub = p)) as [<-|Hne].
  - rewrite lookup_insert_eq in Hp. injection Hp as <-. cbn [h_tail].
    apply Hhandles. exact Hh.
  - rewrite lookup_insert_ne in Hp by exact Hne. apply Hhandles. exact Hp.
Qed.

Lemma broadcast_update_min_tail (q : mpmc_fanout T) log :
  holds q log ->
  exists q',
    update_min_tail q = Ret q' /\
    holds q' log /\
    m_min_tail q <= m_min_tail q' /\
    m_capacity q' = m_capacity q /\
    m_subscriptions q' = List.filter (Fanout.is_live (handles q)) (m_subscriptions q) /\
    (forall p, In p (m_subscriptions q') -> handles q' !! p = handles q !! p) /\
    (forall p, In p (m_subscriptions q') ->
               m_min_tail q' <= Fanout.tail_of (handles q) p) /\
    (m_min_tail q' = Z.of_nat (length log) \/
     exists p, In p (m_subscriptions q') /\
               m_min_tail q' = Fanout.tail_of (handles q) p).
Proof.
  intros (Hsound & Hcap & Hfree & Hwh & Hrh & Hmin & Hlen & Howned & Hhandles & Helems).
  cbv zeta in Hwh, Hrh, Hmin, Hlen, Hhandles.
  unfold update_min_tail, WriteConfirm.get_read_index. rewrite Hrh.
  destruct (update_min_tail_walk_spec (m_subscriptions q) (handles q)
              (Z.of_nat (length log)) Howned)
    as (m & kept & hs' & Hwalk & Hkept & Hdead & Hkeep & Hle & Hbelow & Hattained).
  rewrite Hwalk. cbn [mbind outcome_bind]. eexists. split; [reflexivity|].
  cbn [with_subscriptions m_write_confirmer m_buffer m_min_tail m_capacity
       m_free_capacity_needed m_subscriptions handles m_callback_key].
  assert (forall p, In p kept -> In p (m_subscriptions q) /\
                                 Fanout.is_live (handles q) p = true) as Hkept_in.
  { intros p Hp. rewrite Hkept in Hp. apply filter_In in Hp. exact Hp. }
  assert (forall p, In p kept -> exists h, handles q !! p = Some h /\
                                            Fanout.tail_of (handles q) p = h_tail h)
    as Hkept_handle.
  { intros p Hp. destruct (Hkept_in p Hp) as [Hin _].
    destruct Howned as [_ Hvalid]. destruct (Hvalid p Hin) as [h Hh].
    exists h. split; [exact Hh|]. unfold Fanout.tail_of. rewrite Hh. reflexivity. }
  assert (m_min_tail q <= m) as Hgrow.
  { destruct Hattained as [->|(p & Hp & ->)]; [lia|].
    destruct (Hkept_handle p Hp) as (h & Hh & ->).
    apply (Hhandles p h Hh). }
  split; [|split; [exact Hgrow|split; [reflexivity|split; [exact Hkept|split;
            [|split; [exact Hbelow|exact Hattained]]]]]].
  - unfold Broadcast.holds.
    cbn [with_subscriptions m_write_confirmer m_buffer m_min_tail m_capacity
         m_free_capacity_needed m_subscriptions handles m_callback_key].
    split; [exact Hsound|]. split; [exact Hcap|]. split; [exact Hfree|].
    split; [exact Hwh|]. split; [exact Hrh|]. split; [lia|]. split; [lia|].
    split; [|split].
    + destruct Howned as [Hnodup Hvalid]. rewrite Hkept. split.
      * apply NoDup_ListNoDup. apply List.NoDup_filter.
        apply NoDup_ListNoDup. exact Hnodup.
      * intros p Hp. apply filter_In in Hp. destruct Hp as [Hp Hlive].
        rewrite Hkeep by (right; exact Hlive). apply Hvalid. exact Hp.
    + intros p h Hp.
      destruct (in_dec Nat.eq_dec p (m_subscriptions q)) as [Hin|Hout].
      * destruct (Fanout.is_live (handles q) p) eqn:Hlive.
        -- rewrite Hkeep in Hp by (right; exact Hlive).
           assert (In p kept) as Hpk.
           { rewrite Hkept. apply filter_In. split; assumption. }
           split; [exact Hpk|].
           pose proof (Hbelow p Hpk) as Hb. unfold Fanout.tail_of in Hb.
           rewrite Hp in Hb. unfold get_tail in Hb.
           destruct (Hhandles p h Hp) as [_ Ht]. lia.
        -- rewrite (Hdead p Hin Hlive) in Hp. discriminate.
      * rewrite Hkeep in Hp by (left; exact Hout).
        destruct (Hhandles p h Hp) as [Hin _]. contradiction.
    + intros j x Hx Hj. apply Helems; [exact Hx|lia].
  - intros p Hp. apply Hkeep. right. apply (Hkept_in p Hp).
Qed.

(** X25: the fan-out queue keeps every element until the daemon has
    seen every subscriber past it.  After the pushes of [log]: [size()]
    is the number of elements pushed since [m_min_tail] and is below
    [capacity()]; [push(v)] returns and appends [v] when fewer than
    [capacity() - 1] elements are pending, and busy-waits otherwise;
    [pop] on a handle whose tail is [t] returns false when [t] elements
    were pushed and otherwise yields the [t]-th element pushed and moves
    the tail to [t + 1]; [subscribe()] gives a handle whose tail is at
    the end of [log]; and [unsubscribe] and [update_min_tail] lose no
    pending element.  The constructor gives such a queue with nothing
    pushed.  (Fewer than [2^64 - 1] pushes.) *)
Theorem fanout_delivers_in_push_order (q : mpmc_fanout T) (log : list T) :
  holds q log ->
  Z.of_nat (length log) + 1 < 2 ^ 64 ->
  (size q = Z.of_nat (length log) - m_min_tail q /\ size q < capacity T q) /\
  (forall spurious v,
      if size q <? capacity T q - 1
      then exists q',
          push spurious v q = Ret q' /\ holds q' (log ++ [v]) /\
          handles q' = handles q
      else push spurious v q = Spins) /\
  (forall sub h out,
      handles q !! sub = Some h ->
      match log !! Z.to_nat (h_tail h) with
      | None => pop sub out q = Ret (false, out, q)
      | Some x =>
          exists q',
            pop sub out q = Ret (true, x, q') /\
            holds q' log /\
            handles q'
            = <[sub := {| h_tail := h_tail h + 1; h_subscribed := h_subscribed h |}]>
                (handles q)
      end) /\
  (holds (snd (subscribe q)) log /\
   handles q !! fst (subscribe q) = None /\
   handles (snd (subscribe q))
   = <[fst (subscribe q) := {| h_tail := Z.of_nat (length log); h_subscribed := true |}]>
       (handles q)) /\
  (forall sub h,
      handles q !! sub = Some h ->
      exists q',
        unsubscribe sub q = Ret q' /\ holds q' log /\
        handles q' = <[sub := {| h_tail := h_tail h; h_subscribed := false |}]> (handles q)) /\
  (exists q',
      update_min_tail q = Ret q' /\ holds q' log /\
      forall p, In p (m_subscriptions q') -> handles q' !! p = handles q !! p) /\
  (forall (callback : Type) (update : callback) d min_cache_lines min_elements,
      0 <= min_cache_lines <= 2 ^ 57 -> 0 <= min_elements <= 2 ^ 57 ->
      (size_policy = CacheUtils.exact -> 1 <= min_cache_lines \/ 1 <= min_elements) ->
      (size_policy = CacheUtils.pow2 ->
       min_elements <= 2 ^ Z.log2_up min_cache_lines
                       * CacheUtils.elements_per_cache_line sizeof_T size_policy) ->
      exists q0 d',
        new_mpmc_fanout T T_default sizeof_T size_policy update d
          min_cache_lines min_elements = Ret (q0, d') /\
        holds q0 [] /\ m_subscriptions q0 = []).
Proof.
  intros Hholds Hnowrap.
  destruct (broadcast_size q log Hholds) as [Hsize Hbelow].
  split; [split; assumption|]. split; [|split; [|split; [|split; [|split]]]].
  - intros spurious v. unfold capacity in *.
    destruct (Z.ltb_spec (size q) (m_capacity q - 1)) as [Hroom|Hfull].
    + destruct (broadcast_push q log spurious v Hholds Hnowrap)
        as (q' & Hpush & Hholds' & _ & _ & _ & Hhandles); [lia|].
      exists q'. split; [exact Hpush|]. split; [exact Hholds'|exact Hhandles].
    + apply (broadcast_push_full q log); [exact Hholds|lia].
  - intros sub h out Hh.
    pose proof (broadcast_pop q log sub h out Hholds Hnowrap Hh) as Hpop.
    destruct (log !! Z.to_nat (h_tail h)) as [x|]; [|exact Hpop].
    destruct Hpop as (q' & Hpop & Hholds' & Hhandles & _).
    exists q'. split; [exact Hpop|]. split; [exact Hholds'|exact Hhandles].
  - destruct (broadcast_subscribe q log Hholds) as (Hholds' & Hfresh & Hhandles & _).
    split; [exact Hholds'|]. split; [exact Hfresh|exact Hhandles].
  - intros sub h Hh.
    destruct (broadcast_unsubscribe q log sub h Hholds Hh)
      as (q' & Hunsub & Hholds' & Hhandles & _).
    exists q'. split; [exact Hunsub|]. split; [exact Hholds'|exact Hhandles].
  - destruct (broadcast_update_min_tail q log Hholds)
      as (q' & Hupd & Hholds' & _ & _ & _ & Hsame & _).
    exists q'. split; [exact Hupd|]. split; [exact Hholds'|exact Hsame].
  - intros callback update d L E HL HE Hexact Hpow2.
    destruct (broadcast_new callback update d L E HL HE Hexact Hpow2)
      as (q0 & d' & Hnew & Hholds0 & Hsubs & _).
    exists q0, d'. split; [exact Hnew|]. split; [exact Hholds0|exact Hsubs].
Qed.

(** X26: a [pop] frees no slot: only the daemon's [update_min_tail]
    does.  On a full queue (capacity above 1) [push] busy-waits, and
    still does after any [pop]; once [update_min_tail] has run it returns
    if every subscriber the pass kept (if any) has its tail past the old
    [m_min_tail], and busy-waits if one of them has not. *)
Theorem full_queue_waits_for_the_daemon (q : mpmc_fanout T) (log : list T) :
  holds q log ->
  Z.of_nat (length log) + 1 < 2 ^ 64 ->
  size q = capacity T q - 1 ->
  1 < capacity T q ->
  (forall spurious v, push spurious v q = Spins) /\
  (forall sub out ok x q',
      pop sub out q = Ret (ok, x, q') ->
      forall spurious v, push spurious v q' = Spins) /\
  (exists q',
      update_min_tail q = Ret q' /\
      forall spurious v,
        if forallb (fun p => m_min_tail q <? Fanout.tail_of (handles q) p)
             (m_subscriptions q')
        then exists q'', push spurious v q' = Ret q''
        else push spurious v q' = Spins).
Proof.
  intros Hholds Hnowrap Hfull Hcap.
  destruct (broadcast_size q log Hholds) as [Hsize _].
  unfold capacity in *. split; [|split].
  - intros spurious v. apply (broadcast_push_full q log); [exact Hholds|lia].
  - intros sub out ok x q' Hpop spurious v.
    destruct (handles q !! sub) as [h|] eqn:Hh;
      [|unfold pop in Hpop; rewrite Hh in Hpop; discriminate].
    pose proof (broadcast_pop q log sub h out Hholds Hnowrap Hh) as Hspec.
    destruct (log !! Z.to_nat (h_tail h)) as [y|].
    + destruct Hspec as (q1 & Hpop1 & Hholds1 & _ & Hmin1 & Hcap1 & _).
      rewrite Hpop1 in Hpop. injection Hpop as _ _ <-.
      apply (broadcast_push_full q1 log); [exact Hholds1|]. rewrite Hmin1, Hcap1. lia.
    + rewrite Hspec in Hpop. injection Hpop as _ _ <-.
      apply (broadcast_push_full q log); [exact Hholds|lia].
  - destruct (broadcast_update_min_tail q log Hholds)
      as (q' & Hupd & Hholds' & Hgrow & Hcap' & _ & _ & Hbelow & Hattained).
    exists q'. split; [exact Hupd|]. intros spurious v.
    destruct (forallb _ _) eqn:Hall.
    + rewrite forallb_forall in Hall.
      destruct (broadcast_push q' log spurious v Hholds' Hnowrap) as (q'' & Hpush & _).
      * rewrite Hcap'. destruct Hattained as [->|(p & Hp & ->)]; [lia|].
        specialize (Hall p Hp). apply Z.ltb_lt in Hall. lia.
      * exists q''. exact Hpush.
    + apply (broadcast_push_full q' log); [exact Hholds'|]. rewrite Hcap'.
      assert (m_min_tail q' <= m_min_tail q); [|lia].
      destruct (forallb_false_witness _ _ Hall) as (p & Hp & Htest).
      apply Z.ltb_ge in Htest. specialize (Hbelow p Hp). lia.
Qed.

End FanoutBroadcast.

Lemma filter_all_true {A : Type} (f : A -> bool) (l : list A) :
  (forall x, In x l -> f x = true) -> List.filter f l = l.
Proof.
  induction l as [|a l IH]; intros Hall; [reflexivity|].
  cbn [List.filter]. rewrite (Hall a (or_introl eq_refl)).
  rewrite IH; [reflexivity|]. intros x Hx. apply Hall. right. exact Hx.
Qed.

(** X27: a second pass of the daemon with nothing in between changes
    nothing: after [update_min_tail] a further [update_min_tail] returns
    the same queue, so any number of passes in a row leaves what the
    first one left. *)
Theorem daemon_passes_settle (T : Type) (q : MpmcFanout.mpmc_fanout T) :
  Fanout.owned (MpmcFanout.m_subscriptions q) (MpmcFanout.handles q) ->
  exists q',
    MpmcFanout.update_min_tail q = Ret q' /\
    MpmcFanout.update_min_tail q' = Ret q' /\
    forall n, MpmcFanout.daemon_passes (S n) q = Ret q'.
Proof.
  intros Howned.
  destruct (update_min_tail_walk_spec
              (MpmcFanout.m_subscriptions q) (MpmcFanout.handles q)
              (WriteConfirm.get_read_index (MpmcFanout.m_write_confirmer q)) Howned)
    as (m & kept & hs' & Hwalk & Hkept & Hdead & Hkeep & Hle & Hbelow & Hattained).
  assert (forall p, In p kept ->
                    In p (MpmcFanout.m_subscriptions q) /\
                    Fanout.is_live (MpmcFanout.handles q) p = true) as Hkept_in.
  { intros p Hp. rewrite Hkept in Hp. apply filter_In in Hp. exact Hp. }
  assert (forall p, In p kept -> hs' !! p = MpmcFanout.handles q !! p) as Hsame.
  { intros p Hp. apply Hkeep. right. apply (Hkept_in p Hp). }
  assert (forall p, In p kept -> Fanout.is_live hs' p = true) as Hlive'.
  { intros p Hp. unfold Fanout.is_live. rewrite (Hsame p Hp). apply (Hkept_in p Hp). }
  assert (forall p, In p kept ->
                    Fanout.tail_of hs' p = Fanout.tail_of (MpmcFanout.handles q) p)
    as Htail'.
  { intros p Hp. unfold Fanout.tail_of. rewrite (Hsame p Hp). reflexivity. }
  assert (Fanout.owned kept hs') as Howned'.
  { destruct Howned as [Hnodup Hvalid]. split.
    - rewrite Hkept. apply NoDup_ListNoDup. apply List.NoDup_filter.
      apply NoDup_ListNoDup. exact Hnodup.
    - intros p Hp. rewrite (Hsame p Hp). apply Hvalid. apply (Hkept_in p Hp). }
  destruct (update_min_tail_walk_spec kept hs'
              (WriteConfirm.get_read_index (MpmcFanout.m_write_confirmer q)) Howned')
    as (m2 & kept2 & hs2 & Hwalk2 & Hkept2 & _ & Hkeep2 & Hle2 & Hbelow2 & Hattained2).
  assert (kept2 = kept) as ->.
  { rewrite Hkept2. apply filter_all_true. exact Hlive'. }
  assert (hs2 = hs') as ->.
  { apply map_eq. intros p. apply Hkeep2.
    destruct (in_dec Nat.eq_dec p kept) as [Hp|Hp]; [right; apply Hlive'; exact Hp|left; exact Hp]. }
  assert (m2 = m) as ->.
  { apply Z.le_antisymm.
    - destruct Hattained as [->|(p & Hp & ->)]; [exact Hle2|].
      rewrite <- (Htail' p Hp). apply Hbelow2. exact Hp.
    - destruct Hattained2 as [->|(p & Hp & ->)]; [exact Hle|].
      rewrite (Htail' p Hp). apply Hbelow. exact Hp. }
  assert (MpmcFanout.update_min_tail q
          = Ret (MpmcFanout.with_subscriptions kept hs' m q)) as Hfirst.
  { unfold MpmcFanout.update_min_tail. rewrite Hwalk. reflexivity. }
  assert (MpmcFanout.update_min_tail (MpmcFanout.with_subscriptions kept hs' m q)
          = Ret (MpmcFanout.with_subscriptions kept hs' m q)) as Hsecond.
  { unfold MpmcFanout.update_min_tail.
    cbn [MpmcFanout.with_subscriptions MpmcFanout.m_write_confirmer
         MpmcFanout.m_subscriptions MpmcFanout.handles].
    rewrite Hwalk2. reflexivity. }
  exists (MpmcFanout.with_subscriptions kept hs' m q).
  split; [exact Hfirst|]. split; [exact Hsecond|].
  intros n. cbn [MpmcFanout.daemon_passes]. rewrite Hfirst. cbn [mbind outcome_bind].
  induction n as [|n IH]; [reflexivity|].
  cbn [MpmcFanout.daemon_passes]. rewrite Hsecond. cbn [mbind outcome_bind]. exact IH.
Qed.

Lemma broadcast_push_all (values : list Z) :
  forall (q : MpmcFanout.mpmc_fanout Z) (log : list Z),
    Broadcast.holds 4 CacheUtils.pow2 q log ->
    Z.of_nat (length log) + Z.of_nat (length values) + 1 < 2 ^ 64 ->
    Z.of_nat (length log) + Z.of_nat (length values) - MpmcFanout.m_min_tail q
    < MpmcFanout.m_capacity q ->
    exists q',
      FanoutExamples.push_all values q = Ret q' /\
      Broadcast.holds 4 CacheUtils.pow2 q' (log ++ values) /\
      MpmcFanout.m_min_tail q' = MpmcFanout.m_min_tail q /\
      MpmcFanout.m_capacity q' = MpmcFanout.m_capacity q /\
      MpmcFanout.m_subscriptions q' = MpmcFanout.m_subscriptions q.
Proof.
  induction values as [|v values IH]; intros q log Hholds Hnowrap Hroom.
  - exists q. rewrite app_nil_r. split; [reflexivity|]. split; [exact Hholds|].
    split; [reflexivity|]. split; reflexivity.
  - cbn [length] in Hnowrap, Hroom. rewrite Nat2Z.inj_succ in Hnowrap, Hroom.
    destruct (broadcast_push Z 4 CacheUtils.pow2 ltac:(lia) q log [] v Hholds)
      as (q1 & Hpush & Hholds1 & Hmin1 & Hcap1 & Hsubs1 & _); [lia|lia|].
    destruct (IH q1 (log ++ [v]) Hholds1) as (q' & Hall & Hholds' & Hmin' & Hcap' & Hsubs').
    + rewrite length_app. cbn [length]. lia.
    + rewrite length_app, Hmin1, Hcap1. cbn [length]. lia.
    + exists q'. cbn [FanoutExamples.push_all]. rewrite Hpush. cbn [mbind outcome_bind].
      split; [exact Hall|]. rewrite <- app_assoc in Hholds'.
      split; [exact Hholds'|]. split; [congruence|]. split; congruence.
Qed.

Lemma int_fanout_1_8 :
  exists q,
    FanoutExamples.int_fanout 1 8 = Ret q /\
    Broadcast.holds 4 CacheUtils.pow2 q [] /\
    MpmcFanout.m_subscriptions q = [] /\
    MpmcFanout.m_capacity q = 16.
Proof.
  assert (exists q, FanoutExamples.int_fanout 1 8 = Ret q /\ MpmcFanout.m_capacity q = 16)
    as (q & Hq & Hcap).
  { eexists. split; [vm_compute; reflexivity|]. vm_compute. reflexivity. }
  destruct (broadcast_new Z 0 4 CacheUtils.pow2 ltac:(lia) unit tt
              (Daemon.new_daemon unit) 1 8)
    as (q0 & d' & Hnew & Hholds & Hsubs & _);
    [lia|lia|discriminate|intros _; vm_compute; discriminate|].
  unfold FanoutExamples.int_fanout in Hq. rewrite Hnew in Hq.
  cbn [mbind outcome_bind] in Hq. injection Hq as ->.
  exists q. split; [|split; [exact Hholds|split; [exact Hsubs|exact Hcap]]].
  unfold FanoutExamples.int_fanout. rewrite Hnew. reflexivity.
Qed.

(** [fanout_delivers_in_push_order] on [mpmc_fanout<int> q(1, 8)]: a
    subscriber pops the element pushed after it subscribed. *)
Lemma fanout_delivers_witness :
  exists q q2 q3,
    FanoutExamples.int_fanout 1 8 = Ret q /\
    MpmcFanout.push [] 7 (snd (MpmcFanout.subscribe q)) = Ret q2 /\
    MpmcFanout.pop (fst (MpmcFanout.subscribe q)) 0 q2 = Ret (true, 7, q3).
Proof.
  destruct int_fanout_1_8 as (q & Hq & Hholds & _ & Hcap).
  destruct (fanout_delivers_in_push_order Z 0 4 CacheUtils.pow2 ltac:(lia) q [] Hholds)
    as (_ & _ & _ & (Hholds1 & _ & Hhandles1) & _); [reflexivity|].
  assert (MpmcFanout.m_capacity (snd (MpmcFanout.subscribe q)) = 16) as Hcap1
      by exact Hcap.
  destruct (fanout_delivers_in_push_order Z 0 4 CacheUtils.pow2 ltac:(lia)
              (snd (MpmcFanout.subscribe q)) [] Hholds1)
    as ((Hsize1 & _) & Hpush & _); [reflexivity|].
  specialize (Hpush [] 7). unfold MpmcFanout.capacity in Hpush.
  rewrite Hsize1, Hcap1 in Hpush.
  assert (MpmcFanout.m_min_tail (snd (MpmcFanout.subscribe q)) = 0) as Hmin1.
  { destruct Hholds1 as (_ & _ & _ & _ & _ & Hmin & _). cbn [length] in Hmin.
    change (Z.of_nat 0) with 0 in Hmin. lia. }
  rewrite Hmin1 in Hpush. cbn [length] in Hpush. change (Z.of_nat 0 - 0 <? 16 - 1) with true in Hpush.
  destruct Hpush as (q2 & Hpush & Hholds2 & Hhandles2).
  destruct (fanout_delivers_in_push_order Z 0 4 CacheUtils.pow2 ltac:(lia)
              q2 ([] ++ [7]) Hholds2)
    as (_ & _ & Hpop & _); [reflexivity|].
  specialize (Hpop (fst (MpmcFanout.subscribe q))
                {| MpmcFanout.h_tail := Z.of_nat (length (@nil Z));
                   MpmcFanout.h_subscribed := true |} 0).
  rewrite Hhandles2, Hhandles1, lookup_insert_eq in Hpop. specialize (Hpop eq_refl).
  cbn in Hpop. destruct Hpop as (q3 & Hpop & _).
  exists q, q2, q3. split; [exact Hq|]. split; [exact Hpush|exact Hpop].
Defined.

(** [full_queue_waits_for_the_daemon] on [mpmc_fanout<int> q(1, 8)],
    whose capacity is 16, after 15 pushes and with no subscriber. *)
Lemma full_queue_witness :
  exists q q1 q2 q3,
    FanoutExamples.int_fanout 1 8 = Ret q /\
    FanoutExamples.push_all [0; 1; 2; 3; 4; 5; 6; 7; 8; 9; 10; 11; 12; 13; 14] q = Ret q1 /\
    MpmcFanout.push [] 15 q1 = Spins /\
    MpmcFanout.update_min_tail q1 = Ret q2 /\
    MpmcFanout.push [] 15 q2 = Ret q3.
Proof.
  destruct int_fanout_1_8 as (q & Hq & Hholds & Hsubs & Hcap).
  assert (MpmcFanout.m_min_tail q = 0) as Hmin.
  { destruct Hholds as (_ & _ & _ & _ & _ & Hmin & _). cbn [length] in Hmin.
    change (Z.of_nat 0) with 0 in Hmin. lia. }
  destruct (broadcast_push_all [0; 1; 2; 3; 4; 5; 6; 7; 8; 9; 10; 11; 12; 13; 14] q []
              Hholds)
    as (q1 & Hall & Hholds1 & Hmin1 & Hcap1 & Hsubs1).
  { reflexivity. }
  { rewrite Hmin, Hcap. reflexivity. }
  cbn [app] in Hholds1.
  destruct (broadcast_size Z 4 CacheUtils.pow2 ltac:(lia) q1 _ Hholds1) as [Hsize1 _].
  destruct (broadcast_update_min_tail Z 4 CacheUtils.pow2 q1 _ Hholds1)
    as (q2' & Hupd' & _ & _ & _ & Hkept & _).
  destruct (full_queue_waits_for_the_daemon Z 4 CacheUtils.pow2 ltac:(lia) q1 _ Hholds1)
    as (Hspins & _ & (q2 & Hupd & Hafter)).
  - reflexivity.
  - unfold MpmcFanout.capacity. rewrite Hsize1, Hmin1, Hmin, Hcap1, Hcap. reflexivity.
  - unfold MpmcFanout.capacity. rewrite Hcap1, Hcap. reflexivity.
  - specialize (Hafter [] 15).
    rewrite Hupd in Hupd'. injection Hupd' as <-.
    rewrite Hkept, Hsubs1, Hsubs in Hafter. cbn [List.filter forallb] in Hafter.
    destruct Hafter as (q3 & Hpush).
    exists q, q1, q2, q3. split; [exact Hq|]. split; [exact Hall|].
    split; [apply Hspins|]. split; [exact Hupd|exact Hpush].
Defined.

(** [daemon_passes_settle] on the queue of the [UnsubscribeAndCleanup]
    test after [sub2->unsubscribe()]: the first pass drops the second
    handle, three passes leave the same queue. *)
Lemma daemon_passes_witness :
  exists q q',
    FanoutExamples.after_unsubscribe = Ret q /\
    MpmcFanout.update_min_tail q = Ret q' /\
    MpmcFanout.daemon_passes 3 q = Ret q'.
Proof.
  assert (exists q,
             FanoutExamples.after_unsubscribe = Ret q /\
             MpmcFanout.m_subscriptions q = [0%nat; 1%nat] /\
             MpmcFanout.handles q !! 0%nat
             = Some {| MpmcFanout.h_tail := 10; MpmcFanout.h_subscribed := true |} /\
             MpmcFanout.handles q !! 1%nat
             = Some {| MpmcFanout.h_tail := 1; MpmcFanout.h_subscribed := false |})
    as (q & Hq & Hsubs & H0 & H1).
  { eexists. split; [vm_compute; reflexivity|].
    split; [vm_compute; reflexivity|]. split; [vm_compute; reflexivity|].
    vm_compute. reflexivity. }
  assert (Fanout.owned (MpmcFanout.m_subscriptions q) (MpmcFanout.handles q)) as Howned.
  { rewrite Hsubs. split.
    - apply NoDup_cons. split; [|apply NoDup_singleton].
      intros Hin. apply list_elem_of_In in Hin. destruct Hin as [Hin|[]]. discriminate.
    - intros p [<-|[<-|[]]]; eauto. }
  destruct (daemon_passes_settle Z q Howned) as (q' & Hfirst & _ & Hpasses).
  exists q, q'. split; [exact Hq|]. split; [exact Hfirst|apply Hpasses].
Defined.

(** X28: [push_back] moves to a new backing vector exactly when the
    active one is full and doubling its capacity gives more.  Below
    capacity it fills the active vector in place; at a capacity [c] with
    [0 < c < 2^63] it appends a new backing vector of capacity [2 * c] to
    the archive and leaves the old one as it is; at capacity 0, where
    twice the capacity is no more, it stays on the active vector, whose
    capacity changes: the [std::vector] itself reallocates.  (The vector
    holds fewer than [2^64] elements.) *)
Theorem push_back_doubles_a_full_vector
    (T : Type) (T_default : T) (s : SpmcPushVec.spmc_push_vec T) (element : T) (c : Z) :
  SpmcPushVec.reachable T_default s ->
  Archive.fits s ->
  SpmcPushVec.capacity s = SpmcPushVec.Normal c s ->
  exists s' c',
    SpmcPushVec.push_back T element s = SpmcPushVec.Normal tt s' /\
    SpmcPushVec.capacity s' = SpmcPushVec.Normal c' s' /\
    SpmcPushVec.m_size s <= c /\
    (SpmcPushVec.m_size s < c ->
     SpmcPushVec.m_current_vec s' = SpmcPushVec.m_current_vec s /\
     SpmcPushVec.m_old_vecs s' = SpmcPushVec.m_old_vecs s /\
     c' = c) /\
    (SpmcPushVec.m_size s = c -> 0 < c < 2 ^ 63 ->
     SpmcPushVec.store s !! SpmcPushVec.m_current_vec s' = None /\
     SpmcPushVec.m_old_vecs s'
     = SpmcPushVec.m_old_vecs s ++ [SpmcPushVec.m_current_vec s'] /\
     c' = 2 * c /\
     SpmcPushVec.store s' !! SpmcPushVec.m_current_vec s
     = SpmcPushVec.store s !! SpmcPushVec.m_current_vec s) /\
    (c = 0 ->
     SpmcPushVec.m_current_vec s' = SpmcPushVec.m_current_vec s /\
     SpmcPushVec.m_old_vecs s' = SpmcPushVec.m_old_vecs s /\
     0 < c').
Proof.
  intros Hreach Hfits Hcap.
  destruct (reachable_inv T T_default s Hreach) as (Hinv & _ & Hagree).
  specialize (Hagree Hfits).
  destruct (reachable_within_capacity T T_default s Hreach) as (v & Hv & Hwithin).
  rewrite (capacity_detail T s v Hv) in Hcap. injection Hcap as <-.
  rewrite (current_elems_lookup T s v Hv) in Hagree.
  unfold SpmcPushVec.v_size in Hwithin.
  pose proof (push_back_detail T element s v Hv) as Hpush.
  destruct (Z.leb_spec (SpmcPushVec.v_capacity v) (SpmcPushVec.m_size s)) as [Hfull|Hroom];
    [destruct (Z.ltb_spec (SpmcPushVec.v_capacity v)
                 (wrap (SpmcPushVec.v_capacity v * 2))) as [Hmore|Hnomore]|];
    cbn [andb] in Hpush.
  - eexists. eexists. split; [exact Hpush|].
    split; [apply capacity_detail;
            cbn [SpmcPushVec.store SpmcPushVec.m_current_vec]; apply lookup_insert_eq|].
    cbn [SpmcPushVec.store SpmcPushVec.m_current_vec SpmcPushVec.m_old_vecs].
    split; [lia|]. split; [lia|]. split.
    + intros Heq Hrange. rewrite wrap_small in * by lia.
      split; [apply fresh_pointer_unused|]. split; [reflexivity|]. split.
      * unfold SpmcPushVec.vector_push_back, SpmcPushVec.vector_reserve,
          SpmcPushVec.vector_copy, SpmcPushVec.v_size.
        cbn [SpmcPushVec.v_elems SpmcPushVec.v_capacity].
        destruct (Z.ltb_spec (Z.of_nat (length (SpmcPushVec.v_elems v)))
                    (SpmcPushVec.v_capacity v * 2)) as [_|Hno]; [|lia].
        cbn [SpmcPushVec.v_elems SpmcPushVec.v_capacity].
        destruct (Z.ltb_spec (Z.of_nat (length (SpmcPushVec.v_elems v)))
                    (SpmcPushVec.v_capacity v * 2)) as [_|Hno]; [lia|lia].
      * rewrite !lookup_insert_ne; [reflexivity| |];
          intros Hsame; pose proof (fresh_pointer_unused T s) as Hfresh;
          rewrite Hsame in Hfresh; congruence.
    + intros Hzero. rewrite Hzero in Hmore. change (wrap (0 * 2)) with 0 in Hmore. lia.
  - eexists. eexists. split; [exact Hpush|].
    split; [apply capacity_detail;
            cbn [SpmcPushVec.store SpmcPushVec.m_current_vec]; apply lookup_insert_eq|].
    cbn [SpmcPushVec.store SpmcPushVec.m_current_vec SpmcPushVec.m_old_vecs].
    split; [lia|]. split; [lia|]. split.
    + intros Heq Hrange. rewrite wrap_small in Hnomore by lia. lia.
    + intros Hzero. split; [reflexivity|]. split; [reflexivity|].
      unfold SpmcPushVec.vector_push_back, SpmcPushVec.v_size.
      cbn [SpmcPushVec.v_capacity].
      destruct (Z.ltb_spec (Z.of_nat (length (SpmcPushVec.v_elems v)))
                  (SpmcPushVec.v_capacity v)) as [Hlt|_]; lia.
  - eexists. eexists. split; [exact Hpush|].
    split; [apply capacity_detail;
            cbn [SpmcPushVec.store SpmcPushVec.m_current_vec]; apply lookup_insert_eq|].
    cbn [SpmcPushVec.store SpmcPushVec.m_current_vec SpmcPushVec.m_old_vecs].
    split; [lia|]. split; [|split; [lia|]].
    + intros _. split; [reflexivity|]. split; [reflexivity|].
      unfold SpmcPushVec.vector_push_back, SpmcPushVec.v_size.
      cbn [SpmcPushVec.v_capacity].
      destruct (Z.ltb_spec (Z.of_nat (length (SpmcPushVec.v_elems v)))
                  (SpmcPushVec.v_capacity v)) as [_|Hno]; [reflexivity|lia].
    + intros Hzero. lia.
Qed.

(** [push_back_doubles_a_full_vector] on [spmc_push_vec<int> vec(0)]:
    the first [push_back] stays on the only backing vector. *)
Lemma push_back_doubles_witness :
  exists s s',
    SpmcPushVec.new_spmc_push_vec Z 0 = SpmcPushVec.Normal tt s /\
    SpmcPushVec.push_back Z 5 s = SpmcPushVec.Normal tt s' /\
    SpmcPushVec.m_old_vecs s' = SpmcPushVec.m_old_vecs s /\
    SpmcPushVec.m_current_vec s' = SpmcPushVec.m_current_vec s.
Proof.
  assert (exists s,
             SpmcPushVec.new_spmc_push_vec Z 0 = SpmcPushVec.Normal tt s /\
             Archive.current_elems s = [] /\
             SpmcPushVec.capacity s = SpmcPushVec.Normal 0 s)
    as (s & Hnew & Helems & Hcap).
  { eexists. split; [vm_compute; reflexivity|]. split; [vm_compute; reflexivity|].
    vm_compute. reflexivity. }
  assert (SpmcPushVec.reachable 0 s) as Hreach.
  { apply (SpmcPushVec.reachable_new Z 0 0). unfold SpmcPushVec.left_by.
    rewrite Hnew. reflexivity. }
  destruct (push_back_doubles_a_full_vector Z 0 s 5 0 Hreach)
    as (s' & c' & Hpush & _ & _ & _ & _ & Hzero).
  - unfold Archive.fits. rewrite Helems. reflexivity.
  - exact Hcap.
  - destruct (Hzero eq_refl) as (Hcur & Hold & _).
    exists s, s'. split; [exact Hnew|]. split; [exact Hpush|].
    split; [exact Hold|exact Hcur].
Defined.
